(** * whobpyt: model fitting loop and runtime argument check

    A shallow embedding of
    - [whobpyt/functions/arg_type_check.py] ([method_arg_type_check]), and
    - [whobpyt/optimization/modelfitting.py] ([Model_fitting.__init__],
      [Model_fitting.train], [Model_fitting.evaluate]).

    Python dictionaries are finite maps, numpy arrays are nested lists,
    exceptions are an error type, and the calls the fitting loop makes to its
    collaborators (the model, the cost object, the schedulers, [print]) are
    recorded in an event log. *)

From stdpp Require Import gmap strings list.
From Stdlib Require Import ZArith Lia.

Local Open Scope string_scope.

(** ** Exceptions and the error monad *)

Inductive Exn : Type :=
| IndexError (what : string)
| KeyError (key : string)
| AttributeError (name : string)
| UnboundLocalError (name : string)
| TypeError (msg : string)
| ValueError (msg : string)
| OneCycleTotalStepsError (total_steps : nat)
| OneCycleStepError (step_num total_steps : nat).

Inductive result (A : Type) : Type :=
| Ok (a : A)
| Raise (e : Exn).
Arguments Ok {A} a.
Arguments Raise {A} e.

Definition rbind {A B} (m : result A) (f : A → result B) : result B :=
  match m with
  | Ok a => f a
  | Raise e => Raise e
  end.

Definition from_option {A} (e : Exn) (o : option A) : result A :=
  match o with
  | Some a => Ok a
  | None => Raise e
  end.

Declare Scope res_scope.
Delimit Scope res_scope with res.
Notation "x <- m ;; k" := (rbind m (fun x => k))
  (at level 100, m at next level, right associativity) : res_scope.

Fixpoint foldlR {A B} (f : A → B → result A) (a : A) (l : list B) : result A :=
  match l with
  | [] => Ok a
  | b :: l' => rbind (f a b) (fun a' => foldlR f a' l')
  end.

Fixpoint mapR {A B} (f : A → result B) (l : list A) : result (list B) :=
  match l with
  | [] => Ok []
  | a :: l' => rbind (f a) (fun b => rbind (mapR f l') (fun bs => Ok (b :: bs)))
  end.

(** ** arg_type_check.py *)

Module ArgTypeCheck.

(** The classes that occur: the builtins, and the classes of the objects the
    checker itself holds in local variables. [TEmpty] is
    [inspect.Parameter.empty], the annotation of an unannotated parameter. *)
Inductive PyType : Type :=
| TObject | TInt | TBool | TFloat | TStr | TType
| TFunction | TSignature | TDict | TEmpty.

Global Instance PyType_eq_dec : EqDecision PyType.
Proof. solve_decision. Defined.

Definition type_name (t : PyType) : string :=
  match t with
  | TObject => "object" | TInt => "int" | TBool => "bool"
  | TFloat => "float" | TStr => "str" | TType => "type"
  | TFunction => "function" | TSignature => "Signature"
  | TDict => "dict" | TEmpty => "_empty"
  end.

(** [issubclass a b]: every class derives from [object], [bool] from [int]. *)
Definition issubclass (a b : PyType) : bool :=
  bool_decide (b = TObject) || bool_decide (a = b)
  || (bool_decide (a = TBool) && bool_decide (b = TInt)).

(** An annotation is a class, or some other object (a string annotation, a
    [typing] generic), for which [isinstance] raises [TypeError]. *)
Inductive Annotation : Type :=
| AClass (t : PyType)
| AString (s : string).

Definition Signature : Type := list (string * Annotation).

Inductive PyVal : Type :=
| VInt (z : Z)
| VBool (b : bool)
| VStr (s : string)
| VFloat (mantissa exponent : Z)
| VClass (t : PyType)
| VFunction (sig : Signature)
| VSignature (sig : Signature)
| VDict (d : list (string * Annotation)).

Definition type_of (v : PyVal) : PyType :=
  match v with
  | VInt _ => TInt | VBool _ => TBool | VStr _ => TStr
  | VFloat _ _ => TFloat | VClass _ => TType
  | VFunction _ => TFunction | VSignature _ => TSignature
  | VDict _ => TDict
  end.

Definition annotation_value (a : Annotation) : PyVal :=
  match a with
  | AClass t => VClass t
  | AString s => VStr s
  end.

Definition isinstance (v : PyVal) (a : Annotation) : result bool :=
  match a with
  | AClass t => Ok (issubclass (type_of v) t)
  | AString _ =>
      Raise (TypeError "isinstance() arg 2 must be a type, a tuple of types, or a union")
  end.

(** [inspect.signature(method_obj)]: the parameters with their annotations. *)
Definition inspect_signature (method_obj : PyVal) : result Signature :=
  match method_obj with
  | VFunction sig => Ok sig
  | _ => Raise (TypeError "object is not a callable object")
  end.

(** The dict comprehension of line 10: a later parameter of the same name
    replaces the value, the position of the first stays. *)
Fixpoint dict_set (d : list (string * Annotation)) (k : string) (a : Annotation)
  : list (string * Annotation) :=
  match d with
  | [] => [(k, a)]
  | (k', a') :: d' =>
      if bool_decide (k' = k) then (k', a) :: d' else (k', a') :: dict_set d' k a
  end.

Definition expected_types_of (sig : Signature) : list (string * Annotation) :=
  foldl (fun d p => dict_set d p.1 p.2) [] sig.

(** [locals()] inside [method_arg_type_check] during the loop of line 12:
    the function's own local variables, and nothing of the call that is
    being checked. [passed_arg_type] and [expected_arg_type] are bound only
    on the way to the [raise]. *)
Definition locals (method_obj : PyVal) (args_signature : Signature)
    (expected_types : list (string * Annotation))
    (arg_name : string) (arg_type : Annotation) : gmap string PyVal :=
  <["arg_type" := annotation_value arg_type]>
    (<["arg_name" := VStr arg_name]>
       (<["expected_types" := VDict expected_types]>
          (<["args_signature" := VSignature args_signature]>
             (<["method_obj" := method_obj]> ∅)))).

Definition annotation_name (a : Annotation) : result string :=
  match a with
  | AClass t => Ok (type_name t)
  | AString _ => Raise (AttributeError "__name__")
  end.

Definition mismatch_message (arg_name expected_arg_type passed_arg_type : string)
  : string :=
  arg_name +:+ " should be of type " +:+ expected_arg_type
    +:+ ", but got type " +:+ passed_arg_type +:+ " instead.".

(** The body of the loop of lines 12-17 for one [(arg_name, arg_type)]. *)
Definition check_one (method_obj : PyVal) (args_signature : Signature)
    (expected_types : list (string * Annotation))
    (p : string * Annotation) : result unit :=
  let arg_name := p.1 in
  let arg_type := p.2 in
  let loc := locals method_obj args_signature expected_types arg_name arg_type in
  if negb (bool_decide (arg_name = "self")) then
    match loc !! arg_name with
    | Some v =>
        (ok <- isinstance v arg_type ;;
         if negb ok then
           (expected_arg_type <- annotation_name arg_type ;;
            Raise (ValueError
                     (mismatch_message arg_name expected_arg_type
                        (type_name (type_of v)))))
         else Ok tt)%res
    | None => Ok tt
    end
  else Ok tt.

Definition method_arg_type_check (method_obj : PyVal) : result unit :=
  (args_signature <- inspect_signature method_obj ;;
   let expected_types := expected_types_of args_signature in
   foldlR (fun _ p => check_one method_obj args_signature expected_types p)
     tt expected_types)%res.

(** What the docstring promises, for comparison: the arguments passed to the
    checked method, by parameter name. *)
Definition PassedArgs : Type := gmap string PyVal.

Definition arg_mismatch (sig : Signature) (passed : PassedArgs)
    (arg_name : string) (arg_type : PyType) (v : PyVal) : Prop :=
  (arg_name, AClass arg_type) ∈ sig ∧ arg_name ≠ "self"
  ∧ passed !! arg_name = Some v ∧ issubclass (type_of v) arg_type = false.

Definition all_args_match (sig : Signature) (passed : PassedArgs) : Prop :=
  ∀ arg_name arg_type v,
    (arg_name, AClass arg_type) ∈ sig → passed !! arg_name = Some v →
    issubclass (type_of v) arg_type = true.

(** The names bound in the checker's own frame. *)
Definition own_locals : list string :=
  ["method_obj"; "args_signature"; "expected_types"; "arg_name"; "arg_type"].

(** The class of the object bound to [name] in the frame of the checker
    while it loops over parameters whose annotation is a class: the function
    under check, its [Signature], the dict of annotations, the loop variable
    [arg_name] (a [str]) and the loop variable [arg_type] (a class). *)
Definition own_local_type (name : string) : option PyType :=
  if bool_decide (name = "method_obj") then Some TFunction
  else if bool_decide (name = "args_signature") then Some TSignature
  else if bool_decide (name = "expected_types") then Some TDict
  else if bool_decide (name = "arg_name") then Some TStr
  else if bool_decide (name = "arg_type") then Some TType
  else None.

End ArgTypeCheck.

(** ** numpy arrays as nested lists *)

Module Numpy.
Section Arrays.
Context {A : Type}.

(** A 2-d array, indexed [row][column], and a 3-d array. *)
Definition Matrix : Type := list (list A).
Definition Tensor3 : Type := list (list (list A)).

(** [np.full((n0, n1, n2), x)]; [np.zeros] is [full3] at zero. *)
Definition full3 (n0 n1 n2 : nat) (x : A) : Tensor3 :=
  replicate n0 (replicate n1 (replicate n2 x)).

(** [l[a:b]] for [0 <= a], [0 <= b]: out-of-range bounds are clamped. *)
Definition slice (a b : nat) (l : list A) : list A :=
  take (b - a) (drop a l).

(** [t[:, :, a:b]]. *)
Definition slice_last (a b : nat) (t : Tensor3) : Tensor3 :=
  map (map (slice a b)) t.

(** [m[:, k:]]. *)
Definition columns_from (k : nat) (m : Matrix) : Matrix :=
  map (drop k) m.

(** [np.concatenate(ms, axis=1)] of 2-d arrays: the rows are joined; the
    arrays must agree in their number of rows, and there must be one. *)
Fixpoint concat_rows (acc : Matrix) (ms : list Matrix) : result Matrix :=
  match ms with
  | [] => Ok acc
  | m :: ms' =>
      if bool_decide (length acc = length m)
      then concat_rows (zip_with app acc m) ms'
      else Raise (ValueError "all the input array dimensions except for the concatenation axis must match exactly")
  end.

Definition concatenate_axis1 (ms : list Matrix) : result Matrix :=
  match ms with
  | [] => Raise (ValueError "need at least one array to concatenate")
  | m :: ms' => concat_rows m ms'
  end.

(** [m[mask]] for [mask] a pair of index arrays, given as index pairs. *)
Definition index_pairs (m : Matrix) (mask : list (nat * nat)) : result (list A) :=
  mapR (fun ij => from_option (IndexError "index is out of bounds")
                    (m !! ij.1 ≫= fun row => row !! ij.2)) mask.

(** Broadcasting one axis to length [n]: the axis has length [n], or it
    has length one and is repeated. *)
Definition broadcast_axis {B} (n : nat) (l : list B) : result (list B) :=
  if bool_decide (length l = n) then Ok l
  else match l with
       | [x] => Ok (replicate n x)
       | _ => Raise (ValueError "could not broadcast input array")
       end.

(** A 3-d array broadcast to shape [(n0, n1, n2)]. *)
Definition broadcast3 (n0 n1 n2 : nat) (t : Tensor3) : result Tensor3 :=
  (t' <- mapR (fun m => m' <- mapR (broadcast_axis n2) m ;;
                        broadcast_axis n1 m') t ;;
   broadcast_axis n0 t')%res.

(** The shape [(n0, n1, n2)] of a 3-d array. *)
Definition shape3 (n0 n1 n2 : nat) (t : Tensor3) : Prop :=
  length t = n0
  ∧ Forall (fun m => length m = n1 ∧ Forall (fun row => length row = n2) m) t.

(** [dst[:, :, a:] = src], with [src] already of the shape of the target. *)
Definition assign_last_from (a : nat) (dst src : Tensor3) : Tensor3 :=
  zip_with (zip_with (fun d s => (take a d ++ s)%list)) dst src.
End Arrays.

(** [np.tril_indices(n, -1)]: the positions strictly below the diagonal, in
    row-major order. *)
Definition tril_indices (n : nat) : list (nat * nat) :=
  flat_map (fun i => map (fun j => (i, j)) (seq 0 i)) (seq 0 n).
End Numpy.
Import Numpy.

(** ** modelfitting.py *)

(** The two parameter groups of [model.params_fitted]. *)
Inductive Group : Type := modelparameter | hyperparameter.

Global Instance Group_eq_dec : EqDecision Group.
Proof. solve_decision. Defined.

Section Fitting.
(** Floating-point scalars are opaque: a zero, the conversion of a Python
    int, and the comparison [a > b]. *)
Context {F : Type} (F0 : F) (F_of_Z : Z → F) (Fgtb : F → F → bool).
(** The parameter set of the model, a loss tensor with its graph, and the
    state of an optimizer are opaque as well. *)
Context {Params Loss Opt : Type}.

Abbreviation Mat := (@Matrix F).
Abbreviation Tens := (@Tensor3 F).

(** *** Events: the calls to collaborators, in program order *)

Inductive Event : Type :=
| EvPrintEpoch (i_epoch : nat)
| EvCreateIC (ver : nat)
| EvCreateDelayIC (ver : nat)
| EvForward (external : Tens) (X hE : Mat)
    (next_window : gmap string Mat) (hE_new : Mat)
| EvLoss (loss : F)
| EvSchedulerStep (g : Group)
| EvPrintRecording (i_epoch : nat) (loss fc_cor cos_sim : F)
| EvPrintEvaluate (fc_cor cos_sim : F).

(** A computation yields the events it emitted and a value or an exception. *)
Definition M (A : Type) : Type := list Event * result A.

Definition ret {A} (a : A) : M A := ([], Ok a).
Definition raise {A} (e : Exn) : M A := ([], Raise e).
Definition emit (ev : Event) : M unit := ([ev], Ok tt).
Definition lift {A} (r : result A) : M A := ([], r).

Definition bind {A B} (m : M A) (f : A → M B) : M B :=
  match m with
  | (log1, Ok a) => match f a with (log2, r) => ((log1 ++ log2)%list, r) end
  | (log1, Raise e) => (log1, Raise e)
  end.

Declare Scope M_scope.
Delimit Scope M_scope with M.
Notation "x <- m ;; k" := (bind m (fun x => k))
  (at level 100, m at next level, right associativity) : M_scope.

(** [for a in l: s = body(a, s)]. *)
Fixpoint for_each {A S} (body : A → S → M S) (l : list A) (s : S) : M S :=
  match l with
  | [] => ret s
  | a :: l' => bind (body a s) (for_each body l')
  end.

(** The same with [break]: the body says whether it left the loop. *)
Fixpoint for_each_break {A S} (body : A → S → M (bool * S)) (l : list A) (s : S)
  : M S :=
  match l with
  | [] => ret s
  | a :: l' =>
      bind (body a s)
        (fun r => if r.1 then ret r.2 else for_each_break body l' r.2)
  end.

(** *** The collaborators *)

(** The model, as section 6 of the interface has it. [forward] is the call
    [model(external, X, hE)]; [param_value] is
    [getattr(model.params, name).value()]; [state_dict_keys] and
    [state_dict_value] give [model.state_dict()], whose keys are fixed by
    the structure of the module. *)
Record Model : Type := {
  node_size : nat;
  output_size : nat;
  steps_per_TR : nat;
  TRs_per_window : nat;
  step_size : F;
  state_names : list string;
  output_names : list string;
  use_fit_gains : bool;
  use_fit_lfm : bool;
  track_params : list string;
  createIC : nat → Mat;
  createDelayIC : nat → Mat;
  forward : Params → Tens → Mat → Mat → gmap string Mat * Mat;
  param_value : Params → string → option (list F);
  state_dict_keys : gset string;
  state_dict_value : Params → string → list F;
  sc : Mat;
  sc_fitted : Params → Mat;
  lm : Params → list F
}.

Definition state_dict (m : Model) (p : Params) : list (string * list F) :=
  map (fun k => (k, state_dict_value m p k)) (elements (state_dict_keys m)).

(** [cost.loss(sim, ts_window, model, next_window)]. *)
Definition Cost : Type := Mat → Mat → Params → gmap string Mat → Loss.

(** torch and numpy functions that stay opaque: the value of a loss
    ([loss.detach().numpy()]), Adam and its step on the gradient of a loss,
    the learning rate of an optimizer, the one-cycle annealing curve,
    [np.corrcoef] of the rows of a matrix, the [[0, 1]] entry of
    [np.corrcoef(x, y)], and [np.diag(cosine_similarity(a, b)).mean()]. *)
Record Torch : Type := {
  loss_value : Loss → F;
  Adam : Group → Params → F → Opt;
  opt_step : Opt → Loss → Params → Opt * Params;
  opt_lr : Opt → F;
  opt_set_lr : F → Opt → Opt;
  one_cycle_lr : F → nat → nat → F;
  corrcoef : Mat → Mat;
  corrcoef01 : list F → list F → F;
  cos_sim_mean : Mat → Mat → F
}.

Context (torch : Torch).

(** [optim.lr_scheduler.OneCycleLR]: the scheduler counts its steps in
    [last_epoch]. The constructor refuses a [total_steps] that is not
    positive and takes the initial step; [step()] advances the counter and
    raises once it exceeds [total_steps] ("Tried to step ... times"). *)
Record OneCycleLR : Type := {
  max_lr : F;
  total_steps : nat;
  last_epoch : nat
}.

Definition OneCycleLR_init (optimizer : Opt) (max_lr_ : F) (total_steps_ : nat)
  : result (OneCycleLR * Opt) :=
  if bool_decide (total_steps_ = 0) then Raise (OneCycleTotalStepsError total_steps_)
  else Ok ({| max_lr := max_lr_; total_steps := total_steps_; last_epoch := 0 |},
           opt_set_lr torch (one_cycle_lr torch max_lr_ total_steps_ 0) optimizer).

Definition scheduler_step (s : OneCycleLR) (optimizer : Opt)
  : result (OneCycleLR * Opt) :=
  let step_num := S (last_epoch s) in
  if bool_decide (total_steps s < step_num)
  then Raise (OneCycleStepError step_num (total_steps s))
  else Ok ({| max_lr := max_lr s; total_steps := total_steps s;
              last_epoch := step_num |},
           opt_set_lr torch (one_cycle_lr torch (max_lr s) (total_steps s) step_num)
             optimizer).

(** The stimulus argument [u]: a Python int, or a 3-d array
    (node, step, TR). *)
Inductive Stimulus : Type :=
| UInt (z : Z)
| UArray (t : Tens).

Definition isinstance_int (u : Stimulus) : bool :=
  match u with
  | UInt _ => true
  | UArray _ => false
  end.

(** Modelled from the spec: [whobpyt.data.Recording] is not among the
    sources; section 6 describes it as a time-stepped container with an
    associated sampling step size. *)
Record Recording : Type := {
  rec_data : Mat;
  rec_step_size : F
}.

(** Modelled from the spec: [whobpyt.datatypes.outputs.OutputNM] is not
    among the sources; [__init__] calls it the placeholder for the history of
    model parameters and loss, so every history starts empty. [attrs] holds
    what [setattr(self.trainingStats, key, ...)] stores. *)
Record OutputNM : Type := {
  stats_loss : list F;
  stats_weights : option (list (list F));
  stats_leadfield : option (list (list F));
  stats_attrs : gmap string (list (list F))
}.

Definition OutputNM_init : OutputNM :=
  {| stats_loss := []; stats_weights := None; stats_leadfield := None;
     stats_attrs := ∅ |}.

(** *** The fitting object *)

Record Model_fitting : Type := {
  model : Model;
  params : Params;
  u : option Stimulus;
  trainData : list (list Mat);
  lastRec : option (gmap string Recording);
  num_epoches : nat;
  num_windows : nat;
  trainingStats : OutputNM;
  cost : Cost
}.

(** [__init__]: [num_windows] is the window count of the first recording. *)
Definition Model_fitting_init (model_ : Model) (params_ : Params)
    (ts : list (list Mat)) (num_epoches_ : nat) (cost_ : Cost)
  : result Model_fitting :=
  match ts with
  | [] => Raise (IndexError "list index out of range")
  | ts0 :: _ =>
      Ok {| model := model_; params := params_; u := None; trainData := ts;
            lastRec := None; num_epoches := num_epoches_;
            num_windows := length ts0; trainingStats := OutputNM_init;
            cost := cost_ |}
  end.

Definition names (m : Model) : list string :=
  (state_names m ++ output_names m)%list.

(** A value of [windListDict]: the list of the windows of a recording, and,
    once the recording is finished, their concatenation. *)
Inductive WinVal : Type :=
| Windows (l : list Mat)
| Array (a : Mat).

(** [for name in names: windListDict[name] = []]. *)
Definition windListDict_init (m : Model) : gmap string WinVal :=
  foldl (fun d name => <[name := Windows []]> d) ∅ (names m).

(** [for name in names: windListDict[name].append(next_window[name]...)]. *)
Definition windListDict_append (m : Model) (next_window : gmap string Mat)
    (d : gmap string WinVal) : result (gmap string WinVal) :=
  foldlR (fun d name =>
            w <- from_option (KeyError name) (next_window !! name) ;;
            v <- from_option (KeyError name) (d !! name) ;;
            match v with
            | Windows l => Ok (<[name := Windows (l ++ [w])]> d)
            | Array _ => Raise (AttributeError "append")
            end)%res d (names m).

(** [for name in names: windListDict[name] =
    np.concatenate(windListDict[name], axis=1)]. A value that is a 2-d array
    already is a sequence of 1-d arrays, which have no axis 1. *)
Definition windListDict_concatenate (m : Model) (d : gmap string WinVal)
  : result (gmap string WinVal) :=
  foldlR (fun d name =>
            v <- from_option (KeyError name) (d !! name) ;;
            match v with
            | Windows l =>
                a <- concatenate_axis1 l ;; Ok (<[name := Array a]> d)
            | Array _ =>
                Raise (ValueError "axis 1 is out of bounds for array of dimension 1")
            end)%res d (names m).

(** [windListDict[name]] used as an array. *)
Definition windListDict_array (d : gmap string WinVal) (name : string)
  : result Mat :=
  (v <- from_option (KeyError name) (d !! name) ;;
   match v with
   | Array a => Ok a
   | Windows _ => Raise (TypeError "list indices must be integers or slices, not tuple")
   end)%res.

(** The FC correlation diagnostic,
    [np.corrcoef(fc_sim[mask_e], fc[mask_e])[0, 1]] with
    [fc_sim = np.corrcoef(ts_sim[:, transient:])] and
    [fc = np.corrcoef(ts_emp)]. *)
Definition FC_cor (transient : nat) (mask_e : list (nat * nat))
    (ts_sim ts_emp : Mat) : result F :=
  (let fc := corrcoef torch ts_emp in
   let fc_sim := corrcoef torch (columns_from transient ts_sim) in
   a <- index_pairs fc_sim mask_e ;;
   b <- index_pairs fc mask_e ;;
   Ok (corrcoef01 torch a b))%res.

(** [self.lastRec]: one [Recording] per name. *)
Definition make_lastRec (m : Model) (d : option (gmap string WinVal))
  : result (gmap string Recording) :=
  foldlR (fun r name =>
            d' <- from_option (UnboundLocalError "windListDict") d ;;
            a <- windListDict_array d' name ;;
            Ok (<[name := {| rec_data := a; rec_step_size := step_size m |}]> r))%res
    ∅ (names m).

(** *** train *)

(** The arguments of [train]. *)
Record TrainArgs : Type := {
  learningrate : F;
  arg_u : Stimulus;
  epoch_min : Z;
  r_lb : F;
  lr_hyper : F;
  lr_scheduler : bool
}.

(** The local variables of [train] that the loops update. *)
Record SimState : Type := {
  X : Mat;
  hE : Mat
}.

Record OptimState : Type := {
  hyperparameter_optimizer : Opt;
  modelparameter_optimizer : Opt;
  schedulers : option (OneCycleLR * OneCycleLR);
  hlrs : list F;
  mlrs : list F
}.

Record History : Type := {
  fit_param : gmap string (list (list F));
  fit_sc : option (list (list F));
  fit_lm : option (list (list F));
  loss_his : list F
}.

Record LoopState : Type := {
  sim : SimState;
  cur_params : Params;
  optim : OptimState;
  hist : History;
  last_loss : option Loss;
  windListDict : option (gmap string WinVal);
  out_loss : list F
}.

(** Lines 86-91: the two one-cycle schedulers, for
    [num_windows * num_epoches] steps. *)
Definition optim_init (self : Model_fitting) (a : TrainArgs) : result OptimState :=
  let modelparameter_optimizer_ :=
    Adam torch modelparameter (params self) (learningrate a) in
  let hyperparameter_optimizer_ :=
    Adam torch hyperparameter (params self) (lr_hyper a) in
  if lr_scheduler a then
    (let total_steps_ := num_windows self * num_epoches self in
     h <- OneCycleLR_init hyperparameter_optimizer_ (lr_hyper a) total_steps_ ;;
     m <- OneCycleLR_init modelparameter_optimizer_ (learningrate a) total_steps_ ;;
     Ok {| hyperparameter_optimizer := h.2; modelparameter_optimizer := m.2;
           schedulers := Some (h.1, m.1); hlrs := []; mlrs := [] |})%res
  else
    Ok {| hyperparameter_optimizer := hyperparameter_optimizer_;
          modelparameter_optimizer := modelparameter_optimizer_;
          schedulers := None; hlrs := []; mlrs := [] |}.

Definition exclude_param_of (m : Model) : list string :=
  ((if use_fit_gains m then ["gains_con"] else [])
     ++ (if use_fit_lfm m then ["lm"] else []))%list.

(** Lines 115-122: the first snapshot of every tracked parameter. *)
Definition fit_param_init (m : Model) (p : Params)
  : result (gmap string (list (list F))) :=
  if bool_decide (track_params m ≠ []) then
    foldlR (fun fp par_name =>
              v <- from_option (AttributeError par_name) (param_value m p par_name) ;;
              Ok (<[par_name := [v]]> fp))%res ∅ (track_params m)
  else
    Ok (foldl (fun fp kv =>
                 if bool_decide (kv.1 ∈ exclude_param_of m) then fp
                 else <[kv.1 := [kv.2]]> fp) ∅ (state_dict m p)).

(** Lines 192-199: one more snapshot of every tracked parameter. *)
Definition fit_param_append (m : Model) (p : Params)
    (fp : gmap string (list (list F))) : result (gmap string (list (list F))) :=
  if bool_decide (track_params m ≠ []) then
    foldlR (fun fp par_name =>
              v <- from_option (AttributeError par_name) (param_value m p par_name) ;;
              l <- from_option (KeyError par_name) (fp !! par_name) ;;
              Ok (<[par_name := (l ++ [v])%list]> fp))%res fp (track_params m)
  else
    foldlR (fun fp kv =>
              if bool_decide (kv.1 ∈ exclude_param_of m) then Ok fp
              else
                (l <- from_option (KeyError kv.1) (fp !! kv.1) ;;
                 Ok (<[kv.1 := (l ++ [kv.2])%list]> fp))%res) fp (state_dict m p).

(** Lines 102-124. *)
Definition hist_init (m : Model) (p : Params) (mask : list (nat * nat))
  : result History :=
  (fit_sc_ <- (if use_fit_gains m
               then s <- index_pairs (sc m) mask ;; Ok (Some [s])
               else Ok None) ;;
   let fit_lm_ := if use_fit_lfm m then Some [lm m p] else None in
   fit_param_ <- fit_param_init m p ;;
   Ok {| fit_param := fit_param_; fit_sc := fit_sc_; fit_lm := fit_lm_;
         loss_his := [] |})%res.

(** Line 172: [loss_his.append(loss.detach().numpy())]. *)
Definition loss_his_append (loss : F) (h : History) : History :=
  {| fit_param := fit_param h; fit_sc := fit_sc h; fit_lm := fit_lm h;
     loss_his := (loss_his h ++ [loss])%list |}.

(** Lines 190-204. *)
Definition hist_append (m : Model) (p : Params) (mask : list (nat * nat))
    (h : History) : result History :=
  (fit_param_ <- fit_param_append m p (fit_param h) ;;
   fit_sc_ <- (if use_fit_gains m then
                 s <- index_pairs (sc_fitted m p) mask ;;
                 l <- from_option (AttributeError "append") (fit_sc h) ;;
                 Ok (Some (l ++ [s])%list)
               else Ok (fit_sc h)) ;;
   fit_lm_ <- (if use_fit_lfm m then
                 l <- from_option (AttributeError "append") (fit_lm h) ;;
                 Ok (Some (l ++ [lm m p])%list)
               else Ok (fit_lm h)) ;;
   Ok {| fit_param := fit_param_; fit_sc := fit_sc_; fit_lm := fit_lm_;
         loss_his := loss_his h |})%res.

(** Lines 181-188: record the learning rates, step both schedulers. *)
Definition schedulers_step (a : TrainArgs) (o : OptimState) : M OptimState :=
  if lr_scheduler a then
    match schedulers o with
    | None => raise (UnboundLocalError "hlrs")
    | Some hm =>
        (let hlrs_ := (hlrs o ++ [opt_lr torch (hyperparameter_optimizer o)])%list in
         let mlrs_ := (mlrs o ++ [opt_lr torch (modelparameter_optimizer o)])%list in
         _ <- emit (EvSchedulerStep hyperparameter) ;;
         h <- lift (scheduler_step hm.1 (hyperparameter_optimizer o)) ;;
         _ <- emit (EvSchedulerStep modelparameter) ;;
         m <- lift (scheduler_step hm.2 (modelparameter_optimizer o)) ;;
         ret {| hyperparameter_optimizer := h.2; modelparameter_optimizer := m.2;
                schedulers := Some (h.1, m.1); hlrs := hlrs_; mlrs := mlrs_ |})%M
    end
  else ret o.

(** The external input of window [win_idx] (lines 151-155): the tensor
    assigned before the window loop stays when [u] is an int. *)
Definition train_external (m : Model) (u_ : Stimulus) (win_idx : nat)
    (external : Tens) : Tens :=
  if negb (isinstance_int u_) then
    match u_ with
    | UArray t =>
        slice_last (win_idx * TRs_per_window m) ((win_idx + 1) * TRs_per_window m) t
    | UInt _ => external
    end
  else external.

(** LOOP 3/4, lines 145-209: one window. *)
Definition train_window (self : Model_fitting) (a : TrainArgs)
    (mask : list (nat * nat)) (windowedTS : list Mat) (win_idx : nat)
    (es : Tens * LoopState) : M (Tens * LoopState) :=
  (let m := model self in
   let s := es.2 in
   let external := train_external m (arg_u a) win_idx es.1 in
   let out := forward m (cur_params s) external (X (sim s)) (hE (sim s)) in
   let next_window := out.1 in
   let hE_new := out.2 in
   _ <- emit (EvForward external (X (sim s)) (hE (sim s)) next_window hE_new) ;;
   ts_window <- lift (from_option (IndexError "index is out of bounds")
                        (windowedTS !! win_idx)) ;;
   name0 <- lift (from_option (IndexError "list index out of range")
                    (output_names m !! 0)) ;;
   sim_ <- lift (from_option (KeyError name0) (next_window !! name0)) ;;
   let loss := cost self sim_ ts_window (cur_params s) next_window in
   _ <- emit (EvLoss (loss_value torch loss)) ;;
   d <- lift (from_option (UnboundLocalError "windListDict") (windListDict s)) ;;
   d' <- lift (windListDict_append m next_window d) ;;
   let hist1 := loss_his_append (loss_value torch loss) (hist s) in
   let h := opt_step torch (hyperparameter_optimizer (optim s)) loss (cur_params s) in
   let mo := opt_step torch (modelparameter_optimizer (optim s)) loss h.2 in
   o <- schedulers_step a
          {| hyperparameter_optimizer := h.1; modelparameter_optimizer := mo.1;
             schedulers := schedulers (optim s);
             hlrs := hlrs (optim s); mlrs := mlrs (optim s) |} ;;
   hist_ <- lift (hist_append m mo.2 mask hist1) ;;
   X_ <- lift (from_option (KeyError "current_state")
                 (next_window !! "current_state")) ;;
   ret (external,
        {| sim := {| X := X_; hE := hE_new |}; cur_params := mo.2; optim := o;
           hist := hist_; last_loss := Some loss; windListDict := Some d';
           out_loss := out_loss s |}))%M.

(** The early-stop test of line 232. *)
Definition early_stop (a : TrainArgs) (i_epoch : nat) (fc_cor : F) : bool :=
  bool_decide (epoch_min a < Z.of_nat i_epoch)%Z && Fgtb fc_cor (r_lb a).

(** LOOP 2/4, lines 132-233: one recording; the result says whether the
    [break] of line 233 was taken. *)
Definition train_recording (self : Model_fitting) (a : TrainArgs)
    (mask mask_e : list (nat * nat)) (i_epoch : nat) (windowedTS : list Mat)
    (s : LoopState) : M (bool * LoopState) :=
  (let m := model self in
   let s0 := {| sim := sim s; cur_params := cur_params s; optim := optim s;
                hist := hist s; last_loss := last_loss s;
                windListDict := Some (windListDict_init m);
                out_loss := out_loss s |} in
   let external := full3 (node_size m) (steps_per_TR m) (TRs_per_window m) F0 in
   es <- for_each (train_window self a mask windowedTS)
           (seq 0 (num_windows self)) (external, s0) ;;
   let s1 := es.2 in
   ts_emp <- lift (concatenate_axis1 windowedTS) ;;
   d <- lift (from_option (UnboundLocalError "windListDict") (windListDict s1)) ;;
   d' <- lift (windListDict_concatenate m d) ;;
   name0 <- lift (from_option (IndexError "list index out of range")
                    (output_names m !! 0)) ;;
   ts_sim <- lift (windListDict_array d' name0) ;;
   loss <- lift (from_option (AttributeError "detach") (last_loss s1)) ;;
   fc_cor <- lift (FC_cor 10 mask_e ts_sim ts_emp) ;;
   _ <- emit (EvPrintRecording i_epoch (loss_value torch loss) fc_cor
                (cos_sim_mean torch ts_sim ts_emp)) ;;
   ret (early_stop a i_epoch fc_cor,
        {| sim := sim s1; cur_params := cur_params s1; optim := optim s1;
           hist := hist s1; last_loss := last_loss s1;
           windListDict := Some d'; out_loss := loss_his (hist s1) |}))%M.

(** LOOP 1/4, lines 127-233: one epoch. *)
Definition train_epoch (self : Model_fitting) (a : TrainArgs)
    (mask mask_e : list (nat * nat)) (i_epoch : nat) (s : LoopState)
  : M LoopState :=
  (_ <- emit (EvPrintEpoch i_epoch) ;;
   for_each_break (train_recording self a mask mask_e i_epoch) (trainData self) s)%M.

(** Lines 240-246. *)
Definition write_trainingStats (m : Model) (s : LoopState) (old : OutputNM)
  : OutputNM :=
  {| stats_loss := out_loss s;
     stats_weights := if use_fit_gains m then fit_sc (hist s) else stats_weights old;
     stats_leadfield := if use_fit_lfm m then fit_lm (hist s) else stats_leadfield old;
     stats_attrs := fit_param (hist s) ∪ stats_attrs old |}.

(** The state the loops start from (lines 82-124). *)
Definition train_init (self : Model_fitting) (a : TrainArgs) : M LoopState :=
  (let m := model self in
   o <- lift (optim_init self a) ;;
   _ <- emit (EvCreateIC 0) ;;
   _ <- emit (EvCreateDelayIC 0) ;;
   h <- lift (hist_init m (params self) (tril_indices (node_size m))) ;;
   ret {| sim := {| X := createIC m 0; hE := createDelayIC m 0 |};
          cur_params := params self; optim := o; hist := h; last_loss := None;
          windListDict := None; out_loss := stats_loss (trainingStats self) |})%M.

Definition train_loops (self : Model_fitting) (a : TrainArgs) (s : LoopState)
  : M LoopState :=
  let m := model self in
  for_each (train_epoch self a (tril_indices (node_size m))
              (tril_indices (output_size m)))
    (seq 0 (num_epoches self)) s.

Definition train (self : Model_fitting) (a : TrainArgs) : M Model_fitting :=
  (let m := model self in
   s0 <- train_init self a ;;
   s <- train_loops self a s0 ;;
   lastRec_ <- lift (make_lastRec m (windListDict s)) ;;
   ret {| model := m; params := cur_params s; u := Some (arg_u a);
          trainData := trainData self; lastRec := Some lastRec_;
          num_epoches := num_epoches self; num_windows := num_windows self;
          trainingStats := write_trainingStats m s (trainingStats self);
          cost := cost self |})%M.

(** *** evaluate *)

Record EvalState : Type := {
  ev_sim : SimState;
  ev_windListDict : gmap string WinVal
}.

(** The stimulus as the assignment of line 282 takes it: broadcast to the
    shape (node_size, steps_per_TR, n) of the part of [u_hat] it is written
    to. *)
Definition stimulus_array (m : Model) (n : nat) (u_ : Stimulus) : result Tens :=
  match u_ with
  | UInt z => Ok (full3 (node_size m) (steps_per_TR m) n (F_of_Z z))
  | UArray t => broadcast3 (node_size m) (steps_per_TR m) n t
  end.

(** Lines 279-282: zero for the burn-in windows, [u] afterwards. *)
Definition make_u_hat (m : Model) (num_windows_ base_window_num : nat)
    (u_ : Stimulus) : result Tens :=
  (let burn := base_window_num * TRs_per_window m in
   let total := burn + num_windows_ * TRs_per_window m in
   let zeros := full3 (node_size m) (steps_per_TR m) total F0 in
   src <- stimulus_array m (total - burn) u_ ;;
   Ok (assign_last_from burn zeros src))%res.

Definition eval_external (m : Model) (u_hat : Tens) (win_idx : nat) : Tens :=
  slice_last (win_idx * TRs_per_window m) ((win_idx + 1) * TRs_per_window m) u_hat.

(** LOOP 1/2, lines 285-303: one window. *)
Definition evaluate_window (self : Model_fitting) (base_window_num : nat)
    (u_hat : Tens) (win_idx : nat) (s : EvalState) : M EvalState :=
  (let m := model self in
   let external := eval_external m u_hat win_idx in
   let out := forward m (params self) external (X (ev_sim s)) (hE (ev_sim s)) in
   let next_window := out.1 in
   let hE_new := out.2 in
   _ <- emit (EvForward external (X (ev_sim s)) (hE (ev_sim s)) next_window hE_new) ;;
   d <- lift (if bool_decide (Z.of_nat base_window_num - 1 < Z.of_nat win_idx)%Z
              then windListDict_append m next_window (ev_windListDict s)
              else Ok (ev_windListDict s)) ;;
   X_ <- lift (from_option (KeyError "current_state")
                 (next_window !! "current_state")) ;;
   ret {| ev_sim := {| X := X_; hE := hE_new |}; ev_windListDict := d |})%M.

Definition evaluate (self : Model_fitting) (base_window_num : nat) (u_ : Stimulus)
  : M Model_fitting :=
  (let m := model self in
   let transient_num := 10 in
   _ <- emit (EvCreateIC 1) ;;
   _ <- emit (EvCreateDelayIC 1) ;;
   let mask_e := tril_indices (output_size m) in
   u_hat <- lift (make_u_hat m (num_windows self) base_window_num u_) ;;
   s <- for_each (evaluate_window self base_window_num u_hat)
          (seq 0 (num_windows self + base_window_num))
          {| ev_sim := {| X := createIC m 1; hE := createDelayIC m 1 |};
             ev_windListDict := windListDict_init m |} ;;
   windowedTS <- lift (from_option (IndexError "list index out of range")
                         (trainData self !! 0)) ;;
   ts_emp <- lift (concatenate_axis1 windowedTS) ;;
   d <- lift (windListDict_concatenate m (ev_windListDict s)) ;;
   name0 <- lift (from_option (IndexError "list index out of range")
                    (output_names m !! 0)) ;;
   ts_sim <- lift (windListDict_array d name0) ;;
   fc_cor <- lift (FC_cor transient_num mask_e ts_sim ts_emp) ;;
   _ <- emit (EvPrintEvaluate fc_cor (cos_sim_mean torch ts_sim ts_emp)) ;;
   lastRec_ <- lift (make_lastRec m (Some d)) ;;
   ret {| model := m; params := params self; u := Some u_;
          trainData := trainData self; lastRec := Some lastRec_;
          num_epoches := num_epoches self; num_windows := num_windows self;
          trainingStats := trainingStats self; cost := cost self |})%M.

(** *** Reading the event log *)

Record ForwardCall : Type := {
  call_external : Tens;
  call_X : Mat;
  call_hE : Mat;
  call_next_window : gmap string Mat;
  call_hE_new : Mat
}.

Definition forward_call (ev : Event) : option ForwardCall :=
  match ev with
  | EvForward e x h n h' =>
      Some {| call_external := e; call_X := x; call_hE := h;
              call_next_window := n; call_hE_new := h' |}
  | _ => None
  end.

(** The calls [model(external, X, hE)], one per window processed, in order. *)
Definition forward_calls (log : list Event) : list ForwardCall :=
  omap forward_call log.

Definition windows_processed (log : list Event) : nat :=
  length (forward_calls log).

(** The values of the calls [cost.loss(...)], in order. *)
Definition losses (log : list Event) : list F :=
  omap (fun ev => match ev with EvLoss l => Some l | _ => None end) log.

Definition createIC_calls (log : list Event) : list nat :=
  omap (fun ev => match ev with EvCreateIC v => Some v | _ => None end) log.

Definition createDelayIC_calls (log : list Event) : list nat :=
  omap (fun ev => match ev with EvCreateDelayIC v => Some v | _ => None end) log.

(** The recordings that were finished: epoch and FC correlation printed. *)
Definition recordings_finished (log : list Event) : list (nat * F) :=
  omap (fun ev => match ev with
                  | EvPrintRecording i _ fc _ => Some (i, fc)
                  | _ => None
                  end) log.

Definition epochs_started (log : list Event) : list nat :=
  omap (fun ev => match ev with EvPrintEpoch i => Some i | _ => None end) log.

(** The calls [step()] of the scheduler of a group. *)
Definition scheduler_steps (g : Group) (log : list Event) : nat :=
  length (omap (fun ev => match ev with
                          | EvSchedulerStep g' =>
                              if bool_decide (g' = g) then Some tt else None
                          | _ => None
                          end) log).

(** Whether the [break] of line 233 was taken in a run with this log. *)
Definition early_stop_fired (a : TrainArgs) (log : list Event) : bool :=
  existsb (fun r => early_stop a r.1 r.2) (recordings_finished log).

(** The events after the first recording whose early-stop test succeeded. *)
Fixpoint after_first_stop (a : TrainArgs) (log : list Event) : list Event :=
  match log with
  | [] => []
  | ev :: log' =>
      match ev with
      | EvPrintRecording i _ fc _ =>
          if early_stop a i fc then log' else after_first_stop a log'
      | _ => after_first_stop a log'
      end
  end.

(** The state a call leaves for the next window (lines 208-209). *)
Definition next_state (c : ForwardCall) : option SimState :=
  X_ ← call_next_window c !! "current_state";
  Some {| X := X_; hE := call_hE_new c |}.

(** Every call starts from the state the call before it left. *)
Fixpoint chained (cur : option SimState) (calls : list ForwardCall) : Prop :=
  match calls with
  | [] => True
  | c :: rest =>
      cur = Some {| X := call_X c; hE := call_hE c |} ∧ chained (next_state c) rest
  end.

(** A part of a log in which nothing is called but the schedulers. *)
Definition quiet (log : list Event) : Prop :=
  forward_calls log = [] ∧ losses log = [] ∧ createIC_calls log = []
  ∧ createDelayIC_calls log = [] ∧ recordings_finished log = []
  ∧ epochs_started log = [].

(** The call that window [k] makes from state [s]. *)
Definition window_call (self : Model_fitting) (a : TrainArgs) (k : nat)
    (ext : Tens) (s : LoopState) : ForwardCall :=
  let m := model self in
  let ext' := train_external m (arg_u a) k ext in
  let out := forward m (cur_params s) ext' (X (sim s)) (hE (sim s)) in
  {| call_external := ext'; call_X := X (sim s); call_hE := hE (sim s);
     call_next_window := out.1; call_hE_new := out.2 |}.

(** The state in which a recording starts its window loop. *)
Definition recording_start (self : Model_fitting) (s : LoopState) : LoopState :=
  {| sim := sim s; cur_params := cur_params s; optim := optim s;
     hist := hist s; last_loss := last_loss s;
     windListDict := Some (windListDict_init (model self));
     out_loss := out_loss s |}.

(** [np.zeros([node_size, steps_per_TR, TRs_per_window])]. *)
Definition zeros_external (self : Model_fitting) : Tens :=
  full3 (node_size (model self)) (steps_per_TR (model self))
    (TRs_per_window (model self)) F0.

(** The state after a sequence of chained calls that started from [cur]. *)
Definition end_state (cur : option SimState) (calls : list ForwardCall)
  : option SimState :=
  match last calls with
  | Some c => next_state c
  | None => cur
  end.

(** *** Invariants of the loops *)

Local Close Scope string_scope.

Implicit Types (self : Model_fitting) (a : TrainArgs) (s : LoopState).
Implicit Types (log : list Event).

(** What holds of the calls of a run of the loops, however it ends: no
    initial state is created, every call starts where the one before ended,
    and with an int for [u] every external input is the zero tensor. *)
Definition external_ok self a (c : ForwardCall) : Prop :=
  match arg_u a with
  | UInt _ => call_external c = zeros_external self
  | UArray t =>
      ∃ k, call_external c
           = slice_last (k * TRs_per_window (model self))
               ((k + 1) * TRs_per_window (model self)) t
  end.

Definition calls_ok self a (cur : SimState) log : Prop :=
  createIC_calls log = [] ∧ createDelayIC_calls log = []
  ∧ chained (Some cur) (forward_calls log)
  ∧ Forall (external_ok self a) (forward_calls log).

(** A piece of a run carries the state: its calls are in order from the
    state it started in, and it ends in the state the last call left. *)
Definition carries self a s log (r : result (LoopState))
  : Prop :=
  calls_ok self a (sim s) log
  ∧ ∀ s', r = Ok s' → end_state (Some (sim s)) (forward_calls log) = Some (sim s').

(** The schedulers, when enabled, have taken [n] of their [T] steps. *)
Definition sched_ok a (T n : nat) (o : OptimState) : Prop :=
  lr_scheduler a = true →
  ∃ hs ms, schedulers o = Some (hs, ms)
           ∧ total_steps hs = T ∧ total_steps ms = T
           ∧ last_epoch hs = n ∧ last_epoch ms = n ∧ n ≤ T.

(** A run that raised with [n] steps taken before it: it has not gone past
    step [T], or step [T + 1] is what raised. *)
Definition sched_raise (T n : nat) log (e : Exn) : Prop :=
  n + scheduler_steps hyperparameter log ≤ T
  ∨ (n + scheduler_steps hyperparameter log = T + 1
     ∧ e = OneCycleStepError (T + 1) T).

(** What a successful piece of the run did to the histories. *)
Definition counted a (T : nat) s log s' : Prop :=
  loss_his (hist s') = (loss_his (hist s) ++ losses log)%list
  ∧ windows_processed log = length (losses log)
  ∧ (lr_scheduler a = true →
     scheduler_steps hyperparameter log = windows_processed log)
  ∧ ∀ n, sched_ok a T n (optim s) →
         sched_ok a T (n + windows_processed log) (optim s').

Definition counts a (T : nat) s log (r : result (LoopState))
  : Prop :=
  match r with
  | Ok s' => counted a T s log s'
  | Raise e =>
      ∀ n, sched_ok a T n (optim s) → lr_scheduler a = true →
           sched_raise T n log e
  end.

(** The names whose history [fit_param] holds. *)
Definition tracked_names (m : Model) : list string :=
  if bool_decide (track_params m ≠ []) then track_params m
  else filter (fun k => k ∉ exclude_param_of m) (elements (state_dict_keys m)).

(** After [n] windows every history holds [n + 1] snapshots. *)
Definition hist_ok (m : Model) (n : nat) (h : History) : Prop :=
  (∀ k, k ∈ tracked_names m ↔ is_Some (fit_param h !! k))
  ∧ (∀ k l, fit_param h !! k = Some l → length l = n + 1)
  ∧ (if use_fit_gains m then ∃ l, fit_sc h = Some l ∧ length l = n + 1
     else fit_sc h = None)
  ∧ (if use_fit_lfm m then ∃ l, fit_lm h = Some l ∧ length l = n + 1
     else fit_lm h = None)
  ∧ length (loss_his h) = n.

(** The histories of [h'] are those of [h] with one entry appended. *)
Definition hist_extends (h h' : History) : Prop :=
  (∀ k l, fit_param h !! k = Some l →
          ∃ v, fit_param h' !! k = Some (l ++ [v])%list)
  ∧ (∀ l, fit_sc h = Some l → ∃ v, fit_sc h' = Some (l ++ [v])%list)
  ∧ (∀ l, fit_lm h = Some l → ∃ v, fit_lm h' = Some (l ++ [v])%list)
  ∧ ∃ v, loss_his h' = (loss_his h ++ [v])%list.

(** The call that window [k] of [evaluate] makes from state [s]. *)
Definition eval_call (self : Model_fitting) (u_hat : Tens) (k : nat)
    (s : EvalState) : ForwardCall :=
  let m := model self in
  let ext := eval_external m u_hat k in
  let out := forward m (params self) ext (X (ev_sim s)) (hE (ev_sim s)) in
  {| call_external := ext; call_X := X (ev_sim s); call_hE := hE (ev_sim s);
     call_next_window := out.1; call_hE_new := out.2 |}.

(** The calls of the last [num_windows] windows of a log. *)
Definition last_windows self log : list ForwardCall :=
  drop (length (forward_calls log) - num_windows self) (forward_calls log).

(** [d] holds, under every name, the concatenation of what the last
    [num_windows] calls of the log returned under that name. *)
Definition recorded self log (d : gmap string WinVal) : Prop :=
  ∀ name, name ∈ names (model self) →
    ∃ ws arr,
      Forall2 (fun c w => call_next_window c !! name = Some w)
        (last_windows self log) ws
      ∧ concatenate_axis1 ws = Ok arr
      ∧ d !! name = Some (Array arr).

(** Once a recording was finished, [windListDict] is that of the last one
    finished. *)
Definition keeps_last self s log : Prop :=
  ∀ d, windListDict s = Some d →
       recorded self log d
       ∧ num_windows self ≤ length (forward_calls log)
       ∧ NoDup (names (model self))
       ∧ output_names (model self) ≠ [].


(** Of two recordings finished one after the other, the second is of the
    same or a later epoch, and of a later one if the early-stop test of the
    first succeeded. *)
Fixpoint stop_ends_epoch a (rf : list (nat * F)) : Prop :=
  match rf with
  | [] => True
  | p :: rest =>
      match rest with
      | [] => True
      | q :: _ => p.1 ≤ q.1 ∧ (early_stop a p.1 p.2 = true → p.1 < q.1)
      end
      ∧ stop_ends_epoch a rest
  end.

(** *** The claims under test, as the specification words them *)

(** "State is freshly created once per recording": as many calls of
    [createIC] and of [createDelayIC] as recordings were processed. *)
Definition state_created_per_recording (log : list Event) : Prop :=
  length (createIC_calls log) = length (recordings_finished log)
  ∧ length (createDelayIC_calls log) = length (recordings_finished log).

(** "Training stops after processing exactly one recording":
    [num_windows] windows of one recording. *)
Definition stops_after_one_recording (self : Model_fitting) (log : list Event)
  : Prop :=
  length (recordings_finished log) = 1
  ∧ windows_processed log = num_windows self.

(** "Each tracked parameter's history has length equal to the number of
    windows processed plus one", of the histories that [train] stores. *)
Definition history_length_claim (self' : Model_fitting) (log : list Event)
  : Prop :=
  ∀ k l, stats_attrs (trainingStats self') !! k = Some l →
         length l = windows_processed log + 1.

(** "The number of scheduler steps exceeds the configured total_steps and
    training terminates with an error." *)
Definition scheduler_overrun (self : Model_fitting) (r : M Model_fitting) : Prop :=
  num_windows self * num_epoches self < scheduler_steps hyperparameter r.1
  ∧ ∃ e, r.2 = Raise e.

End Fitting.

(** ** A small concrete instance

    Scalars are integers, the parameter set is the number of optimizer steps
    taken, a loss is its value. The model has one node; its state counts the
    windows it was stepped through, its delay history counts them in tens, and
    its output [bold] has two channels of [ncols] time steps per window. The
    stand-in for [np.corrcoef] of a matrix reports the number of columns it was
    given, so that the FC diagnostic shows how much was trimmed. *)

Module Toy.

Local Open Scope string_scope.

Definition row (start : Z) (ncols : nat) : list Z :=
  map (fun j => (start + Z.of_nat j)%Z) (seq 0 ncols).

Definition step (ncols : nat) (p : nat) (external : @Tensor3 Z)
    (X hE : @Matrix Z) : gmap string (@Matrix Z) * @Matrix Z :=
  (<["E" := X]>
     (<["bold" := [row (Z.of_nat p) ncols; row (Z.of_nat p) ncols]]>
        (<["current_state" := map (map (Z.add 1)) X]> ∅)),
   map (map (Z.add 10)) hE).

Definition mdl (track : list string) (ncols : nat) : @Model Z nat :=
  {| node_size := 1; output_size := 2; steps_per_TR := 1; TRs_per_window := 2;
     step_size := 1%Z;
     state_names := ["E"]; output_names := ["bold"];
     use_fit_gains := false; use_fit_lfm := false;
     track_params := track;
     createIC := fun ver => [[Z.of_nat ver]];
     createDelayIC := fun ver => [[Z.of_nat ver]];
     forward := step ncols;
     param_value := fun p _ => Some [Z.of_nat p];
     state_dict_keys := {["w"]};
     state_dict_value := fun p _ => [Z.of_nat p];
     sc := [[0%Z]]; sc_fitted := fun _ => [[0%Z]]; lm := fun _ => [] |}.

Definition ncols_of (m : @Matrix Z) : Z :=
  Z.of_nat (length (hd [] m)).

Definition toy_torch : @Torch Z nat Z unit :=
  {| loss_value := fun l => l;
     Adam := fun _ _ _ => tt;
     opt_step := fun o _ p => (o, S p);
     opt_lr := fun _ => 0%Z;
     opt_set_lr := fun _ o => o;
     one_cycle_lr := fun _ _ _ => 0%Z;
     corrcoef := fun m => [[ncols_of m; ncols_of m]; [ncols_of m; ncols_of m]];
     corrcoef01 := fun a b => (100 * hd 0 a + hd 0 b)%Z;
     cos_sim_mean := fun _ _ => 1%Z |}.

(** The loss of a window is the number of optimizer steps taken before it. *)
Definition toy_cost : @Cost Z nat Z := fun _ _ p _ => Z.of_nat p.

(** An empirical recording: [num_windows_] windows of two channels and two
    time steps. *)
Definition recording (num_windows_ : nat) : list (@Matrix Z) :=
  replicate num_windows_ [[5%Z; 6%Z]; [7%Z; 8%Z]].

Definition args (u_ : @Stimulus Z) (epoch_min_ : Z) (r_lb_ : Z)
    (lr_scheduler_ : bool) : @TrainArgs Z :=
  {| learningrate := 5%Z; arg_u := u_; epoch_min := epoch_min_; r_lb := r_lb_;
     lr_hyper := 1%Z; lr_scheduler := lr_scheduler_ |}.

(** The fitting object of [num_recordings] recordings. *)
Definition fitting (track : list string) (ncols num_recordings num_windows_
    num_epoches_ : nat) : @Model_fitting Z nat Z :=
  {| model := mdl track ncols; params := 0; u := None;
     trainData := replicate num_recordings (recording num_windows_);
     lastRec := None; num_epoches := num_epoches_; num_windows := num_windows_;
     trainingStats := OutputNM_init; cost := toy_cost |}.

Definition run_train (self : @Model_fitting Z nat Z) (a : @TrainArgs Z)
  : @M Z (@Model_fitting Z nat Z) :=
  train 0%Z Z.gtb toy_torch self a.

Definition run_evaluate (self : @Model_fitting Z nat Z) (base_window_num : nat)
    (u_ : @Stimulus Z) : @M Z (@Model_fitting Z nat Z) :=
  evaluate 0%Z (fun z => z) toy_torch self base_window_num u_.

(** The object a call returned, or [self] if it raised. *)
Definition outcome (self : @Model_fitting Z nat Z)
    (r : @M Z (@Model_fitting Z nat Z))
  : @Model_fitting Z nat Z :=
  match r.2 with
  | Ok self' => self'
  | Raise _ => self
  end.


End Toy.

Local Close Scope string_scope.

(** * Facts *)

(** ** Arrays *)

Section ArrayFacts.
Context {A : Type}.
Implicit Types (t : @Tensor3 A) (m : @Matrix A) (row : list A).

(** A 3-d array of shape [(n0, n1, n2)]. *)
Lemma mapR_ok_inv {B C} (f : B → result C) l l' :
  mapR f l = Ok l' → Forall2 (fun b c => f b = Ok c) l l'.
Proof.
  revert l'. induction l as [|b l IH]; intros l' H; simpl in H.
  - simplify_eq. constructor.
  - destruct (f b) as [c|] eqn:Hb; [|done]. simpl in H.
    destruct (mapR f l) as [cs|]; [|done]. simpl in H. simplify_eq.
    constructor; [done|]. by apply IH.
Qed.

Lemma broadcast_axis_length {B} n (l l' : list B) :
  broadcast_axis n l = Ok l' → length l' = n.
Proof.
  unfold broadcast_axis. case_bool_decide as Hn.
  - by intros [= <-].
  - destruct l as [|x [|? ?]]; [done| |done]. intros [= <-].
    apply length_replicate.
Qed.

Lemma broadcast_axis_Forall {B} (P : B → Prop) n (l l' : list B) :
  broadcast_axis n l = Ok l' → Forall P l → Forall P l'.
Proof.
  unfold broadcast_axis. case_bool_decide as Hn.
  - by intros [= <-].
  - destruct l as [|x [|? ?]]; [done| |done]. intros [= <-] Hl.
    apply Forall_replicate. by apply Forall_inv in Hl.
Qed.

Lemma broadcast3_shape n0 n1 n2 t t' :
  broadcast3 n0 n1 n2 t = Ok t' → shape3 n0 n1 n2 t'.
Proof.
  unfold broadcast3, shape3. intros H.
  destruct (mapR _ t) as [t1|] eqn:Ht; [|done]. simpl in H.
  split; [by eapply broadcast_axis_length|].
  eapply broadcast_axis_Forall; [exact H|].
  apply mapR_ok_inv in Ht. clear H.
  induction Ht as [|m m' ? ? Hm _ IH]; constructor; [|done].
  destruct (mapR (broadcast_axis n2) m) as [m1|] eqn:Hm1; [|done]. simpl in Hm.
  split; [by eapply broadcast_axis_length|].
  eapply broadcast_axis_Forall; [exact Hm|].
  apply mapR_ok_inv in Hm1. clear Hm.
  induction Hm1 as [|r r' ? ? Hr _ IH']; constructor; [|done].
  by eapply broadcast_axis_length.
Qed.

Lemma full3_shape n0 n1 n2 (x : A) : shape3 n0 n1 n2 (full3 n0 n1 n2 x).
Proof.
  unfold shape3, full3. split; [apply length_replicate|].
  apply Forall_replicate. split; [apply length_replicate|].
  apply Forall_replicate. apply length_replicate.
Qed.

(** Writing [src] behind the first [burn] steps of a zero array. *)
Lemma assign_last_from_full n0 n1 n2 burn total (x : A) src :
  burn ≤ total → shape3 n0 n1 n2 src →
  assign_last_from burn (full3 n0 n1 total x) src
  = map (map (fun s => (replicate burn x ++ s)%list)) src.
Proof.
  unfold assign_last_from, full3, shape3. intros Hb [Hn0 Hsrc].
  revert n0 Hn0. induction Hsrc as [|m src [Hn1 Hm] _ IH]; intros n0 Hn0.
  - destruct n0; done.
  - destruct n0 as [|n0]; [done|]. simpl. f_equal; [|apply IH; simpl in Hn0; lia].
    clear IH Hn0. revert n1 Hn1. induction Hm as [|s m Hs _ IH]; intros n1 Hn1.
    + destruct n1; done.
    + destruct n1 as [|n1]; [done|]. simpl. f_equal; [|apply IH; simpl in Hn1; lia].
      by rewrite take_replicate, Nat.min_l.
Qed.


Lemma slice_after_burn_in N T j (x : A) row :
  slice ((N + j) * T) ((N + j + 1) * T) (replicate (N * T) x ++ row)
  = slice (j * T) ((j + 1) * T) row.
Proof.
  unfold slice.
  rewrite drop_app_ge by (rewrite length_replicate; lia).
  rewrite length_replicate. f_equal; [lia|]. f_equal. lia.
Qed.



Lemma slice_last_after_burn_in n0 n1 n2 N T j total (x : A) src :
  N * T ≤ total → shape3 n0 n1 n2 src →
  slice_last ((N + j) * T) ((N + j + 1) * T)
    (assign_last_from (N * T) (full3 n0 n1 total x) src)
  = slice_last (j * T) ((j + 1) * T) src.
Proof.
  intros Ht Hs. rewrite (assign_last_from_full n0 n1 n2) by done.
  unfold slice_last. rewrite map_map. apply map_ext. intros m. simpl.
  rewrite map_map. apply map_ext. intros row. simpl.
  apply slice_after_burn_in.
Qed.

End ArrayFacts.


(** ** The monad and its loops *)

Section MonadFacts.
Context {F : Type}.

Lemma bind_inv {A B} (m : @M F A) (f : A → @M F B) log r :
  bind m f = (log, r) →
  (∃ e, m = (log, Raise e) ∧ r = Raise e)
  ∨ (∃ a l1 l2, m = (l1, Ok a) ∧ f a = (l2, r) ∧ log = (l1 ++ l2)%list).
Proof.
  unfold bind. destruct m as [l1 [a|e]].
  - destruct (f a) as [l2 r2] eqn:Hf. intros [= <- <-]. right. eauto 10.
  - intros [= <- <-]. left. eauto.
Qed.

Lemma lift_inv {A} (x : result A) log (r : result A) :
  @lift F A x = (log, r) → log = [] ∧ r = x.
Proof. by intros [= <- <-]. Qed.

Lemma emit_inv (ev : @Event F) log r :
  emit ev = (log, r) → log = [ev] ∧ r = Ok tt.
Proof. by intros [= <- <-]. Qed.

Lemma ret_inv {A} (a : A) log (r : result A) :
  @ret F A a = (log, r) → log = [] ∧ r = Ok a.
Proof. by intros [= <- <-]. Qed.

Lemma raise_inv {A} e log (r : result A) :
  @raise F A e = (log, r) → log = [] ∧ r = Raise e.
Proof. by intros [= <- <-]. Qed.

(** The invariant rule of [for_each]: [I] relates the items done, the events
    so far and the loop state; [E] is what holds when the loop raises. *)
Lemma for_each_inv {A S} (body : A → S → @M F S)
    (I : list A → list Event → S → Prop) (E : list Event → Exn → Prop) :
  (∀ done a s log log' r,
      I done log s → body a s = (log', r) →
      match r with
      | Ok s' => I (done ++ [a])%list (log ++ log')%list s'
      | Raise e => E (log ++ log')%list e
      end) →
  ∀ l done s log log' r,
    I done log s → for_each body l s = (log', r) →
    match r with
    | Ok s' => I (done ++ l)%list (log ++ log')%list s'
    | Raise e => E (log ++ log')%list e
    end.
Proof.
  intros Hbody l. induction l as [|a l IH]; intros done s log log' r HI Hrun.
  - apply ret_inv in Hrun as [-> ->]. by rewrite !app_nil_r.
  - simpl in Hrun. apply bind_inv in Hrun
      as [(e & Hb & ->) | (s1 & l1 & l2 & Hb & Hrest & ->)].
    + exact (Hbody _ _ _ _ _ _ HI Hb).
    + pose proof (Hbody _ _ _ _ _ _ HI Hb) as HI1. simpl in HI1.
      pose proof (IH _ _ _ _ _ HI1 Hrest) as Hfin.
      by rewrite <- !(assoc_L (++)) in Hfin.
Qed.

(** The same for a loop with [break]: [B] holds of the state the loop was
    left with. *)
Lemma for_each_break_inv {A S} (body : A → S → @M F (bool * S))
    (I : list A → list Event → S → Prop) (B : list Event → S → Prop)
    (E : list Event → Exn → Prop) :
  (∀ done a s log log' r,
      I done log s → body a s = (log', r) →
      match r with
      | Ok bs => if bs.1 then B (log ++ log')%list bs.2
                 else I (done ++ [a])%list (log ++ log')%list bs.2
      | Raise e => E (log ++ log')%list e
      end) →
  ∀ l done s log log' r,
    I done log s → for_each_break body l s = (log', r) →
    match r with
    | Ok s' => I (done ++ l)%list (log ++ log')%list s' ∨ B (log ++ log')%list s'
    | Raise e => E (log ++ log')%list e
    end.
Proof.
  intros Hbody l. induction l as [|a l IH]; intros done s log log' r HI Hrun.
  - apply ret_inv in Hrun as [-> ->]. left. by rewrite !app_nil_r.
  - simpl in Hrun. apply bind_inv in Hrun
      as [(e & Hb & ->) | ([b s1] & l1 & l2 & Hb & Hrest & ->)].
    + exact (Hbody _ _ _ _ _ _ HI Hb).
    + pose proof (Hbody _ _ _ _ _ _ HI Hb) as HI1. simpl in *.
      destruct b.
      * apply ret_inv in Hrest as [-> ->]. right. by rewrite app_nil_r.
      * pose proof (IH _ _ _ _ _ HI1 Hrest) as Hfin.
        by rewrite <- !(assoc_L (++)) in Hfin.
Qed.

End MonadFacts.

(** Decompose a run of monadic code into the runs of its parts. *)
Ltac inv_M :=
  repeat match goal with
    | H : bind _ _ = (_, _) |- _ =>
        apply bind_inv in H as [(? & ? & ?) | (? & ? & ? & ? & ? & ?)]
    | H : lift _ = (_, _) |- _ => apply lift_inv in H as [? ?]
    | H : emit _ = (_, _) |- _ => apply emit_inv in H as [? ?]
    | H : ret _ = (_, _) |- _ => apply ret_inv in H as [? ?]
    | H : raise _ = (_, _) |- _ => apply raise_inv in H as [? ?]
    end.

(** ** Reading a log piece by piece *)

Section LogFacts.
Context {F : Type}.
Implicit Types (log : list (@Event F)).

(** What a log tells, piecewise. *)
Lemma forward_calls_app log1 log2 :
  forward_calls (log1 ++ log2) = (forward_calls log1 ++ forward_calls log2)%list.
Proof. apply omap_app. Qed.

Lemma losses_app log1 log2 :
  losses (log1 ++ log2) = (losses log1 ++ losses log2)%list.
Proof. apply omap_app. Qed.

Lemma createIC_calls_app log1 log2 :
  createIC_calls (log1 ++ log2) = (createIC_calls log1 ++ createIC_calls log2)%list.
Proof. apply omap_app. Qed.

Lemma createDelayIC_calls_app log1 log2 :
  createDelayIC_calls (log1 ++ log2)
  = (createDelayIC_calls log1 ++ createDelayIC_calls log2)%list.
Proof. apply omap_app. Qed.

Lemma recordings_finished_app log1 log2 :
  recordings_finished (log1 ++ log2)
  = (recordings_finished log1 ++ recordings_finished log2)%list.
Proof. apply omap_app. Qed.

Lemma epochs_started_app log1 log2 :
  epochs_started (log1 ++ log2) = (epochs_started log1 ++ epochs_started log2)%list.
Proof. apply omap_app. Qed.

Lemma scheduler_steps_app g log1 log2 :
  scheduler_steps g (log1 ++ log2) = scheduler_steps g log1 + scheduler_steps g log2.
Proof. unfold scheduler_steps. by rewrite omap_app, length_app. Qed.

Lemma windows_processed_app log1 log2 :
  windows_processed (log1 ++ log2) = windows_processed log1 + windows_processed log2.
Proof. unfold windows_processed. by rewrite forward_calls_app, length_app. Qed.

Lemma early_stop_fired_app (Fgtb : F → F → bool) (a : @TrainArgs F) log1 log2 :
  early_stop_fired Fgtb a (log1 ++ log2)
  = early_stop_fired Fgtb a log1 || early_stop_fired Fgtb a log2.
Proof.
  unfold early_stop_fired. by rewrite recordings_finished_app, existsb_app.
Qed.

End LogFacts.

#[local] Arguments bind : simpl never.
#[local] Arguments lift : simpl never.
#[local] Arguments emit : simpl never.
#[local] Arguments ret : simpl never.
#[local] Arguments raise : simpl never.

#[local] Arguments forward_calls {F} !log /.
#[local] Arguments losses {F} !log /.
#[local] Arguments createIC_calls {F} !log /.
#[local] Arguments createDelayIC_calls {F} !log /.
#[local] Arguments recordings_finished {F} !log /.
#[local] Arguments epochs_started {F} !log /.
#[local] Arguments scheduler_steps {F} g !log /.
#[local] Arguments windows_processed {F} !log /.

(** Evaluate the readings of a log that is given piece by piece, using
    what is known of the pieces. *)
Ltac log_simpl :=
  rewrite ?forward_calls_app, ?createIC_calls_app, ?createDelayIC_calls_app,
    ?recordings_finished_app, ?epochs_started_app, ?losses_app,
    ?scheduler_steps_app, ?windows_processed_app;
  repeat match goal with
    | H : ?f ?x = [] |- context [?f ?x] => rewrite H
    | H : ?f ?x = [?y] |- context [?f ?x] => rewrite H
    | H : ?f ?g ?x = 0 |- context [?f ?g ?x] => rewrite H
    end;
  unfold quiet; simpl.

Ltac log_done := log_simpl; repeat split; try done; try lia.

(** ** The training loop *)

Section FittingFacts.
Context {F : Type} (F0 : F) (F_of_Z : Z → F) (Fgtb : F → F → bool).
Context {Params Loss Opt : Type} (torch : @Torch F Params Loss Opt).

Implicit Types (self : @Model_fitting F Params Loss) (a : @TrainArgs F).
Implicit Types (s : @LoopState F Params Loss Opt) (log : list (@Event F)).

Lemma schedulers_step_run a o log r :
  schedulers_step torch a o = (log, r) →
  quiet log
  ∧ scheduler_steps hyperparameter log ≤ 1
  ∧ (lr_scheduler a = false → log = [] ∧ r = Ok o).
Proof.
  unfold schedulers_step. intros H.
  destruct (lr_scheduler a).
  - destruct (schedulers o) as [hm|].
    + inv_M; simplify_eq; log_done.
    + inv_M; simplify_eq; log_done.
  - inv_M; simplify_eq; log_done.
Qed.


(** One window: the log starts with the call of the model, made on the
    current state; what follows holds no further call. *)
Lemma train_window_run self a mask wTS k ext s log r :
  train_window torch self a mask wTS k (ext, s) = (log, r) →
  let m := model self in
  let ext' := train_external m (arg_u a) k ext in
  let out := forward m (cur_params s) ext' (X (sim s)) (hE (sim s)) in
  ∃ tail,
    log = EvForward ext' (X (sim s)) (hE (sim s)) out.1 out.2 :: tail
    ∧ forward_calls tail = [] ∧ createIC_calls tail = []
    ∧ createDelayIC_calls tail = [] ∧ recordings_finished tail = []
    ∧ epochs_started tail = []
    ∧ length (losses tail) ≤ 1
    ∧ scheduler_steps hyperparameter tail ≤ 1
    ∧ (lr_scheduler a = false → scheduler_steps hyperparameter tail = 0).
Proof.
  unfold train_window. intros H. cbv zeta in H. inv_M; simplify_eq;
    try (eexists; split; [reflexivity|]; log_done; fail).
  all: match goal with
       | H : schedulers_step _ _ _ = _ |- _ =>
           apply schedulers_step_run in H as ((?&?&?&?&?&?) & ? & Hoff)
       end.
  all: eexists; split; [reflexivity|].
  all: repeat split; log_simpl; try done; try lia.
  all: try (intros Hs; destruct (Hoff Hs) as [-> _]; done).
Qed.

Lemma hist_append_loss_his (m : @Model F Params) p mask h h' :
  hist_append m p mask h = Ok h' →
  loss_his h' = loss_his h
  ∧ fit_param_append m p (fit_param h) = Ok (fit_param h').
Proof.
  unfold hist_append. intros H.
  destruct (fit_param_append m p (fit_param h)) as [fp|]; [|done]. simpl in H.
  destruct (use_fit_gains m); simpl in H.
  - destruct (index_pairs _ _); [|done]. simpl in H.
    destruct (fit_sc h); [|done]. simpl in H.
    destruct (use_fit_lfm m); simpl in H.
    + destruct (fit_lm h); [|done]. simpl in H. by simplify_eq.
    + by simplify_eq.
  - destruct (use_fit_lfm m); simpl in H.
    + destruct (fit_lm h); [|done]. simpl in H. by simplify_eq.
    + by simplify_eq.
Qed.

Lemma train_window_calls self a mask wTS k ext s log r :
  train_window torch self a mask wTS k (ext, s) = (log, r) →
  forward_calls log = [window_call self a k ext s].
Proof.
  intros H. apply train_window_run in H as (tail & -> & Hf & _).
  simpl. by rewrite Hf.
Qed.

(** A window that succeeds: the state it leaves, the loss it appends. *)
Lemma train_window_ok self a mask wTS k ext s log ext1 s1 :
  train_window torch self a mask wTS k (ext, s) = (log, Ok (ext1, s1)) →
  ext1 = train_external (model self) (arg_u a) k ext
  ∧ next_state (window_call self a k ext s) = Some (sim s1)
  ∧ (∃ loss, losses log = [loss_value torch loss]
       ∧ last_loss s1 = Some loss
       ∧ hist_append (model self) (cur_params s1) mask
           (loss_his_append (loss_value torch loss) (hist s)) = Ok (hist s1))
  ∧ out_loss s1 = out_loss s
  ∧ (∃ d d', windListDict s = Some d
       ∧ windListDict_append (model self) (call_next_window (window_call self a k ext s)) d
         = Ok d'
       ∧ windListDict s1 = Some d').
Proof.
  unfold train_window. intros H. cbv zeta in H. inv_M; simplify_eq.
  match goal with
  | H : schedulers_step _ _ _ = _ |- _ =>
      apply schedulers_step_run in H as ((?&?&?&?&?&?) & ? & Hoff)
  end.
  repeat match goal with
    | H : Ok _ = from_option _ ?o |- _ => destruct o eqn:?; simplify_eq/=
    end.
  split; [done|]. split.
  { unfold next_state, window_call. simpl.
    match goal with H : _ !! "current_state"%string = Some _ |- _ => by rewrite H end. }
  split.
  { eexists. split; [by log_simpl|]. split; [done|]. by symmetry. }
  split; [done|]. eauto.
Qed.

(** One recording: the log of its window loop, then the line printed; the
    state after it, and the FC correlation that decides on the [break]. *)
Lemma train_recording_run self a mask mask_e i wTS s log r :
  train_recording F0 Fgtb torch self a mask mask_e i wTS s = (log, r) →
  ∃ wlog wr tail,
    for_each (train_window torch self a mask wTS) (seq 0 (num_windows self))
      (zeros_external F0 self, recording_start self s) = (wlog, wr)
    ∧ log = (wlog ++ tail)%list
    ∧ forward_calls tail = [] ∧ losses tail = [] ∧ createIC_calls tail = []
    ∧ createDelayIC_calls tail = [] ∧ epochs_started tail = []
    ∧ scheduler_steps hyperparameter tail = 0
    ∧ match r with
      | Ok bs =>
          ∃ es1 loss fc ts_emp ts_sim d d' name0,
            wr = Ok es1
            ∧ sim bs.2 = sim es1.2 ∧ hist bs.2 = hist es1.2
            ∧ optim bs.2 = optim es1.2 ∧ cur_params bs.2 = cur_params es1.2
            ∧ last_loss bs.2 = last_loss es1.2
            ∧ out_loss bs.2 = loss_his (hist es1.2)
            ∧ last_loss es1.2 = Some loss
            ∧ concatenate_axis1 wTS = Ok ts_emp
            ∧ windListDict es1.2 = Some d
            ∧ windListDict_concatenate (model self) d = Ok d'
            ∧ windListDict bs.2 = Some d'
            ∧ output_names (model self) !! 0 = Some name0
            ∧ windListDict_array d' name0 = Ok ts_sim
            ∧ FC_cor torch 10 mask_e ts_sim ts_emp = Ok fc
            ∧ tail = [EvPrintRecording i (loss_value torch loss) fc
                        (cos_sim_mean torch ts_sim ts_emp)]
            ∧ bs.1 = early_stop Fgtb a i fc
      | Raise e =>
          recordings_finished tail = []
          ∧ tail = [] ∧ (wr = Raise e ∨ ∃ es1, wr = Ok es1)
      end.
Proof.
  unfold train_recording. intros H. cbv zeta in H.
  apply bind_inv in H as [(e & Hw & ->) | (es1 & wlog & l2 & Hw & H & ->)].
  { exists log, (Raise e), []. rewrite app_nil_r. repeat split; eauto. }
  exists wlog. eexists. exists l2. split; [exact Hw|]. split; [done|].
  inv_M; simplify_eq; simpl.
  all: repeat match goal with
         | H : Ok _ = from_option _ ?o |- _ => destruct o eqn:?; simplify_eq/=
         end.
  all: repeat split; eauto 20.
  eexists _, _, _, _, _, _, _, _. repeat split; eauto.
Qed.

(** *** The state is handed from window to window *)

Lemma chained_app (cur : option (@SimState F)) calls1 calls2 :
  chained cur (calls1 ++ calls2)
  ↔ chained cur calls1 ∧ chained (end_state cur calls1) calls2.
Proof.
  revert cur. induction calls1 as [|c calls1 IH]; intros cur; simpl.
  - unfold end_state. simpl. tauto.
  - rewrite IH. unfold end_state. rewrite !last_cons.
    destruct (last calls1); tauto.
Qed.

Lemma end_state_app (cur : option (@SimState F)) calls1 calls2 :
  end_state cur (calls1 ++ calls2) = end_state (end_state cur calls1) calls2.
Proof.
  unfold end_state. rewrite last_app. by destruct (last calls2).
Qed.

Lemma calls_ok_app self a cur log1 log2 cur' :
  calls_ok F0 self a cur log1 →
  end_state (Some cur) (forward_calls log1) = Some cur' →
  calls_ok F0 self a cur' log2 →
  calls_ok F0 self a cur (log1 ++ log2)
  ∧ end_state (Some cur) (forward_calls (log1 ++ log2))
    = end_state (Some cur') (forward_calls log2).
Proof.
  intros (H1 & H2 & H3 & H4) Hend (K1 & K2 & K3 & K4). split.
  - unfold calls_ok.
    rewrite createIC_calls_app, createDelayIC_calls_app, forward_calls_app,
      H1, H2, K1, K2, chained_app, Hend, Forall_app. done.
  - by rewrite forward_calls_app, end_state_app, Hend.
Qed.

Lemma calls_ok_nil self a cur : calls_ok F0 self a cur [].
Proof. repeat split; constructor. Qed.

Lemma sim_eta (x : @SimState F) : {| X := X x; hE := hE x |} = x.
Proof. by destruct x. Qed.

Lemma train_window_calls_ok self a mask wTS k ext s log r :
  (isinstance_int (arg_u a) = true → ext = zeros_external F0 self) →
  train_window torch self a mask wTS k (ext, s) = (log, r) →
  calls_ok F0 self a (sim s) log
  ∧ ∀ es1, r = Ok es1 →
      end_state (Some (sim s)) (forward_calls log) = Some (sim es1.2)
      ∧ (isinstance_int (arg_u a) = true → es1.1 = zeros_external F0 self).
Proof.
  intros Hext H.
  pose proof H as Hx101; apply train_window_calls in Hx101 as Hcalls.
  pose proof H as Hx102; apply train_window_run in Hx102 as (tail & -> & _ & Hc & Hd & _).
  split.
  - unfold calls_ok. rewrite Hcalls. simpl. rewrite Hc, Hd.
    repeat split.
    + by rewrite sim_eta.
    + constructor; [|constructor]. unfold external_ok, window_call. simpl.
      unfold train_external. destruct (arg_u a) as [z|t]; simpl; eauto.
  - intros [ext1 s1] ->. apply train_window_ok in H as (-> & Hn & _).
    rewrite Hcalls. unfold end_state. simpl. split; [done|].
    intros Hi. unfold train_external. rewrite Hi. simpl. auto.
Qed.

Lemma train_windows_calls_ok self a mask wTS l ext s log r :
  (isinstance_int (arg_u a) = true → ext = zeros_external F0 self) →
  for_each (train_window torch self a mask wTS) l (ext, s) = (log, r) →
  calls_ok F0 self a (sim s) log
  ∧ ∀ es1, r = Ok es1 →
      end_state (Some (sim s)) (forward_calls log) = Some (sim es1.2).
Proof.
  intros Hext H.
  set (I := fun (_ : list nat) log (es : @Tensor3 F * @LoopState F Params Loss Opt) =>
       calls_ok F0 self a (sim s) log
       ∧ end_state (Some (sim s)) (forward_calls log) = Some (sim es.2)
       ∧ (isinstance_int (arg_u a) = true → es.1 = zeros_external F0 self)).
  set (E := fun log (_ : Exn) => calls_ok F0 self a (sim s) log).
  assert (Hbody : ∀ done k es log0 log' r0,
             I done log0 es →
             train_window torch self a mask wTS k es = (log', r0) →
             match r0 with
             | Ok s' => I (done ++ [k])%list (log0 ++ log')%list s'
             | Raise e => E (log0 ++ log')%list e
             end).
  { intros done k [ext0 s0] log0 log' r0 (Hok & Hend & Hz) Hb. simpl in *.
    apply train_window_calls_ok in Hb as [Hb1 Hb2]; [|done].
    pose proof (calls_ok_app _ _ _ _ _ _ Hok Hend Hb1) as [Happ Hend'].
    destruct r0 as [es1|e]; [|done].
    destruct (Hb2 _ eq_refl) as [He Hz'].
    split; [done|]. split; [|done]. by rewrite Hend'. }
  assert (HI0 : I [] [] (ext, s)).
  { split; [apply calls_ok_nil|]. done. }
  pose proof (for_each_inv _ I E Hbody l [] (ext, s) [] log r HI0 H) as Hfin.
  simpl in Hfin. destruct r as [es1|e].
  - destruct Hfin as (? & ? & ?). split; [done|]. by intros ? [= <-].
  - done.
Qed.

Lemma calls_ok_quiet_tail self a cur log tail :
  calls_ok F0 self a cur log →
  forward_calls tail = [] → createIC_calls tail = [] →
  createDelayIC_calls tail = [] →
  calls_ok F0 self a cur (log ++ tail)
  ∧ forward_calls (log ++ tail) = forward_calls log.
Proof.
  intros (H1 & H2 & H3 & H4) Hf Hc Hd. unfold calls_ok.
  rewrite createIC_calls_app, createDelayIC_calls_app, forward_calls_app,
    H1, H2, Hf, Hc, Hd. simpl. by rewrite !app_nil_r.
Qed.

Lemma train_recording_carries self a mask mask_e i wTS s log r :
  train_recording F0 Fgtb torch self a mask mask_e i wTS s = (log, r) →
  carries F0 self a s log (match r with Ok bs => Ok bs.2 | Raise e => Raise e end).
Proof.
  intros H.
  apply train_recording_run in H
    as (wlog & wr & tail & Hw & -> & Hf & _ & Hc & Hd & _ & _ & Hr).
  apply train_windows_calls_ok in Hw as [Hok Hend]; [|done].
  destruct (calls_ok_quiet_tail _ _ _ _ _ Hok Hf Hc Hd) as [Hok' Hcalls].
  split; [done|]. rewrite Hcalls. intros s' Hs'.
  destruct r as [bs|e]; [|done]. simplify_eq.
  destruct Hr as (es1 & ? & ? & ? & ? & ? & ? & ? & -> & Hsim & _).
  rewrite Hsim. by apply Hend.
Qed.

Lemma carries_step self a s log1 s1 log2 r :
  carries F0 self a s log1 (Ok s1) → carries F0 self a s1 log2 r →
  carries F0 self a s (log1 ++ log2) r.
Proof.
  intros [Hok Hend] [Hok2 Hend2].
  destruct (calls_ok_app _ _ _ _ _ _ Hok (Hend _ eq_refl) Hok2) as [H1 H2].
  split; [done|]. intros s' ->. rewrite H2. by apply Hend2.
Qed.

Lemma carries_raise self a s log e1 e2 :
  carries F0 self a s log (Raise e1) → carries F0 self a s log (Raise e2).
Proof. intros [H _]. by split. Qed.

Lemma train_recordings_carries self a mask mask_e i recs s log r :
  for_each_break (train_recording F0 Fgtb torch self a mask mask_e i) recs s
  = (log, r) →
  carries F0 self a s log r.
Proof.
  revert s log r. induction recs as [|wTS recs IH]; intros s log r H; simpl in H.
  - apply ret_inv in H as [-> ->]. split; [apply calls_ok_nil|].
    by intros ? [= <-].
  - apply bind_inv in H as [(e & Hb & ->) | ([b s1] & l1 & l2 & Hb & H & ->)].
    + by apply train_recording_carries in Hb.
    + apply train_recording_carries in Hb. simpl in *.
      eapply carries_step; [exact Hb|]. destruct b.
      * apply ret_inv in H as [-> ->]. split; [apply calls_ok_nil|].
        by intros ? [= <-].
      * by apply IH.
Qed.

Lemma train_epoch_carries self a mask mask_e i s log r :
  train_epoch F0 Fgtb torch self a mask mask_e i s = (log, r) →
  carries F0 self a s log r.
Proof.
  unfold train_epoch. intros H.
  apply bind_inv in H as [(e & Hb & ->) | ([] & l1 & l2 & Hb & H & ->)].
  - by apply emit_inv in Hb as [_ ?].
  - apply emit_inv in Hb as [-> _]. apply train_recordings_carries in H.
    destruct H as [(H1 & H2 & H3 & H4) Hend]. by repeat split.
Qed.

Lemma train_loops_carries self a s log r :
  train_loops F0 Fgtb torch self a s = (log, r) → carries F0 self a s log r.
Proof.
  unfold train_loops. generalize (seq 0 (num_epoches self)). intros l.
  revert s log r. induction l as [|i l IH]; intros s log r H; simpl in H.
  - apply ret_inv in H as [-> ->]. split; [apply calls_ok_nil|].
    by intros ? [= <-].
  - apply bind_inv in H as [(e & Hb & ->) | (s1 & l1 & l2 & Hb & H & ->)].
    + by apply train_epoch_carries in Hb.
    + apply train_epoch_carries in Hb. eapply carries_step; [exact Hb|].
      by apply IH.
Qed.

Lemma train_init_run self a log r :
  train_init torch self a = (log, r) →
  match r with
  | Ok s0 =>
      log = [EvCreateIC 0; EvCreateDelayIC 0]
      ∧ sim s0 = {| X := createIC (model self) 0;
                    hE := createDelayIC (model self) 0 |}
      ∧ cur_params s0 = params self
      ∧ optim_init torch self a = Ok (optim s0)
      ∧ hist_init (model self) (params self)
          (tril_indices (node_size (model self))) = Ok (hist s0)
      ∧ last_loss s0 = None ∧ windListDict s0 = None
      ∧ out_loss s0 = stats_loss (trainingStats self)
  | Raise e =>
      (log = [] ∧ optim_init torch self a = Raise e)
      ∨ (log = [EvCreateIC 0; EvCreateDelayIC 0] ∧ ∃ o, optim_init torch self a = Ok o)
  end.
Proof.
  unfold train_init. cbv zeta. intros H. inv_M; simplify_eq; simpl; eauto 10.
Qed.

(** The run of [train]: the initial state, the loops, the results. *)
Lemma train_run self a log r :
  train F0 Fgtb torch self a = (log, r) →
  ∃ l0 r0,
    train_init torch self a = (l0, r0)
    ∧ match r0 with
      | Raise e => log = l0 ∧ r = Raise e
      | Ok s0 =>
          ∃ body r1,
            train_loops F0 Fgtb torch self a s0 = (body, r1)
            ∧ log = (l0 ++ body)%list
            ∧ match r with
              | Ok self' =>
                  ∃ s1 lastRec_,
                    r1 = Ok s1
                    ∧ make_lastRec (model self) (windListDict s1) = Ok lastRec_
                    ∧ self' = {| model := model self; params := cur_params s1;
                                 u := Some (arg_u a);
                                 trainData := trainData self;
                                 lastRec := Some lastRec_;
                                 num_epoches := num_epoches self;
                                 num_windows := num_windows self;
                                 trainingStats :=
                                   write_trainingStats (model self) s1
                                     (trainingStats self);
                                 cost := cost self |}
              | Raise e => r1 = Raise e ∨ ∃ s1, r1 = Ok s1
              end
      end.
Proof.
  unfold train. cbv zeta. intros H.
  apply bind_inv in H as [(e & Hi & ->) | (s0 & l1 & l2 & Hi & H & ->)].
  { exists log, (Raise e). done. }
  exists l1, (Ok s0). split; [done|].
  apply bind_inv in H as [(e & Hl & ->) | (s1 & l3 & l4 & Hl & H & ->)].
  { exists l2, (Raise e). eauto. }
  exists l3, (Ok s1). split; [done|].
  inv_M; simplify_eq; rewrite ?app_nil_r; split; eauto 10.
Qed.

(** *** Counting windows, losses and scheduler steps *)

Lemma sched_ok_ext a T n (o o' : @OptimState F Opt) :
  schedulers o' = schedulers o → sched_ok a T n o → sched_ok a T n o'.
Proof. unfold sched_ok. intros ->. done. Qed.

Lemma schedulers_step_steps a o log o' :
  schedulers_step torch a o = (log, Ok o') →
  scheduler_steps hyperparameter log = if lr_scheduler a then 1 else 0.
Proof.
  unfold schedulers_step. intros H. destruct (lr_scheduler a).
  - destruct (schedulers o); inv_M; simplify_eq. by log_simpl.
  - by apply ret_inv in H as [-> _].
Qed.

Lemma schedulers_step_sched a T n o log r :
  sched_ok a T n o →
  schedulers_step torch a o = (log, r) →
  match r with
  | Ok o' => sched_ok a T (n + 1) o'
  | Raise e => lr_scheduler a = true → sched_raise T n log e
  end.
Proof.
  unfold schedulers_step, sched_ok. intros Hs H.
  destruct (lr_scheduler a) eqn:Hlr.
  - destruct (Hs eq_refl) as (hs & ms & Ho & Hth & Htm & Hlh & Hlm & Hle).
    rewrite Ho in H. simpl in H. unfold scheduler_step in H.
    rewrite Hth, Htm, Hlh, Hlm in H.
    destruct (bool_decide (T < S n)) eqn:Hb.
    + apply bool_decide_eq_true in Hb.
      inv_M; simplify_eq. intros _. right. log_simpl.
      split; [lia|]. f_equal; lia.
    + apply bool_decide_eq_false in Hb.
      inv_M; simplify_eq.
      intros _. eexists _, _. split; [done|]. simpl. repeat split; lia.
  - apply ret_inv in H as [-> ->]. done.
Qed.

Lemma train_window_sched self a mask wTS k ext s log r :
  train_window torch self a mask wTS k (ext, s) = (log, r) →
  (scheduler_steps hyperparameter log = 0 ∧ ∃ e, r = Raise e)
  ∨ ∃ o_in slog sr,
      schedulers o_in = schedulers (optim s)
      ∧ schedulers_step torch a o_in = (slog, sr)
      ∧ scheduler_steps hyperparameter log = scheduler_steps hyperparameter slog
      ∧ match sr with
        | Raise e => r = Raise e
        | Ok o' => (∃ e, r = Raise e) ∨ (∃ es, r = Ok es ∧ optim es.2 = o')
        end.
Proof.
  unfold train_window. intros H. cbv zeta in H. inv_M; simplify_eq;
    try (left; split; [by log_simpl|eauto]; fail).
  all: right; eexists _, _, _; (split; [|split; [eassumption|]]);
    [reflexivity|]; split; [by log_simpl|]; eauto.
Qed.

Lemma counts_nil a T s : counts a T s [] (Ok s).
Proof.
  repeat split; simpl; try done.
  - by rewrite app_nil_r.
  - intros n. by rewrite Nat.add_0_r.
Qed.

Lemma counts_step a T s log1 s1 log2 r :
  counts a T s log1 (Ok s1) → counts a T s1 log2 r →
  counts a T s (log1 ++ log2) r.
Proof.
  intros (H1 & H2 & H3 & H4) Hr. destruct r as [s2|e]; simpl in *.
  - destruct Hr as (K1 & K2 & K3 & K4). unfold counted.
    rewrite losses_app, windows_processed_app, scheduler_steps_app, length_app.
    repeat split.
    + by rewrite K1, H1, (assoc_L (++)).
    + lia.
    + intros Hlr. rewrite H3, K3; done.
    + intros n Hn. rewrite Nat.add_assoc. by apply K4, H4.
  - intros n Hn Hlr. specialize (Hr _ (H4 _ Hn) Hlr). unfold sched_raise in *.
    rewrite scheduler_steps_app, H3 by done.
    destruct Hr as [?|[? ?]]; [left|right]; [lia|]. split; [lia|done].
Qed.

Lemma train_window_counts self a T mask wTS k ext s log r :
  train_window torch self a mask wTS k (ext, s) = (log, r) →
  counts a T s log (match r with Ok es => Ok es.2 | Raise e => Raise e end).
Proof.
  intros H.
  pose proof H as Hx1; apply train_window_run in Hx1 as (tail & Hlog & Hf & _ & _ & _ & _ & _ & Hs1 & Hs0).
  assert (Hwp : windows_processed log = 1).
  { rewrite Hlog. unfold windows_processed. simpl. by rewrite Hf. }
  assert (Hst : scheduler_steps hyperparameter log
                = scheduler_steps hyperparameter tail) by (by rewrite Hlog).
  pose proof H as Hx2; apply train_window_sched in Hx2 as Hsch.
  destruct r as [[ext1 s1]|e]; simpl.
  - pose proof H as Hx3; apply train_window_ok in Hx3 as (_ & _ & (loss & Hl & _ & Hh) & _ & _).
    apply hist_append_loss_his in Hh as [Hh _]. simpl in Hh.
    destruct Hsch as [[_ [? ?]]|(o_in & slog & sr & Ho & Hss & Hcount & Hsr)];
      [done|].
    destruct sr as [o'|e]; [|done].
    destruct Hsr as [[? ?]|(es & [= <-] & Hopt)]; [done|]. simpl in Hopt.
    unfold counted. rewrite Hwp, Hl, Hh. repeat split.
    + intros Hlr. rewrite Hcount, (schedulers_step_steps _ _ _ _ Hss), Hlr. done.
    + intros n Hn. rewrite Hopt.
      eapply (schedulers_step_sched a T n o_in slog (Ok o')); [|done].
      by eapply sched_ok_ext.
  - intros n Hn Hlr.
    destruct Hsch as [[H0 _]|(o_in & slog & sr & Ho & Hss & Hcount & Hsr)].
    + left. rewrite H0. destruct (Hn Hlr) as (?&?&?&?&?&?&?&?). lia.
    + pose proof (schedulers_step_sched a T n o_in slog sr
                    (sched_ok_ext _ _ _ _ _ Ho Hn) Hss) as Hx.
      destruct sr as [o'|e'].
      * left. rewrite Hcount, (schedulers_step_steps _ _ _ _ Hss), Hlr.
        destruct (Hx Hlr) as (?&?&?&?&?&?&?&?). lia.
      * simplify_eq. unfold sched_raise. rewrite Hcount. by apply Hx.
Qed.

Lemma train_windows_counts self a T mask wTS l ext s log r :
  for_each (train_window torch self a mask wTS) l (ext, s) = (log, r) →
  counts a T s log (match r with Ok es => Ok es.2 | Raise e => Raise e end)
  ∧ ∀ es1, r = Ok es1 →
      windows_processed log = length l ∧ out_loss es1.2 = out_loss s
      ∧ recordings_finished log = [] ∧ epochs_started log = [].
Proof.
  revert ext s log r. induction l as [|k l IH]; intros ext s log r H; simpl in H.
  - apply ret_inv in H as [-> ->]. split; [apply counts_nil|].
    intros ? [= <-]. done.
  - apply bind_inv in H as [(e & Hb & ->) | ([ext1 s1] & l1 & l2 & Hb & H & ->)].
    + split; [|done]. by apply train_window_counts with (T := T) in Hb.
    + pose proof Hb as Hc; apply train_window_counts with (T := T) in Hc.
      pose proof Hb as Hx4; apply train_window_run in Hx4 as (tail & Hlog & Hf & _ & _ & Hrf & Hes & _).
      pose proof Hb as Hx5; apply train_window_ok in Hx5 as (_ & _ & _ & Hout & _).
      destruct (IH _ _ _ _ H) as [IH1 IH2]. split.
      * eapply counts_step; [exact Hc|exact IH1].
      * intros es1 ->. destruct (IH2 _ eq_refl) as (K1 & K2 & K3 & K4).
        rewrite windows_processed_app, recordings_finished_app,
          epochs_started_app, K1, K2, K3, K4, Hout, Hlog.
        unfold windows_processed. simpl. rewrite Hf, Hrf, Hes. done.
Qed.

Lemma counts_fail a T s log s1 e :
  counts a T s log (Ok s1) → counts a T s log (Raise e).
Proof.
  intros (_ & _ & H3 & H4) n Hn Hlr. left. rewrite H3 by done.
  destruct (H4 _ Hn Hlr) as (?&?&?&?&?&?&?&?). lia.
Qed.

Lemma counts_quiet_tail a T s log s1 tail s2 :
  counts a T s log (Ok s1) →
  forward_calls tail = [] → losses tail = [] →
  scheduler_steps hyperparameter tail = 0 →
  hist s2 = hist s1 → optim s2 = optim s1 →
  counts a T s (log ++ tail) (Ok s2).
Proof.
  intros (H1 & H2 & H3 & H4) Hf Hl Hs Hh Ho. unfold counts, counted.
  assert (Hw : windows_processed tail = 0).
  { unfold windows_processed. by rewrite Hf. }
  rewrite losses_app, windows_processed_app, scheduler_steps_app, Hl, Hs, Hh, Ho,
    Hw, !Nat.add_0_r, !app_nil_r. done.
Qed.

(** One recording: [num_windows] windows, one line printed, and the loss
    trace written to the statistics. *)
Lemma train_recording_counts self a T mask mask_e i wTS s log r :
  train_recording F0 Fgtb torch self a mask mask_e i wTS s = (log, r) →
  counts a T s log (match r with Ok bs => Ok bs.2 | Raise e => Raise e end)
  ∧ ∀ bs, r = Ok bs →
      windows_processed log = num_windows self
      ∧ (∃ fc, recordings_finished log = [(i, fc)]
               ∧ bs.1 = early_stop Fgtb a i fc)
      ∧ out_loss bs.2 = loss_his (hist bs.2)
      ∧ epochs_started log = [].
Proof.
  intros H.
  apply train_recording_run in H
    as (wlog & wr & tail & Hw & -> & Hf & Hl & _ & _ & He & Hs & Hr).
  apply train_windows_counts with (T := T) in Hw as [Hc Hok].
  change (counts a T (recording_start self s)) with (counts a T s) in Hc.
  destruct r as [[b s']|e]; simpl in *.
  - destruct Hr as (es1 & loss & fc & ts_emp & ts_sim & d & d' & name0 & -> &
                    Hsim & Hh & Ho & _ & _ & Hout & _ & _ & _ & _ & _ & _ & _ &
                    _ & -> & ->).
    destruct (Hok _ eq_refl) as (K1 & K2 & K3 & K4). split.
    + by eapply counts_quiet_tail.
    + intros ? [= <-]. simpl.
      rewrite windows_processed_app, recordings_finished_app, epochs_started_app,
        K1, K3, K4, length_seq. simpl. rewrite Hh. repeat split; eauto.
  - split; [|done]. destruct Hr as (_ & -> & [->|[es1 ->]]);
      rewrite app_nil_r; [done|]. by eapply counts_fail.
Qed.

(** LOOP 2/4 as a whole. Without a [break] every recording is processed. *)
Lemma train_recordings_counts self a T mask mask_e i recs s log r :
  for_each_break (train_recording F0 Fgtb torch self a mask mask_e i) recs s
  = (log, r) →
  counts a T s log r
  ∧ ∀ s', r = Ok s' →
      Forall (fun p => p.1 = i) (recordings_finished log)
      ∧ epochs_started log = []
      ∧ (recs ≠ [] → out_loss s' = loss_his (hist s'))
      ∧ (recs = [] → s' = s ∧ log = [])
      ∧ (early_stop_fired Fgtb a log = false →
         windows_processed log = length recs * num_windows self
         ∧ length (recordings_finished log) = length recs).
Proof.
  revert s log r. induction recs as [|wTS recs IH]; intros s log r H; simpl in H.
  - apply ret_inv in H as [-> ->]. split; [apply counts_nil|].
    intros ? [= <-]. repeat split; done.
  - apply bind_inv in H as [(e & Hb & ->) | ([b s1] & l1 & l2 & Hb & H & ->)].
    + split; [|done]. by apply train_recording_counts with (T := T) in Hb as [? _].
    + apply train_recording_counts with (T := T) in Hb as [Hc Hok]. simpl in *.
      destruct (Hok _ eq_refl) as (K1 & (fc & K2 & K3) & K4 & K5). simpl in *.
      destruct b.
      * apply ret_inv in H as [-> ->]. rewrite app_nil_r. split; [done|].
        intros ? [= <-].
        assert (Hfired : early_stop_fired Fgtb a l1 = true).
        { unfold early_stop_fired. rewrite K2. simpl. by rewrite <- K3. }
        rewrite K2, Hfired. repeat split; try done.
        by repeat constructor.
      * destruct (IH _ _ _ H) as [IH1 IH2]. split.
        { eapply counts_step; [exact Hc|exact IH1]. }
        intros s' ->. destruct (IH2 _ eq_refl) as (J1 & J2 & J3 & J4 & J5).
        rewrite recordings_finished_app, epochs_started_app, K2, K5, J2.
        split; [by constructor|]. split; [done|]. split.
        { intros _. destruct recs as [|? ?].
          - destruct (J4 eq_refl) as [-> ->]. done.
          - by apply J3. }
        split; [done|]. intros Hno.
        rewrite early_stop_fired_app in Hno.
        apply orb_false_iff in Hno as [_ Hno].
        destruct (J5 Hno) as [J6 J7].
        rewrite windows_processed_app, K1, J6, length_app, J7. simpl. lia.
Qed.

(** LOOP 1/4, one epoch. *)
Lemma train_epoch_counts self a T mask mask_e i s log r :
  train_epoch F0 Fgtb torch self a mask mask_e i s = (log, r) →
  counts a T s log r
  ∧ ∀ s', r = Ok s' →
      ∃ body,
        log = EvPrintEpoch i :: body
        ∧ Forall (fun p => p.1 = i) (recordings_finished body)
        ∧ epochs_started body = []
        ∧ (out_loss s' = loss_his (hist s')
           ∨ (out_loss s' = out_loss s ∧ losses log = []))
        ∧ (early_stop_fired Fgtb a body = false →
           windows_processed body = length (trainData self) * num_windows self
           ∧ length (recordings_finished body) = length (trainData self)).
Proof.
  unfold train_epoch. intros H.
  apply bind_inv in H as [(e & Hb & ->) | ([] & l1 & l2 & Hb & H & ->)].
  { by apply emit_inv in Hb as [_ ?]. }
  apply emit_inv in Hb as [-> _].
  apply train_recordings_counts with (T := T) in H as [Hc Hok]. split.
  - destruct r as [s'|e]; simpl in *.
    + destruct Hc as (H1 & H2 & H3 & H4). done.
    + done.
  - intros s' ->. destruct (Hok _ eq_refl) as (J1 & J2 & J3 & J4 & J5).
    exists l2. repeat split; try done.
    + destruct (trainData self) as [|? ?] eqn:Htd.
      * destruct (J4 eq_refl) as [-> ->]. right. done.
      * left. by apply J3.
    + by apply J5.
    + by apply J5.
Qed.

Lemma early_stop_fired_epoch a i body :
  early_stop_fired Fgtb a (EvPrintEpoch i :: body) = early_stop_fired Fgtb a body.
Proof. done. Qed.

(** In an epoch that is not past [epoch_min] the early-stop test fails. *)
Lemma early_stop_not_before a i body :
  (Z.of_nat i ≤ epoch_min a)%Z →
  Forall (fun p => p.1 = i) (recordings_finished body) →
  early_stop_fired Fgtb a body = false.
Proof.
  intros Hi. unfold early_stop_fired.
  induction 1 as [|[j fc] l Hj _ IH]; simpl; [done|].
  simpl in Hj. subst j. rewrite IH, orb_false_r. unfold early_stop.
  rewrite bool_decide_eq_false_2; [done|lia].
Qed.

(** LOOP 1/4 as a whole. *)
Lemma train_epochs_counts self a T mask mask_e l s log r :
  for_each (train_epoch F0 Fgtb torch self a mask mask_e) l s = (log, r) →
  counts a T s log r
  ∧ ∀ s', r = Ok s' →
      (out_loss s' = loss_his (hist s')
       ∨ (out_loss s' = out_loss s ∧ losses log = []))
      ∧ (early_stop_fired Fgtb a log = false →
         windows_processed log
         = length l * (length (trainData self) * num_windows self)).
Proof.
  revert s log r. induction l as [|i l IH]; intros s log r H; simpl in H.
  - apply ret_inv in H as [-> ->]. split; [apply counts_nil|].
    intros ? [= <-]. split; [by right|done].
  - apply bind_inv in H as [(e & Hb & ->) | (s1 & l1 & l2 & Hb & H & ->)].
    + split; [|done]. by apply train_epoch_counts with (T := T) in Hb as [? _].
    + apply train_epoch_counts with (T := T) in Hb as [Hc Hok].
      destruct (Hok _ eq_refl) as (body & -> & _ & _ & Hout & Hcount).
      destruct (IH _ _ _ H) as [IH1 IH2]. split.
      { eapply counts_step; [exact Hc|exact IH1]. }
      intros s' ->. destruct (IH2 _ eq_refl) as [Jout Jcount]. split.
      * destruct Jout as [?|[J1 J2]]; [by left|].
        destruct Hc as (C1 & _). destruct IH1 as (D1 & _).
        rewrite J2, app_nil_r in D1.
        destruct Hout as [K|[K1 K2]].
        -- left. by rewrite J1, K, D1.
        -- right. rewrite J1, K1, losses_app, K2, J2. done.
      * intros Hno. rewrite early_stop_fired_app in Hno.
        apply orb_false_iff in Hno as [Hno1 Hno2].
        rewrite early_stop_fired_epoch in Hno1.
        destruct (Hcount Hno1) as [Hw _].
        rewrite windows_processed_app, (Jcount Hno2).
        change (windows_processed (EvPrintEpoch i :: body))
          with (windows_processed body).
        rewrite Hw. simpl. lia.
Qed.

Lemma hist_init_loss_his (m : @Model F Params) p mask h :
  hist_init m p mask = Ok h → loss_his h = [].
Proof.
  unfold hist_init. intros H.
  destruct (use_fit_gains m); simpl in H.
  - destruct (index_pairs _ _); [|done]. simpl in H.
    destruct (fit_param_init m p); [|done]. simpl in H. by simplify_eq.
  - destruct (fit_param_init m p); [|done]. simpl in H. by simplify_eq.
Qed.

Lemma optim_init_sched self a o :
  optim_init torch self a = Ok o →
  sched_ok a (num_windows self * num_epoches self) 0 o.
Proof.
  unfold optim_init, sched_ok. intros H Hlr. rewrite Hlr in H.
  unfold OneCycleLR_init in H.
  destruct (bool_decide (num_windows self * num_epoches self = 0)); [done|].
  simpl in H. simplify_eq. simpl. eexists _, _. split; [done|]. simpl.
  repeat split; lia.
Qed.

Lemma Model_fitting_init_ok (model_ : @Model F Params) params_ ts E
    (cost_ : @Cost F Params Loss) self :
  Model_fitting_init model_ params_ ts E cost_ = Ok self →
  trainData self = ts ∧ num_epoches self = E
  ∧ stats_loss (trainingStats self) = []
  ∧ model self = model_
  ∧ ∃ ts0 rest, ts = ts0 :: rest ∧ num_windows self = length ts0.
Proof.
  unfold Model_fitting_init. destruct ts as [|ts0 rest]; [done|].
  intros [= <-]. simpl. eauto 10.
Qed.

(** ** The claims about [train] *)

(** C1, as amended: the initial state and the delay history are created
    once per call of [train], before the epoch loop ([createIC(ver = 0)] and
    [createDelayIC(ver = 0)] are the first two calls, and are not called
    again); every window, the first window of a later recording or epoch
    included, starts from the state and delay history that the window before
    it left. A run whose schedulers cannot be built calls nothing. *)
Theorem train_state_created_once_and_carried self a :
  let log := (train F0 Fgtb torch self a).1 in
  log = []
  ∨ ∃ body,
      log = EvCreateIC 0 :: EvCreateDelayIC 0 :: body
      ∧ createIC_calls body = [] ∧ createDelayIC_calls body = []
      ∧ chained (Some {| X := createIC (model self) 0;
                         hE := createDelayIC (model self) 0 |})
          (forward_calls body).
Proof.
  destruct (train F0 Fgtb torch self a) as [log r] eqn:H. simpl.
  apply train_run in H as (l0 & r0 & Hi & H).
  apply train_init_run in Hi. destruct r0 as [s0|e].
  - destruct Hi as (-> & Hsim & _). destruct H as (body & r1 & Hl & -> & _).
    apply train_loops_carries in Hl as [(H1 & H2 & H3 & _) _].
    right. exists body. rewrite <- Hsim. done.
  - destruct H as [-> _]. destruct Hi as [[-> _]|[-> _]]; [by left|].
    right. exists []. repeat split; constructor.
Qed.

(** C10: with an int for [u], whatever its value, the external input of
    every window is the zero tensor of shape
    (node_size, steps_per_TR, TRs_per_window); the stimulus is sliced only
    when [u] is not an int. *)
Theorem train_int_stimulus_gives_zero_input self a z :
  arg_u a = UInt z →
  Forall (fun c => call_external c = zeros_external F0 self)
    (forward_calls (train F0 Fgtb torch self a).1)
  ∧ (∀ k ext, train_external (model self) (UInt z) k ext = ext)
  ∧ (∀ t k ext,
        train_external (model self) (UArray t) k ext
        = slice_last (k * TRs_per_window (model self))
            ((k + 1) * TRs_per_window (model self)) t).
Proof.
  intros Hu. split; [|done].
  destruct (train F0 Fgtb torch self a) as [log r] eqn:H. simpl.
  apply train_run in H as (l0 & r0 & Hi & H).
  apply train_init_run in Hi. destruct r0 as [s0|e].
  - destruct Hi as (-> & _). destruct H as (body & r1 & Hl & -> & _).
    apply train_loops_carries in Hl as [(_ & _ & _ & H4) _].
    simpl. eapply Forall_impl; [exact H4|]. intros c Hc.
    unfold external_ok in Hc. by rewrite Hu in Hc.
  - destruct H as [-> _]. destruct Hi as [[-> _]|[-> _]]; constructor.
Qed.


(** C3, as amended: with [epoch_min = 0] (and any [r_lb], -1 included) the
    early-stop test cannot succeed during the first epoch, whose index 0 is
    not greater than [epoch_min]: a run that completes processes every
    recording of the first epoch, [num_windows] windows each, before the
    second epoch begins or the loops end. *)
Theorem train_first_epoch_runs_every_recording self a log self' :
  epoch_min a = 0%Z →
  1 ≤ num_epoches self →
  train F0 Fgtb torch self a = (log, Ok self') →
  ∃ body0 rest,
    log = (EvCreateIC 0 :: EvCreateDelayIC 0 :: EvPrintEpoch 0 :: body0 ++ rest)%list
    ∧ epochs_started body0 = []
    ∧ length (recordings_finished body0) = length (trainData self)
    ∧ windows_processed body0 = length (trainData self) * num_windows self
    ∧ early_stop_fired Fgtb a body0 = false
    ∧ (rest = [] ∨ ∃ rest', rest = EvPrintEpoch 1 :: rest').
Proof.
  intros Hmin HE H.
  apply train_run in H as (l0 & r0 & Hi & H).
  apply train_init_run in Hi. destruct r0 as [s0|e]; [|by destruct H].
  destruct Hi as (-> & _).
  destruct H as (body & r1 & Hl & -> & s1 & lastRec_ & -> & _ & _).
  unfold train_loops in Hl.
  destruct (num_epoches self) as [|E]; [lia|]. simpl in Hl.
  apply bind_inv in Hl as [(e & _ & ?) | (s2 & l1 & l2 & Hb & Hl & ->)]; [done|].
  apply train_epoch_counts with (T := 0) in Hb as [_ Hok].
  destruct (Hok _ eq_refl) as (body0 & -> & Hall & Hes & _ & Hcount).
  assert (Hno : early_stop_fired Fgtb a body0 = false).
  { apply (early_stop_not_before a 0); [rewrite Hmin; lia|done]. }
  destruct (Hcount Hno) as [Hw Hr].
  exists body0, l2. repeat split; try done.
  destruct E as [|E]; simpl in Hl.
  - apply ret_inv in Hl as [-> _]. by left.
  - apply bind_inv in Hl as [(e & _ & ?) | (s3 & l3 & l4 & Hb & Hl & ->)]; [done|].
    apply train_epoch_counts with (T := 0) in Hb as [_ Hok1].
    destruct (Hok1 _ eq_refl) as (body1 & -> & _). right. eauto.
Qed.

(** C9, as amended: with the schedulers enabled, at least one epoch, at
    least one window per recording and more than one recording, a run in
    which no early stop occurs never completes: it ends with an error. The
    schedulers are built for [num_windows * num_epoches] steps; unless some
    other error ends the run before, the step after the last one allowed is
    attempted and raises. *)
Theorem train_scheduler_overrun self a log r :
  lr_scheduler a = true →
  1 ≤ num_epoches self →
  1 ≤ num_windows self →
  1 < length (trainData self) →
  train F0 Fgtb torch self a = (log, r) →
  early_stop_fired Fgtb a log = false →
  let T := num_windows self * num_epoches self in
  (∃ e, r = Raise e)
  ∧ (scheduler_steps hyperparameter log ≤ T
     ∨ (scheduler_steps hyperparameter log = T + 1
        ∧ r = Raise (OneCycleStepError (T + 1) T))).
Proof.
  intros Hlr HE HW HR H Hno T.
  apply train_run in H as (l0 & r0 & Hi & H).
  apply train_init_run in Hi. destruct r0 as [s0|e].
  2:{ destruct H as [-> ->]. split; [eauto|]. left.
      destruct Hi as [[-> _]|[-> _]]; simpl; lia. }
  destruct Hi as (-> & _ & _ & Ho & _).
  apply optim_init_sched in Ho. fold T in Ho.
  destruct H as (body & r1 & Hl & -> & Hr).
  change (early_stop_fired Fgtb a ([EvCreateIC 0; EvCreateDelayIC 0] ++ body))
    with (early_stop_fired Fgtb a body) in Hno.
  change (scheduler_steps hyperparameter
            ([EvCreateIC 0; EvCreateDelayIC 0] ++ body))
    with (scheduler_steps hyperparameter body).
  unfold train_loops in Hl.
  apply train_epochs_counts with (T := T) in Hl as [Hc Hok].
  destruct r1 as [s1|e1].
  - exfalso. destruct (Hok _ eq_refl) as [_ Hcount].
    specialize (Hcount Hno). rewrite length_seq in Hcount.
    destruct Hc as (_ & _ & _ & Hs).
    destruct (Hs _ Ho Hlr) as (?&?&?&?&?&?&?&Hle).
    rewrite Hcount in Hle. unfold T in Hle. nia.
  - assert (r = Raise e1) as ->.
    { destruct r as [self'|e]; [by destruct Hr as (? & ? & ? & _)|].
      destruct Hr as [?|[? ?]]; congruence. }
    split; [eauto|]. specialize (Hc _ Ho Hlr).
    destruct Hc as [?|[? ->]]; [left|right]; simpl in *; [lia|done].
Qed.

(** *** The parameter histories *)

(** A fold that appends one entry to the history of every key it visits. *)
Lemma foldlR_append_spec {B}
    (f : gmap string (list (list F)) → B → result (gmap string (list (list F))))
    (key : B → option string) :
  (∀ fp b fp', f fp b = Ok fp' →
     match key b with
     | None => fp' = fp
     | Some k => ∃ l v, fp !! k = Some l ∧ fp' = <[k := (l ++ [v])%list]> fp
     end) →
  ∀ bs fp fp', NoDup (omap key bs) → foldlR f fp bs = Ok fp' →
    ∀ k, match fp !! k with
         | None => fp' !! k = None ∧ k ∉ omap key bs
         | Some l =>
             if decide (k ∈ omap key bs)
             then ∃ v, fp' !! k = Some (l ++ [v])%list
             else fp' !! k = Some l
         end.
Proof.
  intros Hf bs. induction bs as [|b bs IH]; intros fp fp' Hnd H k; simpl in H.
  - simplify_eq. destruct (fp' !! k) eqn:Hk.
    + case_decide as Hin; [|done]. by apply elem_of_nil in Hin.
    + split; [done|]. apply not_elem_of_nil.
  - destruct (f fp b) as [fp1|] eqn:Hb; [|done]. simpl in H.
    specialize (Hf _ _ _ Hb). simpl in Hnd |- *.
    destruct (key b) as [kb|].
    + destruct Hf as (lb & v & Hlb & ->).
      apply NoDup_cons in Hnd as [Hkb Hnd].
      specialize (IH _ _ Hnd H k).
      destruct (decide (k = kb)) as [->|Hne].
      * rewrite lookup_insert_eq in IH. rewrite Hlb.
        case_decide as Hin1; [done|].
        case_decide as Hin2; [eauto|]. exfalso. apply Hin2. by left.
      * rewrite lookup_insert_ne in IH by done.
        destruct (fp !! k) as [l|].
        -- case_decide as Hin1; case_decide as Hin2; try done.
           ++ exfalso. apply Hin2. by right.
           ++ apply elem_of_cons in Hin2 as [?|?]; done.
        -- destruct IH as [? ?]. split; [done|]. rewrite elem_of_cons. tauto.
    + subst fp1. by apply IH.
Qed.

Lemma omap_Some_id {A} (l : list A) : omap Some l = l.
Proof. induction l as [|x l IH]; simpl; [done|]. f_equal. exact IH. Qed.

Lemma fit_param_append_spec (m : @Model F Params) p fp fp' :
  NoDup (track_params m) →
  fit_param_append m p fp = Ok fp' →
  ∀ k, match fp !! k with
       | None => fp' !! k = None ∧ k ∉ tracked_names m
       | Some l =>
           if decide (k ∈ tracked_names m)
           then ∃ v, fp' !! k = Some (l ++ [v])%list
           else fp' !! k = Some l
       end.
Proof.
  unfold fit_param_append, tracked_names. intros Hnd H.
  destruct (bool_decide (track_params m ≠ [])).
  - pose proof (omap_Some_id (track_params m)) as Hk.
    rewrite <- Hk. eapply (foldlR_append_spec _ Some); [|by rewrite Hk|exact H].
    intros fp0 b fp1 Hb. simpl in Hb.
    destruct (param_value m p b); [|done]. simpl in Hb.
    destruct (fp0 !! b) eqn:Hl; [|done]. simpl in Hb. simplify_eq. eauto.
  - set (key := fun kv : string * list F =>
                  if bool_decide (kv.1 ∈ exclude_param_of m) then None
                  else Some kv.1).
    assert (Hk : omap key (state_dict m p)
                 = filter (fun k => k ∉ exclude_param_of m)
                     (elements (state_dict_keys m))).
    { unfold state_dict. induction (elements (state_dict_keys m)) as [|x l IH];
        simpl; [done|]. unfold key at 1. simpl.
      destruct (decide (x ∈ exclude_param_of m)) as [Hx|Hx].
      - rewrite bool_decide_eq_true_2 by done.
        rewrite filter_cons_False by (by intros ?). exact IH.
      - rewrite bool_decide_eq_false_2 by done. rewrite filter_cons_True by done.
        f_equal. exact IH. }
    rewrite <- Hk. eapply (foldlR_append_spec _ key); [| |exact H].
    + intros fp0 b fp1 Hb. unfold key. simpl in Hb.
      destruct (bool_decide (b.1 ∈ exclude_param_of m)); [by simplify_eq|].
      destruct (fp0 !! b.1) eqn:Hl; [|done]. simpl in Hb. simplify_eq. eauto.
    + rewrite Hk. apply NoDup_filter, NoDup_elements.
Qed.

Lemma fit_param_init_spec (m : @Model F Params) p fp :
  fit_param_init m p = Ok fp →
  ∀ k, (k ∈ tracked_names m ↔ is_Some (fp !! k))
       ∧ ∀ l, fp !! k = Some l → length l = 1.
Proof.
  unfold fit_param_init, tracked_names.
  destruct (bool_decide (track_params m ≠ [])).
  - generalize (track_params m). intros names.
    assert (Hgen : ∀ fp0 fp1 : gmap string (list (list F)),
      foldlR (fun fp par_name =>
                rbind (from_option (AttributeError par_name)
                         (param_value m p par_name))
                  (fun v => Ok (<[par_name := [v]]> fp))) fp0 names = Ok fp1 →
      ∀ k, (k ∈ names ∨ is_Some (fp0 !! k) ↔ is_Some (fp1 !! k))
           ∧ ∀ l, fp1 !! k = Some l → length l = 1 ∨ fp0 !! k = Some l).
    { induction names as [|x names IH]; intros fp0 fp1 H k; simpl in H.
      - simplify_eq. split; [|eauto]. rewrite elem_of_nil. tauto.
      - destruct (param_value m p x) as [v|]; [|done]. simpl in H.
        destruct (IH _ _ H k) as [IH1 IH2]. split.
        + rewrite <- IH1, elem_of_cons.
          destruct (decide (k = x)) as [->|Hne].
          * rewrite lookup_insert_eq. split; [intros _; right; eauto|by left;left].
          * rewrite lookup_insert_ne by done. tauto.
        + intros l Hl. destruct (IH2 _ Hl) as [?|Hl']; [by left|].
          destruct (decide (k = x)) as [->|Hne].
          * rewrite lookup_insert_eq in Hl'. simplify_eq. by left.
          * rewrite lookup_insert_ne in Hl' by done. by right. }
    intros H k. destruct (Hgen _ _ H k) as [H1 H2]. split.
    + rewrite <- H1, lookup_empty. split; [by left|].
      intros [?|[? ?]]; done.
    + intros l Hl. destruct (H2 _ Hl) as [?|Hl']; [done|].
      by rewrite lookup_empty in Hl'.
  - unfold state_dict. generalize (elements (state_dict_keys m)). intros keys.
    assert (Hgen : ∀ (fp0 : gmap string (list (list F))) k,
      let fp1 := foldl (fun fp kv =>
                          if bool_decide (kv.1 ∈ exclude_param_of m) then fp
                          else <[kv.1 := [kv.2]]> fp) fp0
                   (map (fun k => (k, state_dict_value m p k)) keys) in
      (k ∈ filter (fun k => k ∉ exclude_param_of m) keys ∨ is_Some (fp0 !! k)
       ↔ is_Some (fp1 !! k))
      ∧ ∀ l, fp1 !! k = Some l → length l = 1 ∨ fp0 !! k = Some l).
    { induction keys as [|x keys IH]; intros fp0 k; simpl.
      - split; [|eauto]. rewrite elem_of_nil. tauto.
      - destruct (decide (x ∈ exclude_param_of m)) as [Hx|Hx].
        + rewrite bool_decide_eq_true_2 by done.
          rewrite filter_cons_False by (by intros ?). apply IH.
        + rewrite bool_decide_eq_false_2 by done.
          rewrite filter_cons_True by done.
          destruct (IH (<[x := [state_dict_value m p x]]> fp0) k) as [IH1 IH2].
          split.
          * rewrite <- IH1, elem_of_cons.
            destruct (decide (k = x)) as [->|Hne].
            -- rewrite lookup_insert_eq.
               split; [intros _; right; eauto|by left;left].
            -- rewrite lookup_insert_ne by done. tauto.
          * intros l Hl. destruct (IH2 _ Hl) as [?|Hl']; [by left|].
            destruct (decide (k = x)) as [->|Hne].
            -- rewrite lookup_insert_eq in Hl'. simplify_eq. by left.
            -- rewrite lookup_insert_ne in Hl' by done. by right. }
    intros [= <-] k. destruct (Hgen ∅ k) as [H1 H2]. split.
    + rewrite <- H1, lookup_empty. split; [by left|].
      intros [?|[? ?]]; done.
    + intros l Hl. destruct (H2 _ Hl) as [?|Hl']; [done|].
      by rewrite lookup_empty in Hl'.
Qed.

Lemma hist_init_ok (m : @Model F Params) p mask h :
  hist_init m p mask = Ok h → hist_ok m 0 h.
Proof.
  unfold hist_init, hist_ok. intros H.
  assert (∃ fp sc_, fit_param_init m p = Ok fp
                    ∧ h = {| fit_param := fp; fit_sc := sc_;
                             fit_lm := if use_fit_lfm m then Some [lm m p] else None;
                             loss_his := [] |}
                    ∧ (if use_fit_gains m then ∃ l, sc_ = Some l ∧ length l = 1
                       else sc_ = None)) as (fp & sc_ & Hfp & -> & Hsc).
  { destruct (use_fit_gains m); simpl in H.
    - destruct (index_pairs _ _); [|done]. simpl in H.
      destruct (fit_param_init m p); [|done]. simpl in H. simplify_eq.
      eexists _, _. split; [done|]. split; [done|]. eauto.
    - destruct (fit_param_init m p); [|done]. simpl in H. simplify_eq.
      eexists _, _. split; [done|]. done. }
  pose proof (fit_param_init_spec _ _ _ Hfp) as Hspec. simpl.
  split; [intros k; apply Hspec|]. split; [intros k; apply Hspec|].
  split; [done|]. split; [|done]. destruct (use_fit_lfm m); eauto.
Qed.

Lemma hist_append_ok (m : @Model F Params) p mask v n h h' :
  NoDup (track_params m) →
  hist_ok m n h →
  hist_append m p mask (loss_his_append v h) = Ok h' →
  hist_ok m (n + 1) h' ∧ hist_extends h h'.
Proof.
  intros Hnd (Hdom & Hlen & Hsc & Hlm & Hloss) H. unfold hist_append in H.
  simpl in H.
  destruct (fit_param_append m p (fit_param h)) as [fp|] eqn:Hfp; [|done].
  simpl in H.
  pose proof (fit_param_append_spec _ _ _ _ Hnd Hfp) as Hspec.
  assert (∃ sc_ lm_,
    h' = {| fit_param := fp; fit_sc := sc_; fit_lm := lm_;
            loss_his := (loss_his h ++ [v])%list |}
    ∧ (if use_fit_gains m
       then ∃ l x, fit_sc h = Some l ∧ sc_ = Some (l ++ [x])%list
       else sc_ = fit_sc h)
    ∧ (if use_fit_lfm m
       then ∃ l x, fit_lm h = Some l ∧ lm_ = Some (l ++ [x])%list
       else lm_ = fit_lm h)) as (sc_ & lm_ & -> & Hsc' & Hlm').
  { destruct (use_fit_gains m); simpl in H.
    - destruct (index_pairs _ _); [|done]. simpl in H.
      destruct (fit_sc h) eqn:?; [|done]. simpl in H.
      destruct (use_fit_lfm m); simpl in H.
      + destruct (fit_lm h) eqn:?; [|done]. simpl in H. simplify_eq.
        eexists _, _. split; [done|]. eauto 10.
      + simplify_eq. eexists _, _. split; [done|]. eauto 10.
    - destruct (use_fit_lfm m); simpl in H.
      + destruct (fit_lm h) eqn:?; [|done]. simpl in H. simplify_eq.
        eexists _, _. split; [done|]. eauto 10.
      + simplify_eq. eexists _, _. split; [done|]. eauto 10. }
  split.
  - unfold hist_ok. simpl. repeat split.
    + intros Hk. specialize (Hspec k). apply Hdom in Hk as [l Hl].
      rewrite Hl in Hspec. destruct (decide _); [destruct Hspec|]; eauto.
    + intros [l Hl]. specialize (Hspec k).
      destruct (fit_param h !! k) eqn:Hk; [apply Hdom; eauto|].
      destruct Hspec. congruence.
    + intros k l Hl. specialize (Hspec k).
      destruct (fit_param h !! k) as [l0|] eqn:Hk; [|destruct Hspec; congruence].
      assert (k ∈ tracked_names m) by (apply Hdom; eauto).
      rewrite decide_True in Hspec by done. destruct Hspec as [x Hx].
      simplify_eq. rewrite length_app, (Hlen _ _ Hk). simpl. lia.
    + destruct (use_fit_gains m); [|congruence].
      destruct Hsc as (l & Hl & Hn), Hsc' as (l' & x & Hl' & ->).
      simplify_eq. eexists. split; [done|]. rewrite length_app. simpl. lia.
    + destruct (use_fit_lfm m); [|congruence].
      destruct Hlm as (l & Hl & Hn), Hlm' as (l' & x & Hl' & ->).
      simplify_eq. eexists. split; [done|]. rewrite length_app. simpl. lia.
    + rewrite length_app. simpl. lia.
  - unfold hist_extends. simpl. repeat split.
    + intros k l Hl. specialize (Hspec k). rewrite Hl in Hspec.
      rewrite decide_True in Hspec by (apply Hdom; eauto). done.
    + intros l Hl. destruct (use_fit_gains m).
      * destruct Hsc' as (l' & x & Hl' & ->). simplify_eq. eauto.
      * congruence.
    + intros l Hl. destruct (use_fit_lfm m).
      * destruct Hlm' as (l' & x & Hl' & ->). simplify_eq. eauto.
      * congruence.
    + eauto.
Qed.

Lemma train_window_hist self a mask wTS k ext s log ext1 s1 n :
  NoDup (track_params (model self)) →
  hist_ok (model self) n (hist s) →
  train_window torch self a mask wTS k (ext, s) = (log, Ok (ext1, s1)) →
  hist_ok (model self) (n + 1) (hist s1) ∧ hist_extends (hist s) (hist s1).
Proof.
  intros Hnd Hok H.
  apply train_window_ok in H as (_ & _ & (loss & _ & _ & Hh) & _).
  by eapply hist_append_ok.
Qed.

(** The histories are in step with the loss trace. *)
Lemma train_windows_hist self a mask wTS l ext s log es1 :
  NoDup (track_params (model self)) →
  hist_ok (model self) (length (loss_his (hist s))) (hist s) →
  for_each (train_window torch self a mask wTS) l (ext, s) = (log, Ok es1) →
  hist_ok (model self) (length (loss_his (hist es1.2))) (hist es1.2).
Proof.
  intros Hnd. revert ext s log. induction l as [|k l IH]; intros ext s log Hok H;
    simpl in H.
  - apply ret_inv in H as [_ H]. by simplify_eq.
  - apply bind_inv in H as [(e & _ & ?) | ([ext1 s1] & l1 & l2 & Hb & H & ->)];
      [done|].
    eapply (train_window_hist _ _ _ _ _ _ _ _ _ _ _ Hnd Hok) in Hb as [Hb _].
    eapply IH; [|exact H].
    destruct Hb as (? & ? & ? & ? & Hlen). simpl. rewrite Hlen. done.
Qed.

Lemma train_recordings_hist self a mask mask_e i recs s log s' :
  NoDup (track_params (model self)) →
  hist_ok (model self) (length (loss_his (hist s))) (hist s) →
  for_each_break (train_recording F0 Fgtb torch self a mask mask_e i) recs s
  = (log, Ok s') →
  hist_ok (model self) (length (loss_his (hist s'))) (hist s').
Proof.
  intros Hnd. revert s log. induction recs as [|wTS recs IH]; intros s log Hok H;
    simpl in H.
  - apply ret_inv in H as [_ H]. by simplify_eq.
  - apply bind_inv in H as [(e & _ & ?) | ([b s1] & l1 & l2 & Hb & H & ->)];
      [done|].
    apply train_recording_run in Hb as (wlog & wr & tail & Hw & _ & _ & _ & _ &
                                        _ & _ & _ & Hr).
    destruct Hr as (es1 & ? & ? & ? & ? & ? & ? & ? & -> & _ & Hh & _).
    apply train_windows_hist in Hw; [|done|done]. simpl in Hh. rewrite <- Hh in Hw.
    destruct b.
    + apply ret_inv in H as [_ H]. by simplify_eq.
    + by eapply IH.
Qed.

Lemma train_loops_hist self a s log s' :
  NoDup (track_params (model self)) →
  hist_ok (model self) (length (loss_his (hist s))) (hist s) →
  train_loops F0 Fgtb torch self a s = (log, Ok s') →
  hist_ok (model self) (length (loss_his (hist s'))) (hist s').
Proof.
  intros Hnd. unfold train_loops. generalize (seq 0 (num_epoches self)).
  intros l. revert s log. induction l as [|i l IH]; intros s log Hok H;
    simpl in H.
  - apply ret_inv in H as [_ H]. by simplify_eq.
  - apply bind_inv in H as [(e & _ & ?) | (s1 & l1 & l2 & Hb & H & ->)]; [done|].
    unfold train_epoch in Hb.
    apply bind_inv in Hb as [(e & _ & ?) | ([] & l3 & l4 & _ & Hb & ->)]; [done|].
    apply train_recordings_hist in Hb; [|done|done]. by eapply IH.
Qed.

(** C6, as amended: when the names in [track_params] are distinct (a name
    listed twice is appended to twice per window), every history of a
    tracked parameter holds one snapshot before the first window, one more
    after each window, and so the number of windows processed plus one when
    [train] stores it; a window appends to the histories and changes nothing
    in them. *)
Theorem train_param_history_length self a :
  NoDup (track_params (model self)) →
  (∀ log s0, train_init torch self a = (log, Ok s0) →
             hist_ok (model self) 0 (hist s0))
  ∧ (∀ mask wTS k ext s log ext1 s1 n,
       hist_ok (model self) n (hist s) →
       train_window torch self a mask wTS k (ext, s) = (log, Ok (ext1, s1)) →
       hist_ok (model self) (n + 1) (hist s1) ∧ hist_extends (hist s) (hist s1))
  ∧ (∀ log self',
       train F0 Fgtb torch self a = (log, Ok self') →
       ∀ k, k ∈ tracked_names (model self) →
            ∃ l, stats_attrs (trainingStats self') !! k = Some l
                 ∧ length l = windows_processed log + 1).
Proof.
  intros Hnd. split; [|split].
  - intros log s0 H. apply train_init_run in H as (_ & _ & _ & _ & Hh & _).
    by eapply hist_init_ok.
  - intros mask wTS k ext s log ext1 s1 n Hok H. by eapply train_window_hist.
  - intros log self' H k Hk.
    apply train_run in H as (l0 & r0 & Hi & H).
    apply train_init_run in Hi. destruct r0 as [s0|e]; [|by destruct H].
    destruct Hi as (-> & _ & _ & _ & Hh & _).
    pose proof (hist_init_loss_his _ _ _ _ Hh) as Hl0.
    apply hist_init_ok in Hh.
    destruct H as (body & r1 & Hl & -> & s1 & lastRec_ & -> & _ & ->).
    pose proof Hl as Hc. unfold train_loops in Hc.
    apply train_epochs_counts with (T := 0) in Hc as [(C1 & C2 & _) _].
    apply train_loops_hist in Hl; [|done|by rewrite Hl0].
    destruct Hl as (Hdom & Hlen & _). apply Hdom in Hk as [l Hkl].
    exists l. simpl. split.
    + by apply lookup_union_Some_l.
    + unfold windows_processed in *. simpl. by rewrite (Hlen _ _ Hkl), C1, Hl0, C2.
Qed.

(** *** evaluate *)

Lemma windListDict_append_spec (m : @Model F Params) nw d d' :
  NoDup (names m) →
  windListDict_append m nw d = Ok d' →
  ∀ k, k ∈ names m →
       ∃ ws w, d !! k = Some (Windows ws) ∧ nw !! k = Some w
               ∧ d' !! k = Some (Windows (ws ++ [w])%list).
Proof.
  unfold windListDict_append. generalize (names m). intros l Hnd H.
  assert (Hgen : ∀ k,
    (k ∈ l → ∃ ws w, d !! k = Some (Windows ws) ∧ nw !! k = Some w
                      ∧ d' !! k = Some (Windows (ws ++ [w])%list))
    ∧ (k ∉ l → d' !! k = d !! k)).
  { revert d H. induction Hnd as [|x l Hx Hnd IH]; intros d H k; simpl in H.
    - simplify_eq. split; [by intros ?%elem_of_nil|done].
    - destruct (nw !! x) as [w|] eqn:Hw; [|done]. simpl in H.
      destruct (d !! x) as [[ws|?]|] eqn:Hd; [|done|done]. simpl in H.
      destruct (IH _ H k) as [IH1 IH2]. split.
      + intros [->|Hk]%elem_of_cons.
        * rewrite (proj2 (IH _ H x)) by done. rewrite lookup_insert_eq. eauto.
        * destruct (IH1 Hk) as (ws' & w' & Hd' & ? & ?).
          rewrite lookup_insert_ne in Hd' by (by intros ->). eauto.
      + intros Hk. rewrite not_elem_of_cons in Hk. destruct Hk as [Hne Hk].
        rewrite (IH2 Hk). by rewrite lookup_insert_ne. }
  intros k Hk. by apply Hgen.
Qed.

(** Concatenating succeeds only when no name occurs twice: at its second
    visit a name holds an array already. *)
Lemma windListDict_concatenate_spec (m : @Model F Params) d d' :
  windListDict_concatenate m d = Ok d' →
  NoDup (names m)
  ∧ ∀ k, k ∈ names m →
         ∃ ws arr, d !! k = Some (Windows ws) ∧ concatenate_axis1 ws = Ok arr
                 ∧ d' !! k = Some (Array arr).
Proof.
  unfold windListDict_concatenate. generalize (names m). intros l H.
  assert (Hgen : NoDup l
    ∧ (∀ k, k ∈ l → ∃ ws arr, d !! k = Some (Windows ws)
                             ∧ concatenate_axis1 ws = Ok arr
                             ∧ d' !! k = Some (Array arr))
    ∧ (∀ k, k ∉ l → d' !! k = d !! k)).
  { revert d H. induction l as [|x l IH]; intros d H; simpl in H.
    - simplify_eq. split; [constructor|].
      split; [by intros ? ?%elem_of_nil|done].
    - destruct (d !! x) as [[ws|?]|] eqn:Hd; [|done|done]. simpl in H.
      destruct (concatenate_axis1 ws) as [arr|] eqn:Ha; [|done]. simpl in H.
      destruct (IH _ H) as (Hnd & IH1 & IH2).
      assert (Hx : x ∉ l).
      { intros Hin. destruct (IH1 _ Hin) as (? & ? & Hd' & _).
        by rewrite lookup_insert_eq in Hd'. }
      split; [by constructor|]. split.
      + intros k [->|Hk]%elem_of_cons.
        * rewrite (IH2 _ Hx), lookup_insert_eq. eauto.
        * destruct (IH1 _ Hk) as (ws' & a' & Hd' & ? & ?).
          rewrite lookup_insert_ne in Hd' by (by intros ->). eauto.
      + intros k Hk. rewrite not_elem_of_cons in Hk. destruct Hk as [Hne Hk].
        rewrite (IH2 _ Hk). by rewrite lookup_insert_ne. }
  destruct Hgen as (? & ? & _). done.
Qed.

Lemma make_lastRec_spec (m : @Model F Params) d lr :
  make_lastRec m (Some d) = Ok lr →
  ∀ k, k ∈ names m →
       ∃ arr, windListDict_array d k = Ok arr
            ∧ lr !! k = Some {| rec_data := arr; rec_step_size := step_size m |}.
Proof.
  unfold make_lastRec. generalize (names m).
  generalize (∅ : gmap string (@Recording F)). intros r l H.
  assert (Hgen :
    (∀ k, k ∈ l → ∃ arr, windListDict_array d k = Ok arr
                        ∧ lr !! k = Some {| rec_data := arr;
                                           rec_step_size := step_size m |})
    ∧ (∀ k, k ∉ l → lr !! k = r !! k)).
  { revert r H. induction l as [|x l IH]; intros r H; simpl in H.
    - simplify_eq. split; [by intros ? ?%elem_of_nil|done].
    - destruct (windListDict_array d x) as [arr|] eqn:Ha; [|done]. simpl in H.
      destruct (IH _ H) as [IH1 IH2]. split.
      + intros k [->|Hk]%elem_of_cons; [|by apply IH1].
        destruct (decide (x ∈ l)) as [Hin|Hnin]; [by apply IH1|].
        rewrite (IH2 _ Hnin), lookup_insert_eq. eauto.
      + intros k Hk. rewrite not_elem_of_cons in Hk. destruct Hk as [Hne Hk].
        rewrite (IH2 _ Hk). by rewrite lookup_insert_ne. }
  by destruct Hgen.
Qed.

Lemma windListDict_init_spec (m : @Model F Params) k :
  k ∈ names m → windListDict_init m !! k = Some (Windows []).
Proof.
  unfold windListDict_init. generalize (names m).
  generalize (∅ : gmap string (@WinVal F)). intros d l. revert d.
  induction l as [|x l IH] using rev_ind; intros d Hk.
  - by apply elem_of_nil in Hk.
  - rewrite foldl_app. simpl. destruct (decide (k = x)) as [->|Hne].
    + by rewrite lookup_insert_eq.
    + rewrite lookup_insert_ne by done. apply IH.
      apply elem_of_app in Hk as [?|Hk]; [done|].
      by apply list_elem_of_singleton in Hk.
Qed.

(** The call that window [k] of [evaluate] makes from state [s]. *)
Lemma evaluate_window_run self N u_hat k (s : @EvalState F) log r :
  evaluate_window self N u_hat k s = (log, r) →
  let c := eval_call self u_hat k s in
  log = [EvForward (call_external c) (call_X c) (call_hE c)
           (call_next_window c) (call_hE_new c)]
  ∧ ∀ s' : @EvalState F, r = Ok s' →
          next_state c = Some (ev_sim s')
          ∧ (if bool_decide (N ≤ k)
             then windListDict_append (model self) (call_next_window c)
                    (ev_windListDict s) = Ok (ev_windListDict s')
             else ev_windListDict s' = ev_windListDict s).
Proof.
  unfold evaluate_window. cbv zeta. intros H.
  assert (Hdec : bool_decide (Z.of_nat N - 1 < Z.of_nat k)%Z = bool_decide (N ≤ k)).
  { apply bool_decide_ext. lia. }
  rewrite Hdec in H. inv_M; simplify_eq; (split; [done|]); try done.
  intros s' [= <-]. simpl.
  repeat match goal with
    | H : Ok _ = from_option _ ?o |- _ => destruct o eqn:?; simplify_eq/=
    end.
  split.
  - unfold next_state, eval_call. simpl.
    match goal with H : _ !! "current_state"%string = Some _ |- _ => by rewrite H end.
  - destruct (bool_decide (N ≤ k)); by simplify_eq.
Qed.

(** LOOP 1/2 from window [k0] on: one call per window, on the slice of
    [u_hat] of that window; the outputs of the windows from [N] on are
    appended to the lists of [windListDict]. *)
Lemma evaluate_windows_run self N u_hat n k0 (s s' : @EvalState F) log :
  NoDup (names (model self)) →
  for_each (evaluate_window self N u_hat) (seq k0 n) s = (log, Ok s') →
  length (forward_calls log) = n
  ∧ (∀ j c, forward_calls log !! j = Some c →
            call_external c = eval_external (model self) u_hat (k0 + j))
  ∧ ∀ name ws, name ∈ names (model self) →
      ev_windListDict s !! name = Some (Windows ws) →
      ∃ ws', ev_windListDict s' !! name = Some (Windows (ws ++ ws')%list)
             ∧ Forall2 (fun c w => call_next_window c !! name = Some w)
                 (drop (N - k0) (forward_calls log)) ws'.
Proof.
  intros Hnd. revert k0 s log. induction n as [|n IH]; intros k0 s log H;
    simpl in H.
  - apply ret_inv in H as [-> H]. simplify_eq. simpl. split; [done|].
    split; [done|]. intros name ws _ Hws. exists []. rewrite app_nil_r.
    split; [done|]. rewrite drop_nil. constructor.
  - apply bind_inv in H as [(e & _ & ?) | (s1 & l1 & l2 & Hb & H & ->)]; [done|].
    apply evaluate_window_run in Hb as [-> Hb].
    destruct (Hb _ eq_refl) as [_ Hd].
    destruct (IH _ _ _ H) as (IH1 & IH2 & IH3).
    rewrite forward_calls_app. simpl. split; [by rewrite IH1|]. split.
    + intros [|j] c Hc; simpl in Hc.
      * simplify_eq. simpl. by rewrite Nat.add_0_r.
      * rewrite (IH2 _ _ Hc). f_equal. lia.
    + intros name ws Hname Hws. case_bool_decide as Hk.
      * destruct (windListDict_append_spec _ _ _ _ Hnd Hd _ Hname)
          as (ws0 & w & Hws0 & Hw & Hws1).
        rewrite Hws in Hws0. simplify_eq.
        destruct (IH3 _ _ Hname Hws1) as (ws' & Hfin & Hall).
        exists (w :: ws'). rewrite <- (assoc_L (++)) in Hfin. split; [done|].
        replace (N - k0) with 0 by lia. replace (N - S k0) with 0 in Hall by lia.
        simpl in *. by constructor.
      * rewrite <- Hd in Hws. destruct (IH3 _ _ Hname Hws) as (ws' & Hfin & Hall).
        exists ws'. split; [done|].
        replace (N - k0) with (S (N - S k0)) by lia. done.
Qed.

Lemma make_u_hat_spec (m : @Model F Params) W N u_ u_hat :
  make_u_hat F0 F_of_Z m W N u_ = Ok u_hat →
  ∃ src,
    stimulus_array F_of_Z m (W * TRs_per_window m) u_ = Ok src
    ∧ shape3 (node_size m) (steps_per_TR m) (W * TRs_per_window m) src
    ∧ u_hat = assign_last_from (N * TRs_per_window m)
                (full3 (node_size m) (steps_per_TR m)
                   (N * TRs_per_window m + W * TRs_per_window m) F0) src.
Proof.
  unfold make_u_hat. cbv zeta.
  replace (N * TRs_per_window m + W * TRs_per_window m - N * TRs_per_window m)
    with (W * TRs_per_window m) by lia.
  destruct (stimulus_array F_of_Z m (W * TRs_per_window m) u_) as [src|] eqn:Hs;
    [|done].
  simpl. intros [= <-]. exists src. split; [done|]. split; [|done].
  destruct u_ as [z|t]; simpl in Hs.
  - simplify_eq. apply full3_shape.
  - by eapply broadcast3_shape.
Qed.

(** The run of [evaluate] that completes. *)
Lemma evaluate_run self N u_ log self' :
  evaluate F0 F_of_Z torch self N u_ = (log, Ok self') →
  let m := model self in
  ∃ u_hat wlog (s1 : @EvalState F) windowedTS ts_emp d name0 ts_sim fc lr,
    make_u_hat F0 F_of_Z m (num_windows self) N u_ = Ok u_hat
    ∧ for_each (evaluate_window self N u_hat) (seq 0 (num_windows self + N))
        {| ev_sim := {| X := createIC m 1; hE := createDelayIC m 1 |};
           ev_windListDict := windListDict_init m |} = (wlog, Ok s1)
    ∧ log = ([EvCreateIC 1; EvCreateDelayIC 1] ++ wlog
             ++ [EvPrintEvaluate fc (cos_sim_mean torch ts_sim ts_emp)])%list
    ∧ trainData self !! 0 = Some windowedTS
    ∧ concatenate_axis1 windowedTS = Ok ts_emp
    ∧ windListDict_concatenate m (ev_windListDict s1) = Ok d
    ∧ output_names m !! 0 = Some name0
    ∧ windListDict_array d name0 = Ok ts_sim
    ∧ FC_cor torch 10 (tril_indices (output_size m)) ts_sim ts_emp = Ok fc
    ∧ make_lastRec m (Some d) = Ok lr
    ∧ lastRec self' = Some lr.
Proof.
  unfold evaluate. cbv zeta. intros H. inv_M; simplify_eq.
  repeat match goal with
    | H : Ok _ = from_option _ ?o |- _ => destruct o eqn:?; simplify_eq/=
    end.
  eexists _, _, _, _, _, _, _, _, _, _. repeat split; eauto.
Qed.

Lemma FC_cor_inv k mask_e (ts_sim ts_emp : @Matrix F) fc :
  FC_cor torch k mask_e ts_sim ts_emp = Ok fc →
  ∃ x y,
    index_pairs (corrcoef torch (columns_from k ts_sim)) mask_e = Ok x
    ∧ index_pairs (corrcoef torch ts_emp) mask_e = Ok y
    ∧ fc = corrcoef01 torch x y.
Proof.
  unfold FC_cor. cbv zeta. intros H.
  destruct (index_pairs (corrcoef torch (columns_from k ts_sim)) mask_e) as [x|];
    [|done]. simpl in H.
  destruct (index_pairs (corrcoef torch ts_emp) mask_e) as [y|]; [|done].
  simpl in H. simplify_eq. eauto.
Qed.

Lemma windListDict_array_Array (d : gmap string (@WinVal F)) k arr arr' :
  d !! k = Some (Array arr) → windListDict_array d k = Ok arr' → arr' = arr.
Proof. unfold windListDict_array. intros ->. simpl. by intros [= <-]. Qed.


(** C8, as amended: the FC correlation is computed after discarding the first
    10 time steps of the simulated signal, a fixed number (the literal 10 in
    [train], the local constant [transient_num = 10] in [evaluate]) that no
    argument changes; the correlation matrix of the empirical signal is
    formed from the whole signal. In [train] this is the value printed for a
    recording and tested for the early stop; in [evaluate] it is the value
    printed. *)
Theorem FC_diagnostic_trims_ten_steps :
  (∀ self a mask mask_e i wTS s log b s',
      train_recording F0 Fgtb torch self a mask mask_e i wTS s
      = (log, Ok (b, s')) →
      ∃ ts_emp ts_sim d' name0 fc,
        concatenate_axis1 wTS = Ok ts_emp
        ∧ output_names (model self) !! 0 = Some name0
        ∧ windListDict s' = Some d'
        ∧ windListDict_array d' name0 = Ok ts_sim
        ∧ recordings_finished log = [(i, fc)]
        ∧ b = early_stop Fgtb a i fc
        ∧ ∃ x y,
            index_pairs (corrcoef torch (map (drop 10) ts_sim)) mask_e = Ok x
            ∧ index_pairs (corrcoef torch ts_emp) mask_e = Ok y
            ∧ fc = corrcoef01 torch x y)
  ∧ (∀ self N u_ log self',
      evaluate F0 F_of_Z torch self N u_ = (log, Ok self') →
      ∃ windowedTS ts_emp name0 lr rec fc cos,
        trainData self !! 0 = Some windowedTS
        ∧ concatenate_axis1 windowedTS = Ok ts_emp
        ∧ output_names (model self) !! 0 = Some name0
        ∧ lastRec self' = Some lr ∧ lr !! name0 = Some rec
        ∧ last log = Some (EvPrintEvaluate fc cos)
        ∧ ∃ x y,
            index_pairs (corrcoef torch (map (drop 10) (rec_data rec)))
              (tril_indices (output_size (model self))) = Ok x
            ∧ index_pairs (corrcoef torch ts_emp)
                (tril_indices (output_size (model self))) = Ok y
            ∧ fc = corrcoef01 torch x y).
Proof.
  split.
  - intros self a mask mask_e i wTS s log b s' H.
    pose proof H as Hc. apply train_recording_counts with (T := 0) in Hc as [_ Hc].
    destruct (Hc _ eq_refl) as (_ & (fc' & Hrf & Hb) & _).
    apply train_recording_run in H
      as (wlog & wr & tail & Hw & -> & _ & _ & _ & _ & _ & _ & Hr).
    destruct Hr as (es1 & loss & fc & ts_emp & ts_sim & d & d' & name0 & -> & _ &
                    _ & _ & _ & _ & _ & _ & Hemp & _ & _ & Hd' & Hn0 & Hsim &
                    Hfc & -> & Hb').
    simpl in *. apply FC_cor_inv in Hfc as (x & y & Hx & Hy & ->).
    rewrite recordings_finished_app in Hrf.
    exists ts_emp, ts_sim, d', name0, (corrcoef01 torch x y).
    repeat split; try done.
    + rewrite recordings_finished_app.
      apply train_windows_counts with (T := 0) in Hw as [_ Hw].
      destruct (Hw _ eq_refl) as (_ & _ & -> & _). done.
    + eauto.
  - intros self N u_ log self' H.
    apply evaluate_run in H
      as (u_hat & wlog & s1 & windowedTS & ts_emp & d & name0 & ts_sim & fc & lr &
          _ & _ & -> & Htd & Hemp & _ & Hn0 & Hsim & Hfc & Hlr & HlastRec).
    assert (Hname : name0 ∈ names (model self)).
    { unfold names. apply elem_of_app. right.
      by eapply list_elem_of_lookup_2. }
    destruct (make_lastRec_spec _ _ _ Hlr _ Hname) as (arr & Harr & Hl).
    rewrite Hsim in Harr. simplify_eq.
    apply FC_cor_inv in Hfc as (x & y & Hx & Hy & ->).
    eexists windowedTS, ts_emp, name0, lr, _, _, _.
    repeat split; try done.
    + by rewrite (assoc_L (++)), last_snoc.
    + simpl. eauto.
Qed.

End FittingFacts.

(** ** The runtime argument check *)

Section ArgTypeCheckFacts.

Import ArgTypeCheck.
Local Open Scope string_scope.

Lemma dict_set_keys d k a p :
  p ∈ dict_set d k a → p.1 = k ∨ ∃ q, q ∈ d ∧ q.1 = p.1.
Proof.
  induction d as [|[k' a'] d IH]; simpl.
  - intros ->%list_elem_of_singleton. by left.
  - case_bool_decide as Hk.
    + intros [->|Hp]%elem_of_cons.
      * left. done.
      * right. exists p. split; [by right | done].
    + intros [->|Hp]%elem_of_cons.
      * right. exists (k', a'). split; [by left | done].
      * destruct (IH Hp) as [?|(q & Hq & ?)]; [by left|].
        right. exists q. split; [by right | done].
Qed.

Lemma expected_types_of_keys sig p :
  p ∈ expected_types_of sig → ∃ q, q ∈ sig ∧ q.1 = p.1.
Proof.
  unfold expected_types_of.
  assert (H : ∀ d, p ∈ foldl (fun d p => dict_set d p.1 p.2) d sig →
                   ∃ q, (q ∈ d ∨ q ∈ sig) ∧ q.1 = p.1).
  { induction sig as [|s sig IH]; simpl; intros d Hp.
    - exists p. split; [by left | done].
    - destruct (IH _ Hp) as (q & [Hq|Hq] & Hk).
      + apply dict_set_keys in Hq as [Hq|(q' & Hq' & Hk')].
        * exists s. split; [right; by left | congruence].
        * exists q'. split; [by left | congruence].
      + exists q. split; [right; by right | done]. }
  intros Hp. destruct (H [] Hp) as (q & [Hq|Hq] & Hk).
  - by apply elem_of_nil in Hq.
  - eauto.
Qed.

(** The frame of the checker binds its own five names and no other. *)
Lemma locals_own method_obj args_signature expected_types arg_name arg_type k :
  k ∉ own_locals →
  locals method_obj args_signature expected_types arg_name arg_type !! k = None.
Proof.
  intros Hk. unfold locals, own_locals in *.
  repeat (rewrite lookup_insert_ne; [|intros <-; apply Hk; set_solver]).
  apply lookup_empty.
Qed.

(** A function none of whose parameters is named like a local variable of
    the checker passes the check, whatever it is called with. *)
Lemma method_arg_type_check_blind sig :
  (∀ p, p ∈ sig → p.1 ∉ own_locals) →
  method_arg_type_check (VFunction sig) = Ok tt.
Proof.
  intros Hsig. unfold method_arg_type_check. simpl.
  assert (H : ∀ l, (∀ p, p ∈ l → p.1 ∉ own_locals) →
                   foldlR (fun _ p => check_one (VFunction sig) sig
                                        (expected_types_of sig) p) tt l = Ok tt).
  { induction l as [|p l IH]; intros Hl; [done|]. simpl.
    unfold check_one at 1.
    rewrite locals_own by (apply Hl; by left).
    destruct (negb _); simpl; apply IH; intros q Hq; apply Hl; by right. }
  apply H. intros p Hp.
  destruct (expected_types_of_keys _ _ Hp) as (q & Hq & <-). by apply Hsig.
Qed.

(** C4: [method_arg_type_check] reads [locals()] of its own frame, not the
    arguments of the call. For [def f(x: int)] called with [x = 'hello'] the
    argument does not match its annotation and the check raises nothing; for
    [def g(arg_name: int)] called with [arg_name = 3] every argument matches
    and the check raises a [ValueError] about its own loop variable. *)
Theorem method_arg_type_check_ignores_passed_arguments :
  let f := [("x", AClass TInt)] in
  let g := [("arg_name", AClass TInt)] in
  (arg_mismatch f {["x" := VStr "hello"]} "x" TInt (VStr "hello")
   ∧ method_arg_type_check (VFunction f) = Ok tt)
  ∧ (all_args_match g {["arg_name" := VInt 3]}
     ∧ method_arg_type_check (VFunction g)
       = Raise (ValueError
                  "arg_name should be of type int, but got type str instead.")).
Proof.
  intros f g. split; split.
  - unfold arg_mismatch. split; [by left|]. split; [done|].
    split; [by vm_compute | done].
  - apply method_arg_type_check_blind.
    intros p ->%list_elem_of_singleton. apply (bool_decide_unpack _). by vm_compute.
  - intros name ty v Hin Hv.
    apply list_elem_of_singleton in Hin. simplify_eq.
    vm_compute in Hv. by simplify_eq.
  - vm_compute. reflexivity.
Qed.

End ArgTypeCheckFacts.

(** ** The claims on the small instance *)

Section Instances.
Local Open Scope string_scope.
Local Open Scope Z_scope.

(** C1, counterexample: one epoch over two recordings of one window each.
    Two recordings are processed, and the initial state is created once. *)
Lemma train_state_not_created_per_recording :
  ¬ state_created_per_recording
      (Toy.run_train (Toy.fitting ["a"] 12 2 1 1)
         (Toy.args (UInt 0) 0 (-1) false)).1.
Proof. intros [H _]. vm_compute in H. discriminate. Qed.

(** C2, the code at the failing input: three epochs over two recordings of
    one window each, [epoch_min = 0], every FC correlation above [r_lb].
    The early-stop test succeeds after the first recording of epoch 1; the
    loops go on to epoch 2 and process another window. *)
Theorem train_continues_after_early_stop :
  let a := Toy.args (UInt 0) 0 (-1) false in
  let log := (Toy.run_train (Toy.fitting ["a"] 12 2 1 3) a).1 in
  recordings_finished log
  = [(0%nat, 202); (0%nat, 202); (1%nat, 202); (2%nat, 202)]
  ∧ early_stop Z.gtb a 1%nat 202 = true
  ∧ epochs_started (after_first_stop Z.gtb a log) = [2%nat]
  ∧ windows_processed (after_first_stop Z.gtb a log) = 1%nat.
Proof. vm_compute. done. Qed.

(** C3, counterexample: [epoch_min = 0], [r_lb = -1], one epoch over two
    recordings. Both recordings are processed. *)
Lemma train_does_not_stop_in_first_epoch :
  let self := Toy.fitting ["a"] 12 2 1 1 in
  ¬ stops_after_one_recording self
      (Toy.run_train self (Toy.args (UInt 0) 0 (-1) false)).1.
Proof. intros self [H _]. vm_compute in H. discriminate. Qed.


(** C3, witness: two epochs over two recordings. *)
Lemma train_first_epoch_runs_every_recording_witness :
  let self := Toy.fitting ["a"] 12 2 1 2 in
  let a := Toy.args (UInt 0) 0 (-1) false in
  let r := train 0 Z.gtb Toy.toy_torch self a in
  epoch_min a = 0
  ∧ (1 ≤ num_epoches self)%nat
  ∧ r = (r.1, Ok (Toy.outcome self r))
  ∧ ∃ body0 rest,
      r.1 = (EvCreateIC 0 :: EvCreateDelayIC 0 :: EvPrintEpoch 0
             :: body0 ++ rest)%list
      ∧ epochs_started body0 = []
      ∧ length (recordings_finished body0) = length (trainData self)
      ∧ windows_processed body0
        = (length (trainData self) * num_windows self)%nat
      ∧ early_stop_fired Z.gtb a body0 = false
      ∧ (rest = [] ∨ ∃ rest', rest = EvPrintEpoch 1 :: rest').
Proof.
  intros self a r.
  assert (H1 : epoch_min a = 0) by reflexivity.
  assert (H2 : (1 ≤ num_epoches self)%nat) by (vm_compute; lia).
  assert (H3 : r = (r.1, Ok (Toy.outcome self r))) by (vm_compute; reflexivity).
  split; [exact H1|]. split; [exact H2|]. split; [exact H3|].
  exact (train_first_epoch_runs_every_recording 0 Z.gtb Toy.toy_torch self a r.1
           (Toy.outcome self r) H1 H2 H3).
Defined.


(** C6, counterexample: [track_params = ["a", "a"]], one window. The
    history of [a] holds three snapshots. *)
Lemma train_history_longer_with_duplicate_names :
  let self := Toy.fitting ["a"; "a"] 12 1 1 1 in
  let r := Toy.run_train self (Toy.args (UInt 0) 0 (-1) false) in
  ¬ history_length_claim (Toy.outcome self r) r.1.
Proof.
  intros self r H.
  specialize (H "a" [[0]; [2]; [2]]).
  assert (Hl : stats_attrs (trainingStats (Toy.outcome self r)) !! "a"
               = Some [[0]; [2]; [2]]) by (vm_compute; reflexivity).
  specialize (H Hl). vm_compute in H. discriminate.
Qed.

(** C6, witness: distinct names. *)
Lemma train_param_history_length_witness :
  let self := Toy.fitting ["a"; "b"] 12 1 2 1 in
  let a := Toy.args (UInt 0) 0 (-1) false in
  NoDup (track_params (model self))
  ∧ (∀ log s0, train_init Toy.toy_torch self a = (log, Ok s0) →
               hist_ok (model self) 0 (hist s0))
  ∧ (∀ mask wTS k ext s log ext1 s1 n,
       hist_ok (model self) n (hist s) →
       train_window Toy.toy_torch self a mask wTS k (ext, s)
       = (log, Ok (ext1, s1)) →
       hist_ok (model self) (n + 1) (hist s1) ∧ hist_extends (hist s) (hist s1))
  ∧ (∀ log self',
       train 0 Z.gtb Toy.toy_torch self a = (log, Ok self') →
       ∀ k, k ∈ tracked_names (model self) →
            ∃ l, stats_attrs (trainingStats self') !! k = Some l
                 ∧ length l = (windows_processed log + 1)%nat).
Proof.
  intros self a.
  assert (H1 : NoDup (track_params (model self))).
  { apply (bool_decide_unpack _). vm_compute. exact I. }
  split; [exact H1|].
  exact (train_param_history_length 0 Z.gtb Toy.toy_torch self a H1).
Defined.


(** C9, counterexample: no epochs. No scheduler step is taken, which does
    not exceed the zero steps the schedulers are asked for. *)
Lemma train_without_epochs_takes_no_scheduler_step :
  let self := Toy.fitting ["a"] 12 2 1 0 in
  ¬ scheduler_overrun self
      (Toy.run_train self (Toy.args (UInt 0) 0 (-1) true)).
Proof. intros self [H _]. vm_compute in H. lia. Qed.

(** C9, witness: one epoch over two recordings of one window. The second
    window takes step 2 of 1 and raises. *)
Lemma train_scheduler_overrun_witness :
  let self := Toy.fitting ["a"] 12 2 1 1 in
  let a := Toy.args (UInt 0) 0 (-1) true in
  let r := train 0 Z.gtb Toy.toy_torch self a in
  let T := (num_windows self * num_epoches self)%nat in
  lr_scheduler a = true
  ∧ (1 ≤ num_epoches self)%nat
  ∧ (1 ≤ num_windows self)%nat
  ∧ (1 < length (trainData self))%nat
  ∧ r = (r.1, r.2)
  ∧ early_stop_fired Z.gtb a r.1 = false
  ∧ (∃ e, r.2 = Raise e)
  ∧ ((scheduler_steps hyperparameter r.1 ≤ T)%nat
     ∨ (scheduler_steps hyperparameter r.1 = (T + 1)%nat
        ∧ r.2 = Raise (OneCycleStepError (T + 1) T))).
Proof.
  intros self a r T.
  assert (H1 : lr_scheduler a = true) by reflexivity.
  assert (H2 : (1 ≤ num_epoches self)%nat) by (vm_compute; lia).
  assert (H3 : (1 ≤ num_windows self)%nat) by (vm_compute; lia).
  assert (H4 : (1 < length (trainData self))%nat) by (vm_compute; lia).
  assert (H5 : r = (r.1, r.2)) by (vm_compute; reflexivity).
  assert (H6 : early_stop_fired Z.gtb a r.1 = false) by (vm_compute; reflexivity).
  split; [exact H1|]. split; [exact H2|]. split; [exact H3|].
  split; [exact H4|]. split; [exact H5|]. split; [exact H6|].
  exact (train_scheduler_overrun 0 Z.gtb Toy.toy_torch self a r.1 r.2
           H1 H2 H3 H4 H5 H6).
Defined.

(** C10, witness: [u = 5]. *)
Lemma train_int_stimulus_gives_zero_input_witness :
  let self := Toy.fitting ["a"] 12 2 2 1 in
  let a := Toy.args (UInt 5) 0 (-1) false in
  arg_u a = UInt 5
  ∧ Forall (fun c => call_external c = zeros_external 0 self)
      (forward_calls (train 0 Z.gtb Toy.toy_torch self a).1)
  ∧ (∀ k ext, train_external (model self) (UInt 5) k ext = ext)
  ∧ (∀ t k ext,
        train_external (model self) (UArray t) k ext
        = slice_last (k * TRs_per_window (model self))
            ((k + 1) * TRs_per_window (model self)) t).
Proof.
  intros self a.
  assert (H1 : arg_u a = UInt 5) by reflexivity.
  split; [exact H1|].
  exact (train_int_stimulus_gives_zero_input 0 Z.gtb Toy.toy_torch self a 5 H1).
Defined.

(** C8, counterexample: one recording of one window whose simulated signal
    has 12 time steps. The stand-in for [np.corrcoef] reports the number of
    columns it is given, so the diagnostic 202 says that 2 columns of the
    simulated signal were left and 2 of the empirical one: ten steps were
    discarded, whatever the arguments of [train]. *)
Lemma train_transient_prefix_not_configurable :
  ¬ ∃ a, recordings_finished (Toy.run_train (Toy.fitting ["a"] 12 1 1 1) a).1
         ≠ [(0%nat, 202)].
Proof.
  intros [[lr u_ em rlb lrh sch] H]. apply H. clear H.
  unfold Toy.run_train. generalize Z.gtb as gtb. intros gtb.
  destruct sch, u_; vm_compute;
    destruct em; try destruct (gtb _ _); reflexivity.
Qed.

(** C8, witness: [evaluate] on one recording of one window. *)
Lemma FC_diagnostic_trims_ten_steps_witness :
  let self := Toy.fitting ["a"] 12 1 1 1 in
  let r := evaluate 0 (fun z => z) Toy.toy_torch self 0 (UInt 0) in
  r = (r.1, Ok (Toy.outcome self r))
  ∧ ∃ windowedTS ts_emp name0 lr rec fc cos,
      trainData self !! 0%nat = Some windowedTS
      ∧ concatenate_axis1 windowedTS = Ok ts_emp
      ∧ output_names (model self) !! 0%nat = Some name0
      ∧ lastRec (Toy.outcome self r) = Some lr ∧ lr !! name0 = Some rec
      ∧ last r.1 = Some (EvPrintEvaluate fc cos)
      ∧ ∃ x y,
          index_pairs (corrcoef Toy.toy_torch (map (drop 10) (rec_data rec)))
            (tril_indices (output_size (model self))) = Ok x
          ∧ index_pairs (corrcoef Toy.toy_torch ts_emp)
              (tril_indices (output_size (model self))) = Ok y
          ∧ fc = corrcoef01 Toy.toy_torch x y.
Proof.
  intros self r.
  assert (H1 : r = (r.1, Ok (Toy.outcome self r))) by (vm_compute; reflexivity).
  split; [exact H1|].
  exact (proj2 (FC_diagnostic_trims_ten_steps 0 (fun z => z) Z.gtb Toy.toy_torch)
           self 0%nat (UInt 0) r.1 (Toy.outcome self r) H1).
Defined.

End Instances.

Section ArgTypeCheckMore.

Import ArgTypeCheck.
Local Open Scope string_scope.

Lemma foldlR_unit_Ok {B} (f : B → result unit) l :
  foldlR (fun _ b => f b) tt l = Ok tt ↔ Forall (fun b => f b = Ok tt) l.
Proof.
  induction l as [|b l IH]; simpl.
  - split; [constructor | done].
  - destruct (f b) as [[]|e] eqn:Hb; simpl.
    + rewrite IH. split; [by constructor | by inversion 1].
    + split; [done | inversion 1; congruence].
Qed.




Lemma dict_set_fresh d k a :
  k ∉ d.*1 → dict_set d k a = (d ++ [(k, a)])%list.
Proof.
  induction d as [|[k' a'] d IH]; simpl; [done|].
  intros Hk. apply not_elem_of_cons in Hk as [Hne Hk].
  rewrite bool_decide_eq_false_2 by done. by rewrite IH.
Qed.

(** Parameter names are distinct, so the dict lists the parameters in the
    order of the signature. *)
Lemma expected_types_of_NoDup sig :
  NoDup sig.*1 → expected_types_of sig = sig.
Proof.
  unfold expected_types_of.
  assert (H : ∀ d, NoDup ((d ++ sig)%list).*1 →
                   foldl (fun d p => dict_set d p.1 p.2) d sig = (d ++ sig)%list).
  { induction sig as [|[k a] sig IH]; simpl; intros d Hd.
    - by rewrite app_nil_r.
    - rewrite dict_set_fresh.
      + rewrite IH; rewrite <- app_assoc; done.
      + rewrite fmap_app in Hd. apply NoDup_app in Hd as (_ & Hd & _).
        intros Hk. apply (Hd _ Hk). simpl. by left. }
  intros Hnd. by apply (H []).
Qed.

(** What [locals()[arg_name]] is for a parameter annotated with a class. *)
Lemma locals_own_type method_obj args_signature expected_types arg_name t :
  type_of <$> (locals method_obj args_signature expected_types arg_name (AClass t)
                 !! arg_name)
  = if bool_decide (arg_name = "method_obj") then Some (type_of method_obj)
    else own_local_type arg_name.
Proof.
  unfold locals, own_local_type.
  repeat case_bool_decide; simplify_map_eq; done.
Qed.


Lemma self_not_own : "self" ∉ own_locals.
Proof. apply (bool_decide_unpack _). by vm_compute. Qed.

Lemma check_one_class sig et name t :
  check_one (VFunction sig) sig et (name, AClass t)
  = match own_local_type name with
    | Some lt =>
        if issubclass lt t then Ok tt
        else Raise (ValueError (mismatch_message name (type_name t) (type_name lt)))
    | None => Ok tt
    end.
Proof.
  unfold check_one. cbn [fst snd].
  pose proof (locals_own_type (VFunction sig) sig et name t) as Hl.
  destruct (locals _ _ _ _ _ !! name) as [v|] eqn:Hv; simpl in Hl.
  - assert (Hself : name ≠ "self").
    { intros ->. rewrite locals_own in Hv; [done | apply self_not_own]. }
    rewrite bool_decide_eq_false_2 by done. simpl.
    assert (Ho : own_local_type name = Some (type_of v)).
    { case_bool_decide as Hm; [|done]. subst name.
      unfold locals in Hv. by simplify_map_eq. }
    rewrite Ho. by destruct (issubclass _ _).
  - assert (Ho : own_local_type name = None).
    { case_bool_decide as Hm; [done|]. done. }
    rewrite Ho. by destruct (negb _).
Qed.

(** X1: for a function whose parameter names are distinct and whose
    annotations are classes, the check passes exactly when every parameter
    that is named like a local variable of the checker is annotated with
    the class of that local or with a superclass of it. What is checked is
    the frame of the checker; a parameter of any other name is not checked. *)
Theorem method_arg_type_check_passes_iff sig :
  NoDup sig.*1 →
  Forall (fun p => ∃ t, p.2 = AClass t) sig →
  method_arg_type_check (VFunction sig) = Ok tt
  ↔ ∀ name t lt, (name, AClass t) ∈ sig → own_local_type name = Some lt →
                 issubclass lt t = true.
Proof.
  intros Hnd Hcl. unfold method_arg_type_check. simpl.
  rewrite expected_types_of_NoDup by done.
  rewrite foldlR_unit_Ok, Forall_forall. split.
  - intros H name t lt Hin Ho. specialize (H _ Hin).
    rewrite check_one_class, Ho in H. by destruct (issubclass lt t).
  - intros H [name ann] Hin.
    rewrite Forall_forall in Hcl. destruct (Hcl _ Hin) as [t Ht].
    simpl in Ht. subst ann. rewrite check_one_class.
    destruct (own_local_type name) as [lt|] eqn:Ho; [|done].
    by rewrite (H _ _ _ Hin Ho).
Qed.



End ArgTypeCheckMore.

(** ** Further properties of the fitting loop *)

Section FittingMore.
Context {F : Type} (F0 : F) (F_of_Z : Z → F) (Fgtb : F → F → bool).
Context {Params Loss Opt : Type} (torch : @Torch F Params Loss Opt).

Implicit Types (self : @Model_fitting F Params Loss) (a : @TrainArgs F).
Implicit Types (s : @LoopState F Params Loss Opt) (log : list (@Event F)).

(** *** Every epoch is started *)

Lemma train_recordings_first self a mask mask_e i wTS recs s log s' :
  for_each_break (train_recording F0 Fgtb torch self a mask mask_e i)
    (wTS :: recs) s = (log, Ok s') →
  ∃ fc, (i, fc) ∈ recordings_finished log.
Proof.
  simpl. intros H.
  apply bind_inv in H as [(e & _ & ?) | ([b s1] & l1 & l2 & Hb & _ & ->)]; [done|].
  apply train_recording_counts with (T := 0) in Hb as [_ Hok].
  destruct (Hok _ eq_refl) as (_ & (fc & K & _) & _).
  exists fc. rewrite recordings_finished_app, K. by left.
Qed.

Lemma train_epochs_started self a mask mask_e l s log s' :
  for_each (train_epoch F0 Fgtb torch self a mask mask_e) l s = (log, Ok s') →
  epochs_started log = l
  ∧ (trainData self ≠ [] →
     ∀ i, i ∈ l → ∃ fc, (i, fc) ∈ recordings_finished log).
Proof.
  revert s log. induction l as [|i l IH]; intros s log H; simpl in H.
  - apply ret_inv in H as [-> _]. split; [done|]. intros _ i Hi.
    by apply elem_of_nil in Hi.
  - apply bind_inv in H as [(e & _ & ?) | (s1 & l1 & l2 & Hb & H & ->)]; [done|].
    destruct (IH _ _ H) as [IH1 IH2].
    pose proof Hb as Hc.
    apply train_epoch_counts with (T := 0) in Hc as [_ Hok].
    destruct (Hok _ eq_refl) as (body & -> & _ & Hes & _).
    split.
    + rewrite epochs_started_app. simpl. by rewrite Hes, IH1.
    + intros Htd j [->|Hj]%elem_of_cons.
      * unfold train_epoch in Hb.
        apply bind_inv in Hb as [(e & _ & ?) | ([] & k1 & k2 & Hb1 & Hb2 & Hk)];
          [done|].
        apply emit_inv in Hb1 as [-> _]. simpl in Hk. simplify_eq.
        destruct (trainData self) as [|wTS recs]; [done|].
        apply train_recordings_first in Hb2 as [fc Hfc].
        exists fc. rewrite recordings_finished_app. apply elem_of_app. by left.
      * destruct (IH2 Htd _ Hj) as [fc Hfc].
        exists fc. rewrite recordings_finished_app. apply elem_of_app. by right.
Qed.

(** X3: a run that completes has started every epoch, 0 to
    [num_epoches - 1] in order, and finished at least one recording in each:
    the [break] of line 233 ends an epoch, never the run. *)
Theorem train_starts_every_epoch self a log self' :
  train F0 Fgtb torch self a = (log, Ok self') →
  epochs_started log = seq 0 (num_epoches self)
  ∧ (trainData self ≠ [] →
     ∀ i, i < num_epoches self → ∃ fc, (i, fc) ∈ recordings_finished log).
Proof.
  intros H. apply train_run in H as (l0 & r0 & Hi & H).
  apply train_init_run in Hi. destruct r0 as [s0|e]; [|by destruct H].
  destruct Hi as (-> & _).
  destruct H as (body & r1 & Hl & -> & s1 & lastRec_ & -> & _).
  unfold train_loops in Hl. apply train_epochs_started in Hl as [H1 H2].
  split.
  - rewrite epochs_started_app. by rewrite H1.
  - intros Htd i Hi. destruct (H2 Htd i) as [fc Hfc].
    { apply elem_of_seq. lia. }
    exists fc. rewrite recordings_finished_app. apply elem_of_app. by right.
Qed.

(** *** The recording that [train] leaves in [lastRec] *)

Lemma train_windows_windows self a mask wTS l ext s wlog es1 name d0 ws :
  NoDup (names (model self)) → name ∈ names (model self) →
  for_each (train_window torch self a mask wTS) l (ext, s) = (wlog, Ok es1) →
  windListDict s = Some d0 → d0 !! name = Some (Windows ws) →
  ∃ d1 ws',
    windListDict es1.2 = Some d1
    ∧ d1 !! name = Some (Windows (ws ++ ws'))
    ∧ Forall2 (fun c w => call_next_window c !! name = Some w)
        (forward_calls wlog) ws'.
Proof.
  intros Hnd Hname. revert ext s wlog d0 ws.
  induction l as [|k l IH]; intros ext s wlog d0 ws H Hd Hws; simpl in H.
  - apply ret_inv in H as [-> [= ->]]. exists d0, []. simpl.
    rewrite app_nil_r. repeat split; [done..|constructor].
  - apply bind_inv in H as [(e & _ & ?) | ([ext1 s1] & l1 & l2 & Hb & H & ->)];
      [done|].
    pose proof Hb as Hcalls. apply train_window_calls in Hcalls.
    apply train_window_ok in Hb as (_ & _ & _ & _ & d & d' & Hd1 & Happ & Hd').
    rewrite Hd in Hd1. simplify_eq.
    destruct (windListDict_append_spec _ _ _ _ Hnd Happ _ Hname)
      as (ws0 & w & Hws0 & Hw & Hd'w).
    rewrite Hws in Hws0. simplify_eq.
    destruct (IH _ _ _ _ _ H Hd' Hd'w) as (d1 & ws' & K1 & K2 & K3).
    exists d1, (w :: ws'). rewrite <- app_assoc in K2.
    repeat split; [done..|].
    rewrite forward_calls_app, Hcalls. simpl. by constructor.
Qed.

Lemma train_recording_recorded self a mask mask_e i wTS s log bs :
  train_recording F0 Fgtb torch self a mask mask_e i wTS s = (log, Ok bs) →
  ∃ d, windListDict bs.2 = Some d
       ∧ length (forward_calls log) = num_windows self
       ∧ NoDup (names (model self))
       ∧ output_names (model self) ≠ []
       ∧ ∀ name, name ∈ names (model self) →
           ∃ ws arr,
             Forall2 (fun c w => call_next_window c !! name = Some w)
               (forward_calls log) ws
             ∧ concatenate_axis1 ws = Ok arr
             ∧ d !! name = Some (Array arr).
Proof.
  intros H.
  apply train_recording_run in H
    as (wlog & wr & tail & Hw & -> & Hf & _ & _ & _ & _ & _ & Hr).
  destruct Hr as (es1 & loss & fc & ts_emp & ts_sim & d & d' & name0 & -> & _ &
                  _ & _ & _ & _ & _ & _ & _ & Hd & Hcat & Hd' & Hn0 & _).
  pose proof Hw as Hcount.
  apply train_windows_counts with (T := 0) in Hcount as [_ Hcount].
  destruct (Hcount _ eq_refl) as (Hlen & _).
  unfold windows_processed in Hlen. rewrite length_seq in Hlen.
  destruct (windListDict_concatenate_spec _ _ _ Hcat) as [Hnd Hall].
  exists d'. rewrite forward_calls_app, Hf, app_nil_r.
  split; [done|]. split; [done|]. split; [done|]. split.
  { intros Hnil. by rewrite Hnil in Hn0. }
  intros name Hname.
  destruct (Hall _ Hname) as (ws & arr & Hws & Harr & Hd'n).
  destruct (train_windows_windows _ _ _ _ _ _ _ _ _ name _ []
              Hnd Hname Hw eq_refl (windListDict_init_spec _ _ Hname))
    as (d1 & ws' & K1 & K2 & K3).
  rewrite Hd in K1. injection K1 as <-.
  rewrite Hws in K2. injection K2 as ->.
  exists ws', arr. done.
Qed.

Lemma keeps_last_quiet self s log tail :
  forward_calls tail = [] → keeps_last self s log → keeps_last self s (log ++ tail).
Proof.
  intros Hf H d Hd. destruct (H d Hd) as (H1 & H2 & H3 & H4).
  unfold recorded, last_windows in *.
  rewrite forward_calls_app, Hf, app_nil_r. done.
Qed.

Lemma train_recording_keeps_last self a mask mask_e i wTS s log bs pre :
  train_recording F0 Fgtb torch self a mask mask_e i wTS s = (log, Ok bs) →
  keeps_last self bs.2 (pre ++ log).
Proof.
  intros H. apply train_recording_recorded in H
    as (d & Hd & Hlen & Hnd & Hout & Hall).
  intros d' Hd'. rewrite Hd in Hd'. simplify_eq.
  assert (Hlast : last_windows self (pre ++ log) = forward_calls log).
  { unfold last_windows. rewrite forward_calls_app, length_app, Hlen.
    replace (length (forward_calls pre) + num_windows self - num_windows self)
      with (length (forward_calls pre)) by lia.
    by rewrite drop_app_length. }
  split; [|split; [|done]].
  - intros name Hname. rewrite Hlast. by apply Hall.
  - rewrite forward_calls_app, length_app. lia.
Qed.

Lemma train_recordings_keep_last self a mask mask_e i recs s log s' pre :
  for_each_break (train_recording F0 Fgtb torch self a mask mask_e i) recs s
  = (log, Ok s') →
  keeps_last self s pre → keeps_last self s' (pre ++ log).
Proof.
  revert s log pre. induction recs as [|wTS recs IH]; intros s log pre H K;
    simpl in H.
  - apply ret_inv in H as [-> [= ->]]. by rewrite app_nil_r.
  - apply bind_inv in H as [(e & _ & ?) | ([b s1] & l1 & l2 & Hb & H & ->)];
      [done|].
    apply train_recording_keeps_last with (pre := pre) in Hb. simpl in *.
    destruct b.
    + apply ret_inv in H as [-> [= ->]]. by rewrite app_nil_r.
    + rewrite app_assoc. by eapply IH.
Qed.

Lemma train_epochs_keep_last self a mask mask_e l s log s' pre :
  for_each (train_epoch F0 Fgtb torch self a mask mask_e) l s = (log, Ok s') →
  keeps_last self s pre → keeps_last self s' (pre ++ log).
Proof.
  revert s log pre. induction l as [|i l IH]; intros s log pre H K; simpl in H.
  - apply ret_inv in H as [-> [= ->]]. by rewrite app_nil_r.
  - apply bind_inv in H as [(e & _ & ?) | (s1 & l1 & l2 & Hb & H & ->)]; [done|].
    unfold train_epoch in Hb.
    apply bind_inv in Hb as [(e & _ & ?) | ([] & k1 & k2 & Hb1 & Hb2 & ->)];
      [done|].
    apply emit_inv in Hb1 as [-> _].
    rewrite app_assoc. eapply IH; [exact H|].
    rewrite app_assoc. eapply train_recordings_keep_last; [exact Hb2|].
    by apply keeps_last_quiet.
Qed.

Lemma make_lastRec_unbound (m : @Model F Params) lr :
  make_lastRec m None = Ok lr → names m = [].
Proof.
  unfold make_lastRec. by destruct (names m).
Qed.

(** X6: after a run of [train] that completes, [lastRec] holds under every
    state and output name the concatenation of what the model returned under
    that name in the last [num_windows] windows processed, that is, in the
    last recording that was finished, with the step size of the model. *)
Theorem train_lastRec_is_last_recording self a log self' :
  train F0 Fgtb torch self a = (log, Ok self') →
  ∃ lr,
    lastRec self' = Some lr
    ∧ ∀ name, name ∈ names (model self) →
        ∃ ws arr,
          Forall2 (fun c w => call_next_window c !! name = Some w)
            (last_windows self log) ws
          ∧ length ws = num_windows self
          ∧ concatenate_axis1 ws = Ok arr
          ∧ lr !! name
            = Some {| rec_data := arr; rec_step_size := step_size (model self) |}.
Proof.
  intros H. apply train_run in H as (l0 & r0 & Hi & H).
  apply train_init_run in Hi. destruct r0 as [s0|e]; [|by destruct H].
  destruct Hi as (-> & _ & _ & _ & _ & _ & Hw0 & _).
  destruct H as (body & r1 & Hl & -> & s1 & lastRec_ & -> & Hlr & ->).
  exists lastRec_. split; [done|]. intros name Hname.
  unfold train_loops in Hl.
  apply train_epochs_keep_last with (pre := [EvCreateIC 0; EvCreateDelayIC 0])
    in Hl; [|by intros d; rewrite Hw0].
  destruct (windListDict s1) as [d|] eqn:Hd.
  - destruct (Hl d Hd) as (Hrec & Hlen & _).
    destruct (Hrec _ Hname) as (ws & arr & Hws & Harr & Hdn).
    destruct (make_lastRec_spec _ _ _ Hlr _ Hname) as (arr' & Harr' & Hl').
    rewrite (windListDict_array_Array _ _ _ _ Hdn Harr') in Hl'.
    exists ws, arr. repeat split; try done.
    apply Forall2_length in Hws. rewrite <- Hws. unfold last_windows.
    rewrite length_drop. lia.
  - apply make_lastRec_unbound in Hlr. rewrite Hlr in Hname.
    by apply elem_of_nil in Hname.
Qed.

Lemma train_epochs_no_data self a mask mask_e l s log s' :
  trainData self = [] →
  for_each (train_epoch F0 Fgtb torch self a mask mask_e) l s = (log, Ok s') →
  s' = s.
Proof.
  intros Htd. revert s log. induction l as [|i l IH]; intros s log H; simpl in H.
  - by apply ret_inv in H as [_ [= ->]].
  - apply bind_inv in H as [(e & _ & ?) | (s1 & l1 & l2 & Hb & H & ->)]; [done|].
    unfold train_epoch in Hb. rewrite Htd in Hb.
    apply bind_inv in Hb as [(e & _ & ?) | ([] & k1 & k2 & _ & Hb2 & _)]; [done|].
    simpl in Hb2. apply ret_inv in Hb2 as [_ [= ->]]. by eapply IH.
Qed.

(** *** What a run of [train] needs in order to complete *)

Lemma train_completes_only_with_data_aux self a log self' :
  train F0 Fgtb torch self a = (log, Ok self') →
  names (model self) ≠ [] →
  1 ≤ num_windows self ∧ num_windows self ≤ windows_processed log.
Proof.
  intros H Hnames. apply train_run in H as (l0 & r0 & Hi & H).
  apply train_init_run in Hi. destruct r0 as [s0|e]; [|by destruct H].
  destruct Hi as (-> & _ & _ & _ & _ & _ & Hw0 & _).
  destruct H as (body & r1 & Hl & -> & s1 & lastRec_ & -> & Hlr & ->).
  unfold train_loops in Hl.
  destruct (windListDict s1) as [d|] eqn:Hd;
    [|by apply make_lastRec_unbound in Hlr].
  apply train_epochs_keep_last with (pre := [EvCreateIC 0; EvCreateDelayIC 0])
    in Hl; [|by intros d'; rewrite Hw0].
  destruct (Hl d Hd) as (Hrec & Hlen & _).
  split; [|exact Hlen].
  destruct (names (model self)) as [|name ns] eqn:Hn; [done|].
  destruct (Hrec name) as (ws & arr & Hws & Harr & _).
  { rewrite Hn. by left. }
  destruct ws as [|w ws]; [done|].
  apply Forall2_length in Hws. unfold last_windows in Hws.
  rewrite length_drop in Hws. simpl in Hws. lia.
Qed.

(** X10: [train] completes, for a model with a state or output name, only
    with at least one epoch, one recording and one window per recording, an
    output name, and no name listed twice. *)
Theorem train_completes_only_with_data self a log self' :
  train F0 Fgtb torch self a = (log, Ok self') →
  names (model self) ≠ [] →
  1 ≤ num_epoches self ∧ trainData self ≠ [] ∧ 1 ≤ num_windows self
  ∧ output_names (model self) ≠ [] ∧ NoDup (names (model self)).
Proof.
  intros H Hnames.
  destruct (train_completes_only_with_data_aux _ _ _ _ H Hnames) as [HW _].
  apply train_run in H as (l0 & r0 & Hi & H).
  apply train_init_run in Hi. destruct r0 as [s0|e]; [|by destruct H].
  destruct Hi as (-> & _ & _ & _ & _ & _ & Hw0 & _).
  destruct H as (body & r1 & Hl & -> & s1 & lastRec_ & -> & Hlr & ->).
  unfold train_loops in Hl.
  destruct (windListDict s1) as [d|] eqn:Hd;
    [|by apply make_lastRec_unbound in Hlr].
  assert (Hne : s1 ≠ s0) by (intros ->; congruence).
  pose proof Hl as Hk.
  apply train_epochs_keep_last with (pre := [EvCreateIC 0; EvCreateDelayIC 0])
    in Hk; [|by intros d'; rewrite Hw0].
  destruct (Hk d Hd) as (_ & _ & Hnd & Hout).
  split; [|split; [|done]].
  - destruct (num_epoches self); [|lia]. simpl in Hl.
    apply ret_inv in Hl as [_ [= ->]]. done.
  - intros Htd. by apply train_epochs_no_data in Hl.
Qed.

(** X11: with no epoch to run, [train] raises: the constructor of the first
    scheduler refuses zero steps before anything else is called; without
    schedulers the initial state is created, and [windListDict], which only
    the recording loop binds, is unbound when [lastRec] is built. *)
Theorem train_without_epochs_raises self a :
  num_epoches self = 0 →
  (lr_scheduler a = true →
   train F0 Fgtb torch self a = ([], Raise (OneCycleTotalStepsError 0)))
  ∧ (lr_scheduler a = false → names (model self) ≠ [] →
     ∀ h, hist_init (model self) (params self)
            (tril_indices (node_size (model self))) = Ok h →
          train F0 Fgtb torch self a
          = ([EvCreateIC 0; EvCreateDelayIC 0],
             Raise (UnboundLocalError "windListDict"))).
Proof.
  intros HE. split.
  - intros Hlr. unfold train, train_init, optim_init. cbv zeta.
    rewrite Hlr, HE, Nat.mul_0_r. reflexivity.
  - intros Hlr Hnames h Hh.
    unfold train, train_init, train_loops, optim_init. cbv zeta.
    rewrite Hlr, HE, Hh. unfold bind, lift, emit, ret. simpl.
    unfold make_lastRec. destruct (names (model self)); [done|]. reflexivity.
Qed.

(** *** Early stopping and [epoch_min] *)

Lemma train_epochs_indices self a mask mask_e l s log s' :
  for_each (train_epoch F0 Fgtb torch self a mask mask_e) l s = (log, Ok s') →
  Forall (fun p => p.1 ∈ l) (recordings_finished log).
Proof.
  revert s log. induction l as [|i l IH]; intros s log H; simpl in H.
  - apply ret_inv in H as [-> _]. constructor.
  - apply bind_inv in H as [(e & _ & ?) | (s1 & l1 & l2 & Hb & H & ->)]; [done|].
    apply train_epoch_counts with (T := 0) in Hb as [_ Hok].
    destruct (Hok _ eq_refl) as (body & -> & Hi & _).
    rewrite recordings_finished_app. apply Forall_app. split.
    + change (recordings_finished (EvPrintEpoch i :: body))
        with (recordings_finished body).
      eapply Forall_impl; [exact Hi|]. intros p ->. by left.
    + eapply Forall_impl; [by eapply IH|]. intros p Hp. by right.
Qed.

Lemma early_stop_fired_false a log :
  Forall (fun p => (Z.of_nat p.1 ≤ epoch_min a)%Z) (recordings_finished log) →
  early_stop_fired Fgtb a log = false.
Proof.
  unfold early_stop_fired.
  induction 1 as [|[j fc] l Hj _ IH]; simpl; [done|].
  rewrite IH, orb_false_r. unfold early_stop. simpl in Hj.
  rewrite bool_decide_eq_false_2; [done|lia].
Qed.

(** X5: the early stop cannot happen in the epochs 0 to [epoch_min]. A
    run of at most [epoch_min + 1] epochs that completes has therefore
    processed every window of every recording in every epoch. *)
Theorem train_no_early_stop_up_to_epoch_min self a log self' :
  (Z.of_nat (num_epoches self) ≤ epoch_min a + 1)%Z →
  train F0 Fgtb torch self a = (log, Ok self') →
  early_stop_fired Fgtb a log = false
  ∧ windows_processed log
    = num_epoches self * (length (trainData self) * num_windows self).
Proof.
  intros HE H. apply train_run in H as (l0 & r0 & Hi & H).
  apply train_init_run in Hi. destruct r0 as [s0|e]; [|by destruct H].
  destruct Hi as (-> & _).
  destruct H as (body & r1 & Hl & -> & s1 & lastRec_ & -> & _).
  unfold train_loops in Hl.
  pose proof Hl as Hidx. apply train_epochs_indices in Hidx.
  assert (Hno : early_stop_fired Fgtb a body = false).
  { apply early_stop_fired_false. eapply Forall_impl; [exact Hidx|].
    intros p Hp. apply elem_of_seq in Hp. lia. }
  apply train_epochs_counts with (T := 0) in Hl as [_ Hok].
  destruct (Hok _ eq_refl) as [_ Hcount].
  specialize (Hcount Hno). rewrite length_seq in Hcount.
  split; [exact Hno | exact Hcount].
Qed.

(** *** The schedulers *)

(** X14: with the schedulers enabled, a run that completes has stepped the
    scheduler once per window, and has processed no more than the
    [num_windows * num_epoches] windows the schedulers were built for. *)
Theorem train_scheduler_steps_bounded self a log self' :
  lr_scheduler a = true →
  train F0 Fgtb torch self a = (log, Ok self') →
  scheduler_steps hyperparameter log = windows_processed log
  ∧ windows_processed log ≤ num_windows self * num_epoches self.
Proof.
  intros Hlr H. apply train_run in H as (l0 & r0 & Hi & H).
  apply train_init_run in Hi. destruct r0 as [s0|e]; [|by destruct H].
  destruct Hi as (-> & _ & _ & Ho & _).
  destruct H as (body & r1 & Hl & -> & s1 & lastRec_ & -> & _).
  unfold train_loops in Hl.
  apply train_epochs_counts with (T := num_windows self * num_epoches self)
    in Hl as [(_ & _ & C3 & C4) _].
  apply optim_init_sched in Ho. specialize (C4 _ Ho).
  destruct (C4 Hlr) as (hs & ms & _ & _ & _ & _ & _ & Hle).
  change (scheduler_steps hyperparameter ([EvCreateIC 0; EvCreateDelayIC 0] ++ body))
    with (scheduler_steps hyperparameter body).
  change (windows_processed ([EvCreateIC 0; EvCreateDelayIC 0] ++ body))
    with (windows_processed body).
  split; [by apply C3 | lia].
Qed.

(** *** The histories that [train] stores *)

Lemma train_windows_hist_inv (P : @History F → Prop) self a mask wTS :
  (∀ k ext s log ext1 s1,
      train_window torch self a mask wTS k (ext, s) = (log, Ok (ext1, s1)) →
      P (hist s) → P (hist s1)) →
  ∀ l ext s log es1,
    for_each (train_window torch self a mask wTS) l (ext, s) = (log, Ok es1) →
    P (hist s) → P (hist es1.2).
Proof.
  intros Hstep. induction l as [|k l IH]; intros ext s log es1 H HP; simpl in H.
  - by apply ret_inv in H as [_ [= ->]].
  - apply bind_inv in H as [(e & _ & ?) | ([ext1 s1] & l1 & l2 & Hb & H & ->)];
      [done|].
    eapply IH; [exact H|]. by eapply Hstep.
Qed.

Lemma train_loops_hist_inv (P : @History F → Prop) self a :
  (∀ mask wTS k ext s log ext1 s1,
      train_window torch self a mask wTS k (ext, s) = (log, Ok (ext1, s1)) →
      P (hist s) → P (hist s1)) →
  ∀ s log s',
    train_loops F0 Fgtb torch self a s = (log, Ok s') →
    P (hist s) → P (hist s').
Proof.
  intros Hstep.
  assert (Hrec : ∀ mask mask_e i wTS s log bs,
             train_recording F0 Fgtb torch self a mask mask_e i wTS s
             = (log, Ok bs) → P (hist s) → P (hist bs.2)).
  { intros mask mask_e i wTS s log bs H HP.
    apply train_recording_run in H as (wlog & wr & tail & Hw & _ & _ & _ & _ &
                                       _ & _ & _ & Hr).
    destruct Hr as (es1 & loss & fc & ts_emp & ts_sim & d & d' & name0 & -> & _ &
                    Hh & _).
    rewrite Hh. eapply train_windows_hist_inv; [apply Hstep | exact Hw | exact HP]. }
  assert (Hrecs : ∀ mask mask_e i recs s log s',
             for_each_break (train_recording F0 Fgtb torch self a mask mask_e i)
               recs s = (log, Ok s') → P (hist s) → P (hist s')).
  { intros mask mask_e i. induction recs as [|wTS recs IH]; intros s log s' H HP;
      simpl in H.
    - by apply ret_inv in H as [_ [= ->]].
    - apply bind_inv in H as [(e & _ & ?) | ([b s1] & l1 & l2 & Hb & H & ->)];
        [done|].
      apply Hrec in Hb; [|done]. simpl in *. destruct b.
      + by apply ret_inv in H as [_ [= ->]].
      + by eapply IH. }
  unfold train_loops. intros s log s'.
  generalize (seq 0 (num_epoches self)). intros l. revert s log.
  induction l as [|i l IH]; intros s log H HP; simpl in H.
  - by apply ret_inv in H as [_ [= ->]].
  - apply bind_inv in H as [(e & _ & ?) | (s1 & l1 & l2 & Hb & H & ->)]; [done|].
    eapply IH; [exact H|]. unfold train_epoch in Hb.
    apply bind_inv in Hb as [(e & _ & ?) | ([] & k1 & k2 & _ & Hb2 & _)]; [done|].
    by eapply Hrecs.
Qed.





Lemma foldlR_same_keys {B V} (f : gmap string V → B → result (gmap string V)) :
  (∀ fp b fp', f fp b = Ok fp' → ∀ k, is_Some (fp' !! k) ↔ is_Some (fp !! k)) →
  ∀ bs fp fp', foldlR f fp bs = Ok fp' →
    ∀ k, is_Some (fp' !! k) ↔ is_Some (fp !! k).
Proof.
  intros Hstep. induction bs as [|b bs IH]; intros fp fp' H k; simpl in H.
  - by injection H as ->.
  - destruct (f fp b) as [fp1|] eqn:Hb; [|done]. simpl in H.
    rewrite (IH _ _ H k). by eapply Hstep.
Qed.

Lemma insert_same_keys {V} (fp : gmap string V) k0 v0 v1 k :
  fp !! k0 = Some v0 → is_Some (<[k0 := v1]> fp !! k) ↔ is_Some (fp !! k).
Proof.
  intros H0. destruct (decide (k = k0)) as [->|Hne].
  - rewrite lookup_insert_eq, H0. split; eauto.
  - by rewrite lookup_insert_ne.
Qed.

Lemma fit_param_append_keys (m : @Model F Params) p fp fp' :
  fit_param_append m p fp = Ok fp' →
  ∀ k, is_Some (fp' !! k) ↔ is_Some (fp !! k).
Proof.
  unfold fit_param_append. case_bool_decide as Htp.
  - apply foldlR_same_keys. intros fp0 name fp1 H k.
    destruct (param_value m p name) as [v|]; [|done]. simpl in H.
    destruct (fp0 !! name) as [l|] eqn:Hl; [|done]. simpl in H.
    injection H as <-. by eapply insert_same_keys.
  - apply foldlR_same_keys. intros fp0 kv fp1 H k.
    case_bool_decide as Hex; [by injection H as ->|].
    destruct (fp0 !! kv.1) as [l|] eqn:Hl; [|done]. simpl in H.
    injection H as <-. by eapply insert_same_keys.
Qed.

(** X9: the parameter histories that a completed run stores are those of
    the tracked names: the names in [track_params], or, when that list is
    empty, the keys of [state_dict()] other than [gains_con] (when the gains
    are fitted) and [lm] (when the lead field is fitted). What the statistics
    held under other names stays. *)
Theorem train_stores_histories_of_tracked_names self a log self' k :
  train F0 Fgtb torch self a = (log, Ok self') →
  is_Some (stats_attrs (trainingStats self') !! k)
  ↔ k ∈ tracked_names (model self)
    ∨ is_Some (stats_attrs (trainingStats self) !! k).
Proof.
  intros H. apply train_run in H as (l0 & r0 & Hi & H).
  apply train_init_run in Hi. destruct r0 as [s0|e]; [|by destruct H].
  destruct Hi as (-> & _ & _ & _ & Hh & _).
  destruct H as (body & r1 & Hl & -> & s1 & lastRec_ & -> & _ & ->).
  assert (HP : ∀ k, k ∈ tracked_names (model self)
                    ↔ is_Some (fit_param (hist s1) !! k)).
  { eapply (train_loops_hist_inv
              (fun h => ∀ k, k ∈ tracked_names (model self)
                             ↔ is_Some (fit_param h !! k))); [|exact Hl|].
    - intros mask wTS j ext s log ext1 s2 Hw HP k'.
      apply train_window_ok in Hw as (_ & _ & (loss & _ & _ & Happ) & _).
      apply hist_append_loss_his in Happ as [_ Happ]. simpl in Happ.
      by rewrite (fit_param_append_keys _ _ _ _ Happ k').
    - intros k'. unfold hist_init in Hh.
      destruct (if use_fit_gains (model self) then _ else _) as [sc0|];
        [|done]. simpl in Hh.
      destruct (fit_param_init (model self) (params self)) as [fp|] eqn:Hfp;
        [|done]. simpl in Hh. injection Hh as <-. simpl.
      by apply fit_param_init_spec with (k := k') in Hfp as [? _]. }
  simpl. rewrite lookup_union_is_Some, <- HP. done.
Qed.


(** *** Recordings of different lengths *)

Lemma train_window_index self a mask wTS k ext s log es1 :
  train_window torch self a mask wTS k (ext, s) = (log, Ok es1) →
  is_Some (wTS !! k).
Proof.
  unfold train_window. cbv zeta. intros H.
  apply bind_inv in H as [(e & _ & ?) | ([] & l1 & l2 & _ & H & _)]; [done|].
  apply bind_inv in H as [(e & _ & ?) | (w & l3 & l4 & Hw & _ & _)]; [done|].
  apply lift_inv in Hw as [_ Hw]. by destruct (wTS !! k).
Qed.

Lemma train_windows_index self a mask wTS l ext s log es1 :
  for_each (train_window torch self a mask wTS) l (ext, s) = (log, Ok es1) →
  Forall (fun k => is_Some (wTS !! k)) l.
Proof.
  revert ext s log. induction l as [|k l IH]; intros ext s log H; simpl in H.
  - constructor.
  - apply bind_inv in H as [(e & _ & ?) | ([ext1 s1] & l1 & l2 & Hb & H & ->)];
      [done|].
    constructor; [by eapply train_window_index | by eapply IH].
Qed.

Lemma train_recording_length self a mask mask_e i wTS s log bs :
  train_recording F0 Fgtb torch self a mask mask_e i wTS s = (log, Ok bs) →
  num_windows self ≤ length wTS.
Proof.
  intros H.
  apply train_recording_run in H as (wlog & wr & tail & Hw & _ & _ & _ & _ &
                                     _ & _ & _ & Hr).
  destruct Hr as (es1 & _ & _ & _ & _ & _ & _ & _ & -> & _).
  apply train_windows_index in Hw. rewrite Forall_forall in Hw.
  destruct (num_windows self) as [|n] eqn:HW; [lia|].
  destruct (Hw n) as [w Hn]. { apply elem_of_seq. lia. }
  apply lookup_lt_Some in Hn. lia.
Qed.

Lemma train_recordings_lengths self a mask mask_e i recs s log s' :
  (Z.of_nat i ≤ epoch_min a)%Z →
  for_each_break (train_recording F0 Fgtb torch self a mask mask_e i) recs s
  = (log, Ok s') →
  Forall (fun wTS => num_windows self ≤ length wTS) recs.
Proof.
  intros Hi. revert s log. induction recs as [|wTS recs IH]; intros s log H;
    simpl in H.
  - constructor.
  - apply bind_inv in H as [(e & _ & ?) | ([b s1] & l1 & l2 & Hb & H & ->)];
      [done|].
    pose proof Hb as Hlen. apply train_recording_length in Hlen.
    apply train_recording_counts with (T := 0) in Hb as [_ Hok].
    destruct (Hok _ eq_refl) as (_ & (fc & _ & Hbreak) & _). simpl in *.
    assert (b = false) as ->.
    { rewrite Hbreak. unfold early_stop.
      rewrite bool_decide_eq_false_2; [done|lia]. }
    constructor; [done | by eapply IH].
Qed.

Lemma train_first_epoch_lengths self a log self' :
  (0 ≤ epoch_min a)%Z →
  1 ≤ num_epoches self →
  train F0 Fgtb torch self a = (log, Ok self') →
  Forall (fun wTS => num_windows self ≤ length wTS) (trainData self).
Proof.
  intros Hmin HE H. apply train_run in H as (l0 & r0 & Hi & H).
  apply train_init_run in Hi. destruct r0 as [s0|e]; [|by destruct H].
  destruct H as (body & r1 & Hl & _ & s1 & lastRec_ & -> & _).
  unfold train_loops in Hl.
  destruct (num_epoches self) as [|n]; [lia|]. simpl in Hl.
  apply bind_inv in Hl as [(e & _ & ?) | (s2 & l1 & l2 & Hb & _ & _)]; [done|].
  unfold train_epoch in Hb.
  apply bind_inv in Hb as [(e & _ & ?) | ([] & k1 & k2 & _ & Hb2 & _)]; [done|].
  eapply train_recordings_lengths; [|exact Hb2]. simpl. lia.
Qed.

(** X12: [num_windows] windows are read from every recording. With at
    least one epoch and [epoch_min] not negative, so that the first epoch
    runs through every recording, a run completes only if no recording has
    fewer windows than [num_windows]. *)
Theorem train_reads_num_windows_of_every_recording self a log self' :
  (0 ≤ epoch_min a)%Z →
  1 ≤ num_epoches self →
  train F0 Fgtb torch self a = (log, Ok self') →
  Forall (fun wTS => num_windows self ≤ length wTS) (trainData self).
Proof. apply train_first_epoch_lengths. Qed.

(** X13: [__init__] takes [num_windows] from the first recording. A run of
    [train] on the object it built, with at least one epoch and [epoch_min]
    not negative, completes only if no recording has fewer windows than the
    first one. *)
Theorem train_after_init_needs_recordings_as_long_as_first
    (model_ : @Model F Params) params_ ts E (cost_ : @Cost F Params Loss)
    self a log self' :
  Model_fitting_init model_ params_ ts E cost_ = Ok self →
  (0 ≤ epoch_min a)%Z →
  1 ≤ E →
  train F0 Fgtb torch self a = (log, Ok self') →
  ∃ ts0 rest,
    ts = ts0 :: rest ∧ num_windows self = length ts0
    ∧ Forall (fun wTS => length ts0 ≤ length wTS) rest.
Proof.
  intros Hinit Hmin HE H.
  apply Model_fitting_init_ok in Hinit
    as (Htd & HE' & _ & _ & ts0 & rest & -> & HW).
  exists ts0, rest. split; [done|]. split; [done|].
  apply train_first_epoch_lengths in H; [|done|lia].
  rewrite Htd, HW in H. by apply Forall_cons in H as [_ ?].
Qed.

(** *** What the [break] of line 233 ends *)

Lemma stop_ends_epoch_app a (l1 l2 : list (nat * F)) :
  stop_ends_epoch Fgtb a l1 → stop_ends_epoch Fgtb a l2 →
  (∀ p q, last l1 = Some p → head l2 = Some q →
          p.1 ≤ q.1 ∧ (early_stop Fgtb a p.1 p.2 = true → p.1 < q.1)) →
  stop_ends_epoch Fgtb a (l1 ++ l2).
Proof.
  induction l1 as [|p [|p' l1] IH]; intros H1 H2 Hmid.
  - done.
  - simpl. split; [|done]. destruct l2 as [|q l2]; [done|].
    by apply Hmid.
  - destruct H1 as [Hp H1]. split; [exact Hp|].
    apply IH; [done..|]. intros p0 q Hl Hh. by apply Hmid.
Qed.

Lemma stop_ends_epoch_adjacent a (rf pre post : list (nat * F)) p q :
  stop_ends_epoch Fgtb a rf → rf = (pre ++ p :: q :: post)%list →
  p.1 ≤ q.1 ∧ (early_stop Fgtb a p.1 p.2 = true → p.1 < q.1).
Proof.
  revert rf. induction pre as [|x pre IH]; intros rf H ->.
  - by destruct H as [H _].
  - destruct H as [_ H]. by eapply IH.
Qed.

Lemma train_recordings_stop self a mask mask_e i recs s log s' :
  for_each_break (train_recording F0 Fgtb torch self a mask mask_e i) recs s
  = (log, Ok s') →
  stop_ends_epoch Fgtb a (recordings_finished log)
  ∧ Forall (fun p => p.1 = i) (recordings_finished log).
Proof.
  revert s log. induction recs as [|wTS recs IH]; intros s log H; simpl in H.
  - apply ret_inv in H as [-> _]. split; [done | constructor].
  - apply bind_inv in H as [(e & _ & ?) | ([b s1] & l1 & l2 & Hb & H & ->)];
      [done|].
    apply train_recording_counts with (T := 0) in Hb as [_ Hok].
    destruct (Hok _ eq_refl) as (_ & (fc & K & Hbreak) & _). simpl in *.
    rewrite recordings_finished_app, K. destruct b.
    + apply ret_inv in H as [-> _]. split; [done | by repeat constructor].
    + destruct (IH _ _ H) as [I1 I2]. split; [|by constructor].
      apply (stop_ends_epoch_app a [(i, fc)]); [done..|].
      intros p q [= <-] Hq. simpl. rewrite <- Hbreak.
      destruct (recordings_finished l2) as [|q' rf]; [done|].
      simpl in Hq. injection Hq as ->.
      apply Forall_cons in I2 as [-> _]. split; [lia | done].
Qed.

Lemma train_epochs_stop self a mask mask_e k n s log s' :
  for_each (train_epoch F0 Fgtb torch self a mask mask_e) (seq k n) s
  = (log, Ok s') →
  stop_ends_epoch Fgtb a (recordings_finished log)
  ∧ Forall (fun p => k ≤ p.1) (recordings_finished log).
Proof.
  revert k s log. induction n as [|n IH]; intros k s log H; simpl in H.
  - apply ret_inv in H as [-> _]. split; [done | constructor].
  - apply bind_inv in H as [(e & _ & ?) | (s1 & l1 & l2 & Hb & H & ->)]; [done|].
    unfold train_epoch in Hb.
    apply bind_inv in Hb as [(e & _ & ?) | ([] & k1 & k2 & Hb1 & Hb2 & ->)];
      [done|].
    apply emit_inv in Hb1 as [-> _].
    apply train_recordings_stop in Hb2 as [J1 J2].
    destruct (IH _ _ _ H) as [I1 I2].
    rewrite !recordings_finished_app.
    change (recordings_finished [EvPrintEpoch k]) with (@nil (nat * F)).
    simpl. split.
    + apply stop_ends_epoch_app; [done..|]. intros p q Hp Hq.
      assert (p.1 = k) as ->.
      { apply last_Some in Hp as [l' Hp]. rewrite Hp in J2.
        apply Forall_app in J2 as [_ J2]. by apply Forall_cons in J2 as [? _]. }
      assert (S k ≤ q.1).
      { destruct (recordings_finished l2) as [|q' rf]; [done|].
        simpl in Hq. injection Hq as ->. by apply Forall_cons in I2 as [? _]. }
      split; [lia|]. intros _. lia.
    + apply Forall_app. split.
      * eapply Forall_impl; [exact J2|]. intros p ->. done.
      * eapply Forall_impl; [exact I2|]. intros p Hp. simpl in Hp. lia.
Qed.

(** X4: a recording whose early-stop test succeeded is the last one of its
    epoch: the recording finished next, if there is one, belongs to a later
    epoch. Recordings are finished in the order of the epochs. *)
Theorem train_early_stop_ends_the_epoch self a log self' pre p q post :
  train F0 Fgtb torch self a = (log, Ok self') →
  recordings_finished log = (pre ++ p :: q :: post)%list →
  p.1 ≤ q.1 ∧ (early_stop Fgtb a p.1 p.2 = true → p.1 < q.1).
Proof.
  intros H Hrf. apply train_run in H as (l0 & r0 & Hi & H).
  apply train_init_run in Hi. destruct r0 as [s0|e]; [|by destruct H].
  destruct Hi as (-> & _).
  destruct H as (body & r1 & Hl & -> & s1 & lastRec_ & -> & _).
  unfold train_loops in Hl. apply train_epochs_stop in Hl as [Hstop _].
  eapply stop_ends_epoch_adjacent; [exact Hstop | exact Hrf].
Qed.

(** *** evaluate *)

Lemma evaluate_windows_chained self N u_hat l (s : @EvalState F) log r :
  for_each (evaluate_window self N u_hat) l s = (log, r) →
  createIC_calls log = [] ∧ createDelayIC_calls log = []
  ∧ chained (Some (ev_sim s)) (forward_calls log)
  ∧ ∀ s' : @EvalState F, r = Ok s' →
      end_state (Some (ev_sim s)) (forward_calls log) = Some (ev_sim s').
Proof.
  revert s log r. induction l as [|k l IH]; intros s log r H; simpl in H.
  - apply ret_inv in H as [-> ->]. repeat split; try done.
    by intros s' [= ->].
  - assert (Hone : ∀ l1 r1, evaluate_window self N u_hat k s = (l1, r1) →
               createIC_calls l1 = [] ∧ createDelayIC_calls l1 = []
               ∧ forward_calls l1 = [eval_call self u_hat k s]
               ∧ chained (Some (ev_sim s)) [eval_call self u_hat k s]).
    { intros l1 r1 Hb. apply evaluate_window_run in Hb as [-> _].
      repeat split; try done. simpl. by destruct s as [[] ?]. }
    apply bind_inv in H as [(e & Hb & ->) | (s1 & l1 & l2 & Hb & H & ->)].
    + destruct (Hone _ _ Hb) as (H1 & H2 & H3 & H4). rewrite H3.
      repeat split; try done. apply H4.
    + destruct (Hone _ _ Hb) as (H1 & H2 & H3 & H4).
      apply evaluate_window_run in Hb as [_ Hb].
      destruct (Hb _ eq_refl) as [Hnext _].
      destruct (IH _ _ _ H) as (I1 & I2 & I3 & I4).
      rewrite createIC_calls_app, createDelayIC_calls_app, forward_calls_app,
        I1, I2, H1, H2, H3.
      split; [done|]. split; [done|]. split.
      * apply (proj2 (chained_app F0 Fgtb _ [eval_call self u_hat k s]
                        (forward_calls l2))).
        split; [exact H4|].
        change (end_state (Some (ev_sim s)) [eval_call self u_hat k s])
          with (next_state (eval_call self u_hat k s)).
        by rewrite Hnext.
      * intros s' ->. rewrite end_state_app.
        change (end_state (Some (ev_sim s)) [eval_call self u_hat k s])
          with (next_state (eval_call self u_hat k s)).
        rewrite Hnext. by apply I4.
Qed.

(** X15: [evaluate] creates the state once, with [ver = 1], and every
    window, the first one after the burn-in included, starts from the state
    that the window before it left. *)
Theorem evaluate_state_created_once_and_carried self N u_ :
  let log := (evaluate F0 F_of_Z torch self N u_).1 in
  createIC_calls log = [1] ∧ createDelayIC_calls log = [1]
  ∧ chained (Some {| X := createIC (model self) 1;
                     hE := createDelayIC (model self) 1 |})
      (forward_calls log).
Proof.
  destruct (evaluate F0 F_of_Z torch self N u_) as [log r] eqn:H. simpl.
  unfold evaluate in H. cbv zeta in H.
  apply bind_inv in H as [(e & Hb & _) | ([] & l1 & l2 & Hb & H & ->)];
    [by apply emit_inv in Hb as [_ ?]|].
  apply emit_inv in Hb as [-> _].
  apply bind_inv in H as [(e & Hb & _) | ([] & l3 & l4 & Hb & H & ->)];
    [by apply emit_inv in Hb as [_ ?]|].
  apply emit_inv in Hb as [-> _].
  apply bind_inv in H as [(e & Hb & _) | (u_hat & l5 & l6 & Hb & H & ->)].
  { apply lift_inv in Hb as [-> _]. done. }
  apply lift_inv in Hb as [-> _].
  apply bind_inv in H as [(e & Hb & _) | (s1 & l7 & l8 & Hb & H & ->)].
  - apply evaluate_windows_chained in Hb as (I1 & I2 & I3 & _).
    rewrite !createIC_calls_app, !createDelayIC_calls_app, !forward_calls_app,
      I1, I2. done.
  - apply evaluate_windows_chained in Hb as (I1 & I2 & I3 & _).
    assert (Hq : forward_calls l8 = [] ∧ createIC_calls l8 = []
                 ∧ createDelayIC_calls l8 = []).
    { clear -H. inv_M; simplify_eq; done. }
    destruct Hq as (Q1 & Q2 & Q3).
    rewrite !createIC_calls_app, !createDelayIC_calls_app, !forward_calls_app,
      I1, I2, Q1, Q2, Q3, !app_nil_r. done.
Qed.

(** X16: [evaluate] completes only with at least one window to keep, a
    first recording that is not empty, an output name, and no name listed
    twice. *)
Theorem evaluate_completes_only_with_data self N u_ log self' :
  evaluate F0 F_of_Z torch self N u_ = (log, Ok self') →
  1 ≤ num_windows self
  ∧ (∃ windowedTS, trainData self !! 0 = Some windowedTS ∧ windowedTS ≠ [])
  ∧ output_names (model self) ≠ []
  ∧ NoDup (names (model self)).
Proof.
  intros H.
  apply evaluate_run in H
    as (u_hat & wlog & s1 & windowedTS & ts_emp & d & name0 & ts_sim & fc & lr &
        _ & Hw & _ & Htd & Hemp & Hcat & Hn0 & _).
  apply windListDict_concatenate_spec in Hcat as [Hnd Hcat].
  apply evaluate_windows_run in Hw as (Hlen & _ & Hkeep); [|done].
  assert (Hname : name0 ∈ names (model self)).
  { unfold names. apply elem_of_app. right. by eapply list_elem_of_lookup_2. }
  split; [|split; [|split; [|done]]].
  - destruct (Hcat _ Hname) as (ws & arr & Hws & Harr & _).
    destruct (Hkeep _ [] Hname (windListDict_init_spec _ _ Hname))
      as (ws' & Hws' & Hall).
    simpl in Hws'. rewrite Hws in Hws'. simplify_eq.
    destruct ws' as [|w ws']; [done|].
    apply Forall2_length in Hall. rewrite length_drop in Hall. simpl in Hall.
    lia.
  - exists windowedTS. split; [done|]. by destruct windowedTS.
  - intros Hnil. by rewrite Hnil in Hn0.
Qed.

Lemma slice_last_full3 n0 n1 n j T (x : F) :
  (j + 1) * T ≤ n →
  slice_last (j * T) ((j + 1) * T) (full3 n0 n1 n x) = full3 n0 n1 T x.
Proof.
  intros Hle. unfold slice_last, full3, slice.
  rewrite !fmap_replicate, drop_replicate, take_replicate.
  do 3 f_equal. lia.
Qed.

(** X17: for an int [u], whatever its value, the external input of every
    window of [evaluate] after the burn-in is the tensor filled with that
    value (where [train] feeds zeros). *)
Theorem evaluate_int_stimulus_is_constant_input self N z log self' :
  evaluate F0 F_of_Z torch self N (UInt z) = (log, Ok self') →
  let m := model self in
  length (drop N (forward_calls log)) = num_windows self
  ∧ Forall (fun c => call_external c
                     = full3 (node_size m) (steps_per_TR m) (TRs_per_window m)
                         (F_of_Z z))
      (drop N (forward_calls log)).
Proof.
  intros H m.
  apply evaluate_run in H
    as (u_hat & wlog & s1 & windowedTS & ts_emp & d & name0 & ts_sim & fc & lr &
        Hu & Hw & -> & _ & _ & Hcat & _).
  fold m in Hu, Hw, Hcat.
  apply make_u_hat_spec in Hu as (src & Hsrc & Hshape & ->).
  simpl in Hsrc. injection Hsrc as <-.
  apply windListDict_concatenate_spec in Hcat as [Hnd _].
  apply evaluate_windows_run in Hw as (Hlen & Hext & _); [|done].
  assert (Hcalls : forward_calls
            ([EvCreateIC 1; EvCreateDelayIC 1] ++ wlog
             ++ [EvPrintEvaluate fc (cos_sim_mean torch ts_sim ts_emp)])
          = forward_calls wlog).
  { rewrite !forward_calls_app. simpl. by rewrite app_nil_r. }
  rewrite Hcalls. split; [rewrite length_drop; lia|].
  apply Forall_forall. intros c Hc.
  apply list_elem_of_lookup in Hc as [j Hj].
  assert (Hjn : j < num_windows self).
  { apply lookup_lt_Some in Hj. rewrite length_drop in Hj. lia. }
  rewrite lookup_drop in Hj. rewrite (Hext _ _ Hj). simpl. unfold eval_external.
  fold m. erewrite slice_last_after_burn_in; [|lia|exact Hshape].
  apply slice_last_full3. nia.
Qed.

Lemma broadcast_axis_inv {B} n (l l' : list B) :
  broadcast_axis n l = Ok l' → length l = n ∨ length l = 1.
Proof.
  unfold broadcast_axis. case_bool_decide; [by left|].
  destruct l as [|x [|y l]]; [done| |done]. by right.
Qed.

(** X18: an array [u] is written to the part of [u_hat] after the burn-in, so
    [evaluate] completes only if every axis of [u] has the length of that
    part, (node_size, steps_per_TR, num_windows * TRs_per_window), or
    length one. *)
Theorem evaluate_stimulus_shape self N t log self' :
  evaluate F0 F_of_Z torch self N (UArray t) = (log, Ok self') →
  let m := model self in
  (length t = node_size m ∨ length t = 1)
  ∧ Forall (fun mat =>
              (length mat = steps_per_TR m ∨ length mat = 1)
              ∧ Forall (fun row =>
                          length row = num_windows self * TRs_per_window m
                          ∨ length row = 1) mat) t.
Proof.
  intros H m.
  apply evaluate_run in H
    as (u_hat & wlog & s1 & windowedTS & ts_emp & d & name0 & ts_sim & fc & lr &
        Hu & _).
  fold m in Hu.
  apply make_u_hat_spec in Hu as (src & Hsrc & _ & _).
  simpl in Hsrc. unfold broadcast3 in Hsrc.
  destruct (mapR _ t) as [t'|] eqn:Ht; [|done]. simpl in Hsrc.
  apply mapR_ok_inv in Ht. split.
  - apply broadcast_axis_inv in Hsrc. by rewrite (Forall2_length _ _ _ Ht).
  - apply Forall_forall. intros mat Hmat.
    apply list_elem_of_lookup in Hmat as [i Hi].
    destruct (Forall2_lookup_l _ _ _ _ _ Ht Hi) as (mat' & _ & Hm).
    destruct (mapR _ mat) as [mat1|] eqn:Hm1; [|done]. simpl in Hm.
    apply mapR_ok_inv in Hm1. split.
    + apply broadcast_axis_inv in Hm. by rewrite (Forall2_length _ _ _ Hm1).
    + apply Forall_forall. intros row Hrow.
      apply list_elem_of_lookup in Hrow as [j Hj].
      destruct (Forall2_lookup_l _ _ _ _ _ Hm1 Hj) as (row' & _ & Hr).
      by apply broadcast_axis_inv in Hr.
Qed.

End FittingMore.

(** ** The further properties on the small instance *)

Section MoreInstances.
Import ArgTypeCheck.
Local Open Scope string_scope.
Local Open Scope Z_scope.

(** X1, on the small instance. *)
Lemma method_arg_type_check_passes_iff_witness :
  let sig := [("x", AClass TInt); ("arg_name", AClass TStr)] in
  NoDup sig.*1
  ∧ Forall (fun p => ∃ t, p.2 = AClass t) sig
  ∧ (method_arg_type_check (VFunction sig) = Ok tt
     ↔ ∀ name t lt, (name, AClass t) ∈ sig → own_local_type name = Some lt →
                    issubclass lt t = true).
Proof.
  intros sig.
  assert (H1 : NoDup sig.*1) by (apply (bool_decide_unpack _); by vm_compute).
  assert (H2 : Forall (fun p => ∃ t, p.2 = AClass t) sig)
    by (repeat constructor; simpl; eauto).
  split; [exact H1|]. split; [exact H2|].
  exact (method_arg_type_check_passes_iff sig H1 H2).
Defined.


(** X3, on the small instance. *)
Lemma train_starts_every_epoch_witness :
  let self := Toy.fitting ["a"] 12 2 1 3 in
  let a := Toy.args (UInt 0) 0 (-1) false in
  let r := train 0 Z.gtb Toy.toy_torch self a in
  r = (r.1, Ok (Toy.outcome self r))
  ∧ epochs_started r.1 = seq 0 (num_epoches self)
  ∧ (trainData self ≠ [] →
     ∀ i, (i < num_epoches self)%nat → ∃ fc, (i, fc) ∈ recordings_finished r.1).
Proof.
  intros self a r.
  assert (H1 : r = (r.1, Ok (Toy.outcome self r))) by (vm_compute; reflexivity).
  split; [exact H1|].
  exact (train_starts_every_epoch 0 Z.gtb Toy.toy_torch self a r.1
           (Toy.outcome self r) H1).
Defined.

(** X6, on the small instance. *)
Lemma train_lastRec_is_last_recording_witness :
  let self := Toy.fitting ["a"] 12 2 2 1 in
  let a := Toy.args (UInt 0) 0 (-1) false in
  let r := train 0 Z.gtb Toy.toy_torch self a in
  r = (r.1, Ok (Toy.outcome self r))
  ∧ ∃ lr,
      lastRec (Toy.outcome self r) = Some lr
      ∧ ∀ name, name ∈ names (model self) →
          ∃ ws arr,
            Forall2 (fun c w => call_next_window c !! name = Some w)
              (last_windows self r.1) ws
            ∧ length ws = num_windows self
            ∧ concatenate_axis1 ws = Ok arr
            ∧ lr !! name
              = Some {| rec_data := arr;
                        rec_step_size := step_size (model self) |}.
Proof.
  intros self a r.
  assert (H1 : r = (r.1, Ok (Toy.outcome self r))) by (vm_compute; reflexivity).
  split; [exact H1|].
  exact (train_lastRec_is_last_recording 0 Z.gtb Toy.toy_torch self a r.1
           (Toy.outcome self r) H1).
Defined.

(** X10, on the small instance. *)
Lemma train_completes_only_with_data_witness :
  let self := Toy.fitting ["a"] 12 1 1 1 in
  let a := Toy.args (UInt 0) 0 (-1) false in
  let r := train 0 Z.gtb Toy.toy_torch self a in
  r = (r.1, Ok (Toy.outcome self r))
  ∧ names (model self) ≠ []
  ∧ (1 ≤ num_epoches self)%nat ∧ trainData self ≠ []
  ∧ (1 ≤ num_windows self)%nat
  ∧ output_names (model self) ≠ [] ∧ NoDup (names (model self)).
Proof.
  intros self a r.
  assert (H1 : r = (r.1, Ok (Toy.outcome self r))) by (vm_compute; reflexivity).
  assert (H2 : names (model self) ≠ []) by (vm_compute; discriminate).
  split; [exact H1|]. split; [exact H2|].
  exact (train_completes_only_with_data 0 Z.gtb Toy.toy_torch self a r.1
           (Toy.outcome self r) H1 H2).
Defined.

(** X11, on the small instance. *)
Lemma train_without_epochs_raises_witness :
  let self := Toy.fitting ["a"] 12 2 1 0 in
  let a := Toy.args (UInt 0) 0 (-1) false in
  num_epoches self = 0%nat
  ∧ (lr_scheduler a = true →
     train 0 Z.gtb Toy.toy_torch self a = ([], Raise (OneCycleTotalStepsError 0)))
  ∧ (lr_scheduler a = false → names (model self) ≠ [] →
     ∀ h, hist_init (model self) (params self)
            (tril_indices (node_size (model self))) = Ok h →
          train 0 Z.gtb Toy.toy_torch self a
          = ([EvCreateIC 0; EvCreateDelayIC 0],
             Raise (UnboundLocalError "windListDict"))).
Proof.
  intros self a.
  assert (H1 : num_epoches self = 0%nat) by reflexivity.
  split; [exact H1|].
  exact (train_without_epochs_raises 0 Z.gtb Toy.toy_torch self a H1).
Defined.

(** X5, on the small instance. *)
Lemma train_no_early_stop_up_to_epoch_min_witness :
  let self := Toy.fitting ["a"] 12 2 2 2 in
  let a := Toy.args (UInt 0) 1 (-1) false in
  let r := train 0 Z.gtb Toy.toy_torch self a in
  (Z.of_nat (num_epoches self) ≤ epoch_min a + 1)
  ∧ r = (r.1, Ok (Toy.outcome self r))
  ∧ early_stop_fired Z.gtb a r.1 = false
  ∧ windows_processed r.1
    = (num_epoches self * (length (trainData self) * num_windows self))%nat.
Proof.
  intros self a r.
  assert (H1 : Z.of_nat (num_epoches self) ≤ epoch_min a + 1)
    by (vm_compute; discriminate).
  assert (H2 : r = (r.1, Ok (Toy.outcome self r))) by (vm_compute; reflexivity).
  split; [exact H1|]. split; [exact H2|].
  exact (train_no_early_stop_up_to_epoch_min 0 Z.gtb Toy.toy_torch self a r.1
           (Toy.outcome self r) H1 H2).
Defined.

(** X14, on the small instance. *)
Lemma train_scheduler_steps_bounded_witness :
  let self := Toy.fitting ["a"] 12 1 2 2 in
  let a := Toy.args (UInt 0) 5 (-1) true in
  let r := train 0 Z.gtb Toy.toy_torch self a in
  lr_scheduler a = true
  ∧ r = (r.1, Ok (Toy.outcome self r))
  ∧ scheduler_steps hyperparameter r.1 = windows_processed r.1
  ∧ (windows_processed r.1 ≤ num_windows self * num_epoches self)%nat.
Proof.
  intros self a r.
  assert (H1 : lr_scheduler a = true) by reflexivity.
  assert (H2 : r = (r.1, Ok (Toy.outcome self r))) by (vm_compute; reflexivity).
  split; [exact H1|]. split; [exact H2|].
  exact (train_scheduler_steps_bounded 0 Z.gtb Toy.toy_torch self a r.1
           (Toy.outcome self r) H1 H2).
Defined.



(** X12, on the small instance. *)
Lemma train_reads_num_windows_of_every_recording_witness :
  let self := Toy.fitting ["a"] 12 2 2 1 in
  let a := Toy.args (UInt 0) 0 (-1) false in
  let r := train 0 Z.gtb Toy.toy_torch self a in
  (0 ≤ epoch_min a)
  ∧ (1 ≤ num_epoches self)%nat
  ∧ r = (r.1, Ok (Toy.outcome self r))
  ∧ Forall (fun wTS => (num_windows self ≤ length wTS)%nat) (trainData self).
Proof.
  intros self a r.
  assert (H1 : 0 ≤ epoch_min a) by (vm_compute; discriminate).
  assert (H2 : (1 ≤ num_epoches self)%nat) by (vm_compute; lia).
  assert (H3 : r = (r.1, Ok (Toy.outcome self r))) by (vm_compute; reflexivity).
  split; [exact H1|]. split; [exact H2|]. split; [exact H3|].
  exact (train_reads_num_windows_of_every_recording 0 Z.gtb Toy.toy_torch self a
           r.1 (Toy.outcome self r) H1 H2 H3).
Defined.

(** X13, on the small instance. *)
Lemma train_after_init_needs_recordings_as_long_as_first_witness :
  let ts := [Toy.recording 1; Toy.recording 2] in
  let self := Toy.fitting ["a"] 12 0 0 1 in
  let self1 :=
    {| model := model self; params := params self; u := None; trainData := ts;
       lastRec := None; num_epoches := 1; num_windows := 1;
       trainingStats := OutputNM_init; cost := cost self |} in
  let a := Toy.args (UInt 0) 0 (-1) false in
  let r := train 0 Z.gtb Toy.toy_torch self1 a in
  Model_fitting_init (model self) (params self) ts 1 (cost self) = Ok self1
  ∧ (0 ≤ epoch_min a)
  ∧ (1 ≤ 1)%nat
  ∧ r = (r.1, Ok (Toy.outcome self1 r))
  ∧ ∃ ts0 rest,
      ts = ts0 :: rest ∧ num_windows self1 = length ts0
      ∧ Forall (fun wTS => (length ts0 ≤ length wTS)%nat) rest.
Proof.
  intros ts self self1 a r.
  assert (H1 : Model_fitting_init (model self) (params self) ts 1 (cost self)
               = Ok self1) by reflexivity.
  assert (H2 : 0 ≤ epoch_min a) by (vm_compute; discriminate).
  assert (H3 : (1 ≤ 1)%nat) by lia.
  assert (H4 : r = (r.1, Ok (Toy.outcome self1 r))) by (vm_compute; reflexivity).
  split; [exact H1|]. split; [exact H2|]. split; [exact H3|]. split; [exact H4|].
  exact (train_after_init_needs_recordings_as_long_as_first 0 Z.gtb Toy.toy_torch
           _ _ _ _ _ self1 a r.1 (Toy.outcome self1 r) H1 H2 H3 H4).
Defined.

(** X4, on the small instance. *)
Lemma train_early_stop_ends_the_epoch_witness :
  let self := Toy.fitting ["a"] 12 2 1 3 in
  let a := Toy.args (UInt 0) 0 (-1) false in
  let r := train 0 Z.gtb Toy.toy_torch self a in
  let p := (1%nat, 202) in
  let q := (2%nat, 202) in
  r = (r.1, Ok (Toy.outcome self r))
  ∧ recordings_finished r.1 = ([(0%nat, 202); (0%nat, 202)] ++ p :: q :: [])%list
  ∧ (p.1 ≤ q.1)%nat ∧ (early_stop Z.gtb a p.1 p.2 = true → (p.1 < q.1)%nat).
Proof.
  intros self a r p q.
  assert (H1 : r = (r.1, Ok (Toy.outcome self r))) by (vm_compute; reflexivity).
  assert (H2 : recordings_finished r.1
               = ([(0%nat, 202); (0%nat, 202)] ++ p :: q :: [])%list)
    by (vm_compute; reflexivity).
  split; [exact H1|]. split; [exact H2|].
  exact (train_early_stop_ends_the_epoch 0 Z.gtb Toy.toy_torch self a r.1
           (Toy.outcome self r) _ p q _ H1 H2).
Defined.

(** X16, on the small instance. *)
Lemma evaluate_completes_only_with_data_witness :
  let self := Toy.fitting ["a"] 12 1 2 1 in
  let r := evaluate 0 (fun z => z) Toy.toy_torch self 1 (UInt 0) in
  r = (r.1, Ok (Toy.outcome self r))
  ∧ (1 ≤ num_windows self)%nat
  ∧ (∃ windowedTS, trainData self !! 0%nat = Some windowedTS ∧ windowedTS ≠ [])
  ∧ output_names (model self) ≠ []
  ∧ NoDup (names (model self)).
Proof.
  intros self r.
  assert (H1 : r = (r.1, Ok (Toy.outcome self r))) by (vm_compute; reflexivity).
  split; [exact H1|].
  exact (evaluate_completes_only_with_data 0 (fun z => z) Toy.toy_torch self 1
           (UInt 0) r.1 (Toy.outcome self r) H1).
Defined.

(** X17, on the small instance. *)
Lemma evaluate_int_stimulus_is_constant_input_witness :
  let self := Toy.fitting ["a"] 12 1 2 1 in
  let m := model self in
  let r := evaluate 0 (fun z => z) Toy.toy_torch self 1 (UInt 5) in
  r = (r.1, Ok (Toy.outcome self r))
  ∧ length (drop 1 (forward_calls r.1)) = num_windows self
  ∧ Forall (fun c => call_external c
                     = full3 (node_size m) (steps_per_TR m) (TRs_per_window m) 5)
      (drop 1 (forward_calls r.1)).
Proof.
  intros self m r.
  assert (H1 : r = (r.1, Ok (Toy.outcome self r))) by (vm_compute; reflexivity).
  split; [exact H1|].
  exact (evaluate_int_stimulus_is_constant_input 0 (fun z => z) Toy.toy_torch
           self 1 5 r.1 (Toy.outcome self r) H1).
Defined.

(** X18, on the small instance. *)
Lemma evaluate_stimulus_shape_witness :
  let self := Toy.fitting ["a"] 12 1 2 1 in
  let m := model self in
  let t := [[[1; 2; 3; 4]]] in
  let r := evaluate 0 (fun z => z) Toy.toy_torch self 1 (UArray t) in
  r = (r.1, Ok (Toy.outcome self r))
  ∧ (length t = node_size m ∨ length t = 1%nat)
  ∧ Forall (fun mat =>
              (length mat = steps_per_TR m ∨ length mat = 1%nat)
              ∧ Forall (fun row =>
                          length row = (num_windows self * TRs_per_window m)%nat
                          ∨ length row = 1%nat) mat) t.
Proof.
  intros self m t r.
  assert (H1 : r = (r.1, Ok (Toy.outcome self r))) by (vm_compute; reflexivity).
  split; [exact H1|].
  exact (evaluate_stimulus_shape 0 (fun z => z) Toy.toy_torch self 1 t r.1
           (Toy.outcome self r) H1).
Defined.

(** X9, on the small instance. *)
Lemma train_stores_histories_of_tracked_names_witness :
  let self := Toy.fitting [] 12 1 2 1 in
  let a := Toy.args (UInt 0) 0 (-1) false in
  let r := train 0 Z.gtb Toy.toy_torch self a in
  r = (r.1, Ok (Toy.outcome self r))
  ∧ (is_Some (stats_attrs (trainingStats (Toy.outcome self r)) !! "w")
     ↔ "w" ∈ tracked_names (model self)
       ∨ is_Some (stats_attrs (trainingStats self) !! "w")).
Proof.
  intros self a r.
  assert (H1 : r = (r.1, Ok (Toy.outcome self r))) by (vm_compute; reflexivity).
  split; [exact H1|].
  exact (train_stores_histories_of_tracked_names 0 Z.gtb Toy.toy_torch self a r.1
           (Toy.outcome self r) "w" H1).
Defined.

End MoreInstances.
